(** * The portfolio lightbox of [script-optimized.js]

    A shallow embedding of the gallery controller: the catalog
    [portfolioData], the two module-level variables [currentGallery] and
    [currentImageIndex], the cached [DOM] elements the controller writes to,
    and the functions [openGallery], [updateGalleryImage], [createThumbnails],
    [goToImage], [nextImage], [prevImage], [closeGallery] together with the
    listeners installed by [initPortfolioHandlers].

    Further on: [throttle] and [debounce], the scroll handler of
    [initNavbarEffects] and the typewriter of [animateHeroTitle] from the
    same script, and from [advanced-performance.js] the frame schedulers
    [scheduleRAF] and [scheduleRead]/[scheduleWrite], the passive-listener
    patch of [optimizeEventListeners] and the observer pool behind
    [observeElement]. *)

From Stdlib Require Import ZArith QArith Lia Lqa.
From stdpp Require Import base decidable option list strings gmap pretty.

Local Open Scope Z_scope.

(** ** JavaScript values *)

Module JS.

(** The numbers the controller computes with are array lengths, indices and
    their sums, differences and remainders.  They are exact integers, or
    [NaN] once a remainder by zero has been taken; an index handed to
    [goToImage] is taken to be an integer a double represents exactly.
    Negative zero, which [(-3) % 3] yields, is identified with zero:
    indexing, [+ 1], [===] and template strings, the only uses the source
    makes of an index, treat the two alike. *)
Inductive number : Type :=
  | Num (z : Z)
  | NaN.

#[global] Instance number_eq_dec : EqDecision number.
Proof. solve_decision. Defined.

Definition add (a b : number) : number :=
  match a, b with
  | Num x, Num y => Num (x + y)
  | _, _ => NaN
  end.

Definition sub (a b : number) : number :=
  match a, b with
  | Num x, Num y => Num (x - y)
  | _, _ => NaN
  end.

(** The [%] operator: the result takes the sign of the dividend, and a zero
    divisor gives [NaN]. *)
Definition rem (a b : number) : number :=
  match a, b with
  | Num x, Num y => if decide (y = 0) then NaN else Num (Z.rem x y)
  | _, _ => NaN
  end.

(** [a === b] on numbers: [NaN] is equal to nothing, itself included. *)
Definition strict_eq (a b : number) : bool :=
  match a, b with
  | Num x, Num y => bool_decide (x = y)
  | _, _ => false
  end.

Definition number_to_string (a : number) : string :=
  match a with
  | Num z => pretty z
  | NaN => "NaN"
  end.

(** [arr.length] *)
Definition length {A} (arr : list A) : number := Num (Z.of_nat (List.length arr)).

(** [arr[i]]: [None] stands for [undefined]. *)
Definition get {A} (arr : list A) (i : number) : option A :=
  match i with
  | Num z => if decide (0 ≤ z) then arr !! Z.to_nat z else None
  | NaN => None
  end.

(** The values a caller may hand to [openGallery].  [JObject] stands for any
    object, array or function. *)
Inductive value : Type :=
  | JUndefined
  | JNull
  | JBool (b : bool)
  | JNumber (n : number)
  | JString (s : string)
  | JObject.

Definition truthy (v : value) : bool :=
  match v with
  | JUndefined | JNull => false
  | JBool b => b
  | JNumber (Num z) => negb (bool_decide (z = 0))
  | JNumber NaN => false
  | JString s => negb (bool_decide (s = ""))
  | JObject => true
  end.

(** [typeof v === 'string'] *)
Definition is_string (v : value) : bool :=
  match v with
  | JString _ => true
  | _ => false
  end.

(** The property key [obj[v]] looks up. *)
Definition to_property_key (v : value) : string :=
  match v with
  | JUndefined => "undefined"
  | JNull => "null"
  | JBool true => "true"
  | JBool false => "false"
  | JNumber n => number_to_string n
  | JString s => s
  | JObject => "[object Object]"
  end.

(** What a DOM string attribute holds after it is assigned [v], where [None]
    is [undefined]. *)
Definition dom_string (v : option string) : string := default "undefined" v.

(** Names every object literal inherits from [Object.prototype]. *)
Definition object_prototype_keys : list string :=
  [ "constructor"; "hasOwnProperty"; "isPrototypeOf"; "propertyIsEnumerable";
    "toLocaleString"; "toString"; "valueOf"; "__proto__";
    "__defineGetter__"; "__defineSetter__"; "__lookupGetter__";
    "__lookupSetter__" ].

End JS.

Abbreviation Num := JS.Num.
Abbreviation NaN := JS.NaN.

(** ** The catalog *)

(** The [images] property of a catalog entry, as [openGallery] inspects it:
    absent, present but not an array, or an array of image locations. *)
Inductive images_field : Type :=
  | ImagesAbsent
  | ImagesNotArray
  | ImagesArray (imgs : list string).

Record Project : Type := mkProject {
  title : string;
  images : images_field;
}.

(** The result of [portfolioData[key]]: an own entry, a member inherited
    from [Object.prototype] (truthy, without [images]), or [undefined]. *)
Inductive lookup_result : Type :=
  | Own (p : Project)
  | Inherited
  | Missing.

Definition lookup_project (catalog : gmap string Project) (key : string)
  : lookup_result :=
  match catalog !! key with
  | Some p => Own p
  | None =>
      if decide (key ∈ JS.object_prototype_keys) then Inherited else Missing
  end.

(** Truthiness of a lookup result. *)
Definition found (r : lookup_result) : bool :=
  match r with
  | Own _ | Inherited => true
  | Missing => false
  end.

Definition portfolioData : gmap string Project :=
  list_to_map [
    ("chassis-gallery", mkProject "Chassis Gallery" (ImagesArray [
      "shell eco marathon chassis 2025.webp";
      "shell eco marathon chassis 2023.webp";
      "Formula Student chassis.webp";
      "Global chassis.webp";
      "Ever Chassis.webp" ]));
    ("formula-chassis", mkProject "Formula Student Chassis" (ImagesArray [
      "Photos/Formula Student Chassis/A.webp";
      "Photos/Formula Student Chassis/B.webp";
      "Photos/Formula Student Chassis/C.webp";
      "Photos/Formula Student Chassis/D.webp";
      "Photos/Formula Student Chassis/E.webp";
      "Photos/Formula Student Chassis/R.webp" ]));
    ("ever", mkProject "EVER Monaco" (ImagesArray [
      "Photos/EVER/1.webp";
      "Photos/EVER/2.webp";
      "Photos/EVER/C.webp" ]));
    ("shell-eco", mkProject "Shell Eco-Marathon Vehicle" (ImagesArray [
      "Photos/Shell Eco-Marathon Vehicle/1.webp";
      "Photos/Shell Eco-Marathon Vehicle/2.webp";
      "Photos/Shell Eco-Marathon Vehicle/3.webp";
      "Photos/Shell Eco-Marathon Vehicle/4.webp";
      "Photos/Shell Eco-Marathon Vehicle/5.webp";
      "Photos/Shell Eco-Marathon Vehicle/6.webp";
      "Photos/Shell Eco-Marathon Vehicle/7.webp";
      "Photos/Shell Eco-Marathon Vehicle/8.webp";
      "Photos/Shell Eco-Marathon Vehicle/9.webp";
      "Photos/Shell Eco-Marathon Vehicle/A.webp" ]));
    ("achievements", mkProject "Engineering Achievements" (ImagesArray [
      "Photos/Achievements/A-1.webp";
      "Photos/Achievements/A.webp";
      "Photos/Achievements/B.webp";
      "Photos/Achievements/C.webp";
      "Photos/Achievements/D.webp";
      "Photos/Achievements/E.webp" ]));
    ("helmet", mkProject "Helmet Design & FEA" (ImagesArray [
      "Photos/Helemt/A.webp";
      "Photos/Helemt/B.webp";
      "Photos/Helemt/C.webp";
      "Photos/Helemt/D.webp";
      "Photos/Helemt/FEA-Helmet.webp" ]));
    ("manufacturing", mkProject "Manufacturing & Prototyping" (ImagesArray [
      "Photos/Manufacturing & Prototyping/1.webp";
      "Photos/Manufacturing & Prototyping/2.webp";
      "Photos/Manufacturing & Prototyping/3.webp";
      "Photos/Manufacturing & Prototyping/4.webp";
      "Photos/Manufacturing & Prototyping/5.webp" ]));
    ("sheet-metal", mkProject "Sheet Metal Analysis" (ImagesArray [
      "Photos/Sheet Metal Analysis/1.jpeg";
      "Photos/Sheet Metal Analysis/2.jpeg";
      "Photos/Sheet Metal Analysis/3.jpeg";
      "Photos/Sheet Metal Analysis/4.jpeg";
      "Photos/Sheet Metal Analysis/Punch.jpeg" ]));
    ("seating-chairs", mkProject "Sheet Metal - Seating Chairs" (ImagesArray [
      "Photos/Sheet Metal -Seating chairs/1.png";
      "Photos/Sheet Metal -Seating chairs/2.jpg";
      "Photos/Sheet Metal -Seating chairs/3.jpg";
      "Photos/Sheet Metal -Seating chairs/5.png";
      "Photos/Sheet Metal -Seating chairs/6.png";
      "Photos/Sheet Metal -Seating chairs/A.jpg";
      "Photos/Sheet Metal -Seating chairs/B.png";
      "Photos/Sheet Metal -Seating chairs/C.png";
      "Photos/Sheet Metal -Seating chairs/D.png";
      "Photos/Sheet Metal -Seating chairs/E.png";
      "Photos/Sheet Metal -Seating chairs/G.jpg";
      "Photos/Sheet Metal -Seating chairs/H.png";
      "Photos/Sheet Metal -Seating chairs/W-1.png";
      "Photos/Sheet Metal -Seating chairs/W-2.jpg";
      "Photos/Sheet Metal -Seating chairs/W-4.jpg";
      "Photos/Sheet Metal -Seating chairs/W.jpg" ]));
    ("solidworks-champion", mkProject "SolidWorks Champion" (ImagesArray [
      "Photos/Solidwork Champion/1-optimized.jpg";
      "Photos/Solidwork Champion/2-optimized.jpg";
      "Photos/Solidwork Champion/3-optimized.jpg" ]));
    ("injection-molding", mkProject "Injection Molding Design" (ImagesArray [
      "Photos/Injection Molding Design/1.jpg";
      "Photos/Injection Molding Design/2.jpg";
      "Photos/Injection Molding Design/3.jpg";
      "Photos/Injection Molding Design/4.jpg";
      "Photos/Injection Molding Design/5.jpg";
      "Photos/Injection Molding Design/6.jpg";
      "Photos/Injection Molding Design/7.jpg";
      "Photos/Injection Molding Design/8.jpg";
      "Photos/Injection Molding Design/9.png";
      "Photos/Injection Molding Design/10.png" ]));
    ("wall-mounted-motor", mkProject "Wall Mounted Motor Holder" (ImagesArray [
      "Photos/Wall Mounted Motor Holder/1.png";
      "Photos/Wall Mounted Motor Holder/2.png";
      "Photos/Wall Mounted Motor Holder/3.png";
      "Photos/Wall Mounted Motor Holder/4.png";
      "Photos/Wall Mounted Motor Holder/5.png";
      "Photos/Wall Mounted Motor Holder/6.png";
      "Photos/Wall Mounted Motor Holder/7.png";
      "Photos/Wall Mounted Motor Holder/8.png";
      "Photos/Wall Mounted Motor Holder/9.png" ]))
  ].

(** ** The page and the controller's variables *)

(** The main image element: its [src] attribute ([None] when the attribute
    is absent) and the two loading hints every render sets. *)
Record ImgEl : Type := mkImgEl {
  img_src : option string;
  img_fetchpriority : option string;
  img_decoding : option string;
}.

(** One [<img class="gallery-thumbnail">] of the strip; [thumb_active] says
    whether its class list holds [active], [thumb_onclick] is the index its
    click handler passes to [goToImage]. *)
Record Thumb : Type := mkThumb {
  thumb_src : string;
  thumb_alt : string;
  thumb_active : bool;
  thumb_onclick : nat;
}.

(** The [DOM] cache filled by [cacheDOMElements]; [None] (or [false]) is an
    element [getElementById] did not find.  For the modal only the presence
    of [active] in its class list is kept, for the title and the counter
    their text content. *)
Record DOMCache : Type := mkDOM {
  galleryModal : option bool;
  galleryTitle : option string;
  galleryMainImage : option ImgEl;
  galleryCounter : option string;
  galleryThumbnails : option (list Thumb);
  galleryClose : bool;
  galleryNext : bool;
  galleryPrev : bool;
}.

(** A logged [console.error]: the message and the further arguments. *)
Definition log_entry : Type := string * list JS.value.

Record State : Type := mkState {
  currentGallery : list string;
  currentImageIndex : JS.number;
  DOM : DOMCache;
  (** [document.body.style.overflow] *)
  body_overflow : string;
  (** the [console.error] calls so far, oldest first *)
  console : list log_entry;
  (** the [src] given to each off-screen [new Image()] so far *)
  offscreen : list string;
  (** the [done] continuations handed to [decode()] and not yet run, each
      with the [nextSrc] it captured ([None] is [undefined]) *)
  pending : list (option string);
  (** whether image elements of this browser have a [decode] method *)
  has_decode : bool;
}.

Definition with_gallery (g : list string) (s : State) : State :=
  mkState g (currentImageIndex s) (DOM s) (body_overflow s) (console s)
          (offscreen s) (pending s) (has_decode s).
Definition with_index (i : JS.number) (s : State) : State :=
  mkState (currentGallery s) i (DOM s) (body_overflow s) (console s)
          (offscreen s) (pending s) (has_decode s).
Definition with_DOM (d : DOMCache) (s : State) : State :=
  mkState (currentGallery s) (currentImageIndex s) d (body_overflow s)
          (console s) (offscreen s) (pending s) (has_decode s).
Definition with_overflow (o : string) (s : State) : State :=
  mkState (currentGallery s) (currentImageIndex s) (DOM s) o (console s)
          (offscreen s) (pending s) (has_decode s).
Definition with_console (c : list log_entry) (s : State) : State :=
  mkState (currentGallery s) (currentImageIndex s) (DOM s) (body_overflow s)
          c (offscreen s) (pending s) (has_decode s).
Definition with_offscreen (o : list string) (s : State) : State :=
  mkState (currentGallery s) (currentImageIndex s) (DOM s) (body_overflow s)
          (console s) o (pending s) (has_decode s).
Definition with_pending (p : list (option string)) (s : State) : State :=
  mkState (currentGallery s) (currentImageIndex s) (DOM s) (body_overflow s)
          (console s) (offscreen s) p (has_decode s).

Definition with_modal (m : option bool) (d : DOMCache) : DOMCache :=
  mkDOM m (galleryTitle d) (galleryMainImage d) (galleryCounter d)
        (galleryThumbnails d) (galleryClose d) (galleryNext d) (galleryPrev d).
Definition with_title (t : option string) (d : DOMCache) : DOMCache :=
  mkDOM (galleryModal d) t (galleryMainImage d) (galleryCounter d)
        (galleryThumbnails d) (galleryClose d) (galleryNext d) (galleryPrev d).
Definition with_image (i : option ImgEl) (d : DOMCache) : DOMCache :=
  mkDOM (galleryModal d) (galleryTitle d) i (galleryCounter d)
        (galleryThumbnails d) (galleryClose d) (galleryNext d) (galleryPrev d).
Definition with_counter (c : option string) (d : DOMCache) : DOMCache :=
  mkDOM (galleryModal d) (galleryTitle d) (galleryMainImage d) c
        (galleryThumbnails d) (galleryClose d) (galleryNext d) (galleryPrev d).
Definition with_thumbnails (t : option (list Thumb)) (d : DOMCache) : DOMCache :=
  mkDOM (galleryModal d) (galleryTitle d) (galleryMainImage d)
        (galleryCounter d) t (galleryClose d) (galleryNext d) (galleryPrev d).

(** The state when the script has been loaded and [cacheDOMElements] has
    run on a page whose elements are [d]: the two variables as lines
    163-164 of the source initialise them, a body without an inline
    [overflow] style, nothing logged, no image being decoded. *)
Definition initial_state (d : DOMCache) (decode : bool) : State :=
  mkState [] (Num 0) d "" [] [] [] decode.

(** ** Running a function body: state and exceptions *)

Inductive js_error : Type := TypeError.

Inductive outcome (A : Type) : Type :=
  | Returned (a : A)
  | Thrown (e : js_error).
Arguments Returned {A} a.
Arguments Thrown {A} e.

(** A function body: from the state before to how it ended and the state it
    left.  A thrown error leaves the writes made before it in place. *)
Definition Js (A : Type) : Type := State → outcome A * State.

#[global] Instance Js_ret : MRet Js := λ A a s, (Returned a, s).
#[global] Instance Js_bind : MBind Js := λ A B f m s,
  match m s with
  | (Returned a, s') => f a s'
  | (Thrown e, s') => (Thrown e, s')
  end.

Definition read : Js State := λ s, (Returned s, s).
Definition write (f : State → State) : Js unit := λ s, (Returned tt, f s).
Definition throw {A} (e : js_error) : Js A := λ s, (Thrown e, s).

(** [try { m } catch (e) { h }] *)
Definition try_catch (m : Js unit) (h : Js unit) : Js unit := λ s,
  match m s with
  | (Returned a, s') => (Returned a, s')
  | (Thrown _, s') => h s'
  end.

(** The state a call leaves, whether it returned or threw: what the next
    event finds. *)
Definition exec {A} (m : Js A) (s : State) : State := snd (m s).
Definition result {A} (m : Js A) (s : State) : outcome A := fst (m s).

(** ** The gallery functions *)

Definition console_error (msg : string) (args : list JS.value) : Js unit :=
  write (λ s, with_console (console s ++ [(msg, args)]) s).

(** The template string [`${currentImageIndex + 1} / ${currentGallery.length}`],
    read from the variables as they are when it is evaluated. *)
Definition counter_text (s : State) : string :=
  JS.number_to_string (JS.add (currentImageIndex s) (Num 1)) +:+ " / " +:+
  JS.number_to_string (JS.length (currentGallery s)).

(** [DOM.galleryCounter.textContent = `...`]: a [TypeError] when the counter
    element was not found. *)
Definition set_counter_text : Js unit :=
  s ← read;
  match galleryCounter (DOM s) with
  | None => throw TypeError
  | Some _ =>
      write (with_DOM (with_counter (Some (counter_text s)) (DOM s)))
  end.

Definition set_src (src : string) (el : ImgEl) : ImgEl :=
  mkImgEl (Some src) (img_fetchpriority el) (img_decoding el).

(** [imgEl.setAttribute('fetchpriority', 'high'); imgEl.decoding = 'async'] *)
Definition set_hints (el : ImgEl) : ImgEl :=
  mkImgEl (img_src el) (Some "high") (Some "async").

Definition update_image (f : ImgEl → ImgEl) (s : State) : State :=
  with_DOM (with_image (f <$> galleryMainImage (DOM s)) (DOM s)) s.

(** The closure [done] of [updateGalleryImage], with the [nextSrc] it
    captured.  It is only ever created when the main image element exists. *)
Definition done (nextSrc : option string) : Js unit :=
  write (update_image (set_src (JS.dom_string nextSrc))) ;;
  set_counter_text.

(** [thumb.classList.toggle('active', force)] *)
Definition toggle_active (force : bool) (t : Thumb) : Thumb :=
  mkThumb (thumb_src t) (thumb_alt t) force (thumb_onclick t).

Definition highlight (cur : JS.number) (thumbnails : list Thumb) : list Thumb :=
  imap (λ index thumb,
          toggle_active (JS.strict_eq (Num (Z.of_nat index)) cur) thumb)
       thumbnails.

(** [currentGallery[currentImageIndex]] *)
Definition next_src (s : State) : option string :=
  JS.get (currentGallery s) (currentImageIndex s).

Definition updateGalleryImage : Js unit :=
  s ← read;
  match galleryMainImage (DOM s) with
  | None => mret tt
  | Some imgEl =>
      let nextSrc := next_src s in
      write (update_image set_hints) ;;
      let currentAttrSrc := default "" (img_src imgEl) in
      (if bool_decide (Some currentAttrSrc = nextSrc) then
         set_counter_text
       else
         (* const preImg = new Image(); preImg.src = nextSrc; *)
         write (λ s, with_offscreen (offscreen s ++ [JS.dom_string nextSrc]) s) ;;
         if has_decode s then
           (* preImg.decode().then(done).catch(() => done()) *)
           write (λ s, with_pending (pending s ++ [nextSrc]) s)
         else
           done nextSrc) ;;
      s ← read;
      match galleryThumbnails (DOM s) with
      | None => throw TypeError
      | Some thumbnails =>
          write (with_DOM
                   (with_thumbnails
                      (Some (highlight (currentImageIndex s) thumbnails))
                      (DOM s)))
      end
  end.

(** The fragment [createThumbnails] fills: one thumbnail per image, in
    order, none of them [active]. *)
Definition thumbnail_fragment (gallery : list string) : list Thumb :=
  imap (λ index src,
          mkThumb src ("Thumbnail " +:+ pretty (Z.of_nat index + 1)) false index)
       gallery.

Definition createThumbnails : Js unit :=
  s ← read;
  let fragment := thumbnail_fragment (currentGallery s) in
  match galleryThumbnails (DOM s) with
  | None => throw TypeError
  | Some _ => write (with_DOM (with_thumbnails (Some fragment) (DOM s)))
  end.

Definition openGallery (catalog : gmap string Project) (projectKey : JS.value)
  : Js unit :=
  if negb (JS.truthy projectKey) || negb (JS.is_string projectKey) then
    console_error "Invalid project key:" [projectKey]
  else
    match lookup_project catalog (JS.to_property_key projectKey) with
    | Missing => console_error "Project not found:" [projectKey]
    | Inherited => console_error "Project has no images:" [projectKey]
    | Own project =>
        match images project with
        | ImagesAbsent | ImagesNotArray | ImagesArray [] =>
            console_error "Project has no images:" [projectKey]
        | ImagesArray imgs =>
            s ← read;
            match galleryModal (DOM s), galleryTitle (DOM s) with
            | Some _, Some _ =>
                write (with_gallery imgs) ;;
                write (with_index (Num 0)) ;;
                write (λ s, with_DOM (with_title (Some (title project)) (DOM s)) s) ;;
                write (λ s, with_DOM (with_modal (Some true) (DOM s)) s) ;;
                write (with_overflow "hidden") ;;
                updateGalleryImage ;;
                createThumbnails
            | _, _ => console_error "Gallery modal elements not found" []
            end
        end
    end.

Definition goToImage (index : JS.number) : Js unit :=
  write (with_index index) ;;
  updateGalleryImage.

Definition nextImage : Js unit :=
  write (λ s, with_index
                (JS.rem (JS.add (currentImageIndex s) (Num 1))
                        (JS.length (currentGallery s))) s) ;;
  updateGalleryImage.

Definition prevImage : Js unit :=
  write (λ s, with_index
                (JS.rem (JS.add (JS.sub (currentImageIndex s) (Num 1))
                                (JS.length (currentGallery s)))
                        (JS.length (currentGallery s))) s) ;;
  updateGalleryImage.

Definition closeGallery : Js unit :=
  s ← read;
  match galleryModal (DOM s) with
  | None => throw TypeError
  | Some _ =>
      write (with_DOM (with_modal (Some false) (DOM s))) ;;
      write (with_overflow "")
  end.

(** ** The listeners of [initPortfolioHandlers] and the decode promise *)

(** The document click listener, for a click inside a [.portfolio-project]
    whose [data-project] attribute is [data_project] ([None]: no such
    attribute). *)
Definition project_click (catalog : gmap string Project)
    (data_project : option string) : Js unit :=
  s ← read;
  match galleryModal (DOM s) with
  | None => throw TypeError
  | Some active =>
      if negb active then
        match data_project with
        | Some projectKey =>
            if JS.truthy (JS.JString projectKey) &&
               found (lookup_project catalog projectKey)
            then openGallery catalog (JS.JString projectKey)
            else mret tt
        | None => mret tt
        end
      else mret tt
  end.

(** The three button listeners, each installed only if its button exists. *)
Definition close_click : Js unit :=
  s ← read; if galleryClose (DOM s) then closeGallery else mret tt.
Definition next_click : Js unit :=
  s ← read; if galleryNext (DOM s) then nextImage else mret tt.
Definition prev_click : Js unit :=
  s ← read; if galleryPrev (DOM s) then prevImage else mret tt.

(** The listener on the modal, for a click whose target is the modal itself
    (the backdrop); it is installed only if the modal exists. *)
Definition backdrop_click : Js unit :=
  s ← read;
  match galleryModal (DOM s) with
  | None => mret tt
  | Some _ => closeGallery
  end.

Definition keydown (key : string) : Js unit :=
  s ← read;
  match galleryModal (DOM s) with
  | None | Some false => mret tt
  | Some true =>
      if bool_decide (key = "Escape") then closeGallery
      else if bool_decide (key = "ArrowLeft") then prevImage
      else if bool_decide (key = "ArrowRight") then nextImage
      else mret tt
  end.

(** [try { closeGallery(); } catch(e){}] *)
Definition pagehide : Js unit := try_catch closeGallery (mret tt).

(** A click on the [k]-th thumbnail of the strip runs its [onclick]. *)
Definition thumb_click (k : nat) : Js unit :=
  s ← read;
  match galleryThumbnails (DOM s) ≫= (.!! k) with
  | Some thumb => goToImage (Num (Z.of_nat (thumb_onclick thumb)))
  | None => mret tt
  end.

Inductive decode_result : Type := Fulfilled | Rejected.

(** The promise of the [k]-th pending [decode()] settles, and
    [.then(done).catch(() => done())] runs: on fulfilment [done], and once
    more if that call threw; on rejection [done]. *)
Definition settle (k : nat) (r : decode_result) : Js unit :=
  s ← read;
  match pending s !! k with
  | None => mret tt
  | Some nextSrc =>
      write (with_pending (delete k (pending s))) ;;
      match r with
      | Fulfilled => try_catch (done nextSrc) (done nextSrc)
      | Rejected => done nextSrc
      end
  end.

Inductive event : Type :=
  | ProjectClick (data_project : option string)
  | CloseClick
  | NextClick
  | PrevClick
  | BackdropClick
  | KeyDown (key : string)
  | ThumbClick (k : nat)
  | PageHide
  | DecodeSettled (k : nat) (r : decode_result).

Definition handler (catalog : gmap string Project) (e : event) : Js unit :=
  match e with
  | ProjectClick a => project_click catalog a
  | CloseClick => close_click
  | NextClick => next_click
  | PrevClick => prev_click
  | BackdropClick => backdrop_click
  | KeyDown key => keydown key
  | ThumbClick k => thumb_click k
  | PageHide => pagehide
  | DecodeSettled k r => settle k r
  end.

(** One turn of the event loop: the listener runs; if it throws, the error
    is reported by the browser and the state it left remains. *)
Definition step (catalog : gmap string Project) (e : event) (s : State) : State :=
  exec (handler catalog e) s.

Definition run (catalog : gmap string Project) (es : list event) (s : State)
  : State :=
  foldl (λ s e, step catalog e s) s es.

(** ** Session predicates *)

(** The lightbox is shown: the modal carries [active]. *)
Definition is_open (s : State) : Prop := galleryModal (DOM s) = Some true.

(** The [Closed] state of the session: the lightbox is hidden and the page
    scroll is not locked. *)
Definition is_closed (s : State) : Prop :=
  galleryModal (DOM s) = Some false ∧ body_overflow s = "".

(** [0 ≤ currentImageIndex < currentGallery.length] *)
Definition index_in_range (s : State) : Prop :=
  ∃ i : Z, currentImageIndex s = Num i ∧
           0 ≤ i < Z.of_nat (length (currentGallery s)).

(** The elements [updateGalleryImage] and [createThumbnails] write to. *)
Definition render_hooks (s : State) : Prop :=
  is_Some (galleryMainImage (DOM s)) ∧ is_Some (galleryCounter (DOM s)) ∧
  is_Some (galleryThumbnails (DOM s)).

(** What rendering never touches: the two session variables, the modal, the
    title, the scroll lock, the console and the browser's capabilities. *)
Definition same_session (s s' : State) : Prop :=
  currentGallery s' = currentGallery s ∧
  currentImageIndex s' = currentImageIndex s ∧
  galleryModal (DOM s') = galleryModal (DOM s) ∧
  galleryTitle (DOM s') = galleryTitle (DOM s) ∧
  body_overflow s' = body_overflow s ∧
  console s' = console s ∧
  has_decode s' = has_decode s.

(** An argument of [openGallery] that is no string, or names nothing in the
    catalog, or names an entry whose image list is absent, no array, or
    empty. *)
Definition unresolved (catalog : gmap string Project) (v : JS.value) : Prop :=
  JS.is_string v = false ∨
  ∃ key, v = JS.JString key ∧
    (catalog !! key = None ∨
     ∃ p, catalog !! key = Some p ∧
          (images p = ImagesAbsent ∨ images p = ImagesNotArray ∨
           images p = ImagesArray [])).

(** What may happen between opening and closing: the three navigation
    calls, and pending decodes settling. *)
Inductive history_op : Type :=
  | OpNext
  | OpPrev
  | OpGoTo (i : JS.number)
  | OpSettle (k : nat) (r : decode_result).

Definition history_step (s : State) (op : history_op) : State :=
  match op with
  | OpNext => exec nextImage s
  | OpPrev => exec prevImage s
  | OpGoTo i => exec (goToImage i) s
  | OpSettle k r => exec (settle k r) s
  end.

(** The states the page can be in: those the listeners lead to from the
    freshly loaded script. *)
Inductive reachable (catalog : gmap string Project) (d : DOMCache)
    (decode : bool) : State → Prop :=
  | reachable_init : reachable catalog d decode (initial_state d decode)
  | reachable_step s e :
      reachable catalog d decode s →
      reachable catalog d decode (step catalog e s).

(** The scroll lock is held exactly while the modal is shown. *)
Definition lock_invariant (s : State) : Prop :=
  match galleryModal (DOM s) with
  | Some true => body_overflow s = "hidden"
  | Some false | None => body_overflow s = ""
  end.

(** A freshly loaded page with every gallery element: the modal hidden, the
    title, counter and thumbnail strip empty, the main image without a
    [src]. *)
Definition gallery_page : DOMCache :=
  mkDOM (Some false) (Some "") (Some (mkImgEl None None None)) (Some "")
        (Some []) true true true.

(** A page without any of the gallery elements. *)
Definition bare_page : DOMCache :=
  mkDOM None None None None None false false false.

(** The project "ever" (three images) opened on a fresh [gallery_page]. *)
Definition ever_open (decode : bool) : State :=
  exec (openGallery portfolioData (JS.JString "ever"))
       (initial_state gallery_page decode).

(** The five assignments [openGallery] makes once its checks have passed,
    before it renders. *)
Definition open_writes (project : Project) (imgs : list string) (s : State)
  : State :=
  with_overflow "hidden"
    (with_DOM (with_modal (Some true)
                 (with_title (Some (title project)) (DOM s)))
       (with_index (Num 0) (with_gallery imgs s))).

(** The page after a render that found its elements: main image [img],
    counter [counter], and the strip [ths] with the highlight recomputed. *)
Definition rendered (img : ImgEl) (counter : option string) (ths : list Thumb)
    (s : State) : State :=
  with_DOM
    (with_thumbnails (Some (highlight (currentImageIndex s) ths))
       (with_counter counter (with_image (Some img) (DOM s))))
    s.

(** The page after [done] has run for a captured [nextSrc]. *)
Definition swapped (img : ImgEl) (nextSrc : option string) (s : State) : State :=
  with_DOM
    (with_counter (Some (counter_text s))
       (with_image (Some (set_src (JS.dom_string nextSrc) img)) (DOM s)))
    s.

(** A visit that ends on the second image of "ever" with every decode
    settled, the lightbox closed again, and then "helmet" (five images)
    opened. *)
Definition helmet_after_ever : State :=
  exec (openGallery portfolioData (JS.JString "helmet"))
    (exec closeGallery
       (exec (settle 0 Fulfilled)
          (exec nextImage
             (exec (settle 0 Fulfilled) (ever_open true))))).

(** The entry of "ever", and the main image and strip of the page once
    "ever" is shown at its first image. *)
Definition ever_project : Project :=
  mkProject "EVER Monaco"
    (ImagesArray ["Photos/EVER/1.webp"; "Photos/EVER/2.webp";
                  "Photos/EVER/C.webp"]).

Definition ever_image : ImgEl :=
  mkImgEl (Some "Photos/EVER/1.webp") (Some "high") (Some "async").

Definition ever_thumbs : list Thumb :=
  thumbnail_fragment
    ["Photos/EVER/1.webp"; "Photos/EVER/2.webp"; "Photos/EVER/C.webp"].

(** "ever" shown with [currentImageIndex] at 7, as a call [goToImage(7)]
    leaves it. *)
Definition ever_at_seven : State :=
  exec (goToImage (Num 7)) (ever_open false).

(** A page with every gallery element but the counter. *)
Definition page_without_counter : DOMCache :=
  mkDOM (Some false) (Some "") (Some (mkImgEl None None None)) None
        (Some []) true true true.

(** A visit of that page through the listeners alone.  "ever" is opened
    and its first image decoded, then "helmet" (five images) is opened and
    closed, which leaves its five thumbnails in the strip.  When "ever" is
    opened again its first image is the one displayed, the render throws at
    the missing counter before [createThumbnails] is reached, and the strip
    of "helmet" stays; its fifth thumbnail is then clicked. *)
Definition stale_strip_visit : State :=
  run portfolioData
      [ProjectClick (Some "ever"); DecodeSettled 0 Fulfilled; CloseClick;
       ProjectClick (Some "helmet"); CloseClick;
       ProjectClick (Some "ever"); ThumbClick 4]
      (initial_state page_without_counter true).

(** A page whose markup already gives the main image the first image of
    "ever" as its [src], and no loading hints. *)
Definition page_showing_ever : DOMCache :=
  mkDOM (Some false) (Some "") (Some (mkImgEl (Some "Photos/EVER/1.webp") None None))
        (Some "") (Some []) true true true.

(** The state in which [openGallery] calls [updateGalleryImage] when "ever"
    is opened on that page: the first render of the page, with the target
    already displayed. *)
Definition ever_first_render : State :=
  open_writes ever_project
    ["Photos/EVER/1.webp"; "Photos/EVER/2.webp"; "Photos/EVER/C.webp"]
    (initial_state page_showing_ever true).

(** Every thumbnail of the strip passes an index of the current gallery
    to [goToImage]. *)
Definition strip_in_range (s : State) : Prop :=
  ∀ ths, galleryThumbnails (DOM s) = Some ths →
         Forall (λ th, (thumb_onclick th < length (currentGallery s))%nat) ths.

(** All five gallery elements were found. *)
Definition all_hooks (s : State) : Prop :=
  is_Some (galleryModal (DOM s)) ∧ is_Some (galleryTitle (DOM s)) ∧
  render_hooks s.

(** A page with all the gallery elements, as loaded: the modal hidden, the
    strip empty. *)
Definition complete_page (d : DOMCache) : Prop :=
  galleryModal d = Some false ∧ is_Some (galleryTitle d) ∧
  is_Some (galleryMainImage d) ∧ is_Some (galleryCounter d) ∧
  galleryThumbnails d = Some [].

(** What the listeners maintain on a complete page: the elements stay, the
    strip belongs to the gallery, and an open session has its index in
    range. *)
Definition session_invariant (s : State) : Prop :=
  all_hooks s ∧ strip_in_range s ∧ (is_open s → index_in_range s).

(** [s'] has the variables, modal, and element presence of [s], and a
    strip whose thumbnails pass the same indices. *)
Definition keeps (s s' : State) : Prop :=
  same_session s s' ∧
  is_Some (galleryMainImage (DOM s')) ∧ is_Some (galleryCounter (DOM s')) ∧
  (map thumb_onclick <$> galleryThumbnails (DOM s'))
  = (map thumb_onclick <$> galleryThumbnails (DOM s)).

(** ** What one turn of the event loop does to the gallery *)

(** The effects a listener can have on a page with all gallery elements:
    nothing, one logged error, a render at some index, closing, a
    successful open, or a settled decode. *)
Inductive step_kind (s : State) : State → Prop :=
  | kind_same : step_kind s s
  | kind_logged (entry : log_entry) :
      step_kind s (with_console (console s ++ [entry]) s)
  | kind_render (i : JS.number) :
      step_kind s (exec updateGalleryImage (with_index i s))
  | kind_close :
      step_kind s
        (with_overflow "" (with_DOM (with_modal (Some false) (DOM s)) s))
  | kind_open (p : Project) (imgs : list string) :
      imgs ≠ [] →
      step_kind s
        (exec createThumbnails
           (exec updateGalleryImage (open_writes p imgs s)))
  | kind_settle (k : nat) (r : decode_result) :
      step_kind s (exec (settle k r) s).

(** The strip is the fragment made from the current gallery, either as
    [createThumbnails] left it or with the highlight of the current index. *)
Definition strip_shape (s : State) : Prop :=
  galleryThumbnails (DOM s) = Some (thumbnail_fragment (currentGallery s)) ∨
  galleryThumbnails (DOM s)
  = Some (highlight (currentImageIndex s)
            (thumbnail_fragment (currentGallery s))).

(** [getAttribute('src') || ''] of the main image. *)
Definition shown_src (s : State) : option string :=
  (λ img, default "" (img_src img)) <$> galleryMainImage (DOM s).

(** The main image and the counter show what the two variables say. *)
Definition synced (s : State) : Prop :=
  shown_src s = Some (JS.dom_string (next_src s)) ∧
  galleryCounter (DOM s) = Some (counter_text s).

(** No gallery was opened and no navigation function was called yet. *)
Definition unrendered (s : State) : Prop :=
  currentGallery s = [] ∧ currentImageIndex s = Num 0.

(** In a browser without [decode] nothing is ever pending, and once
    anything was rendered the page is [synced]. *)
Definition immediate_invariant (s : State) : Prop :=
  has_decode s = false ∧ pending s = [] ∧ (unrendered s ∨ synced s).

(** A visit on a fresh complete page: "ever" opened by a click, one step
    forward, the first decode settled, one more step by keyboard. *)
Definition ever_visit (decode : bool) : State :=
  run portfolioData
      [ProjectClick (Some "ever"); NextClick; DecodeSettled 0 Fulfilled;
       KeyDown "ArrowRight"]
      (initial_state gallery_page decode).

(** ** [throttle] and [debounce] *)

(** Times are in milliseconds.  [setTimeout(f, delay)] called at time [t]
    makes [f] due at [t + max(0, delay)]; the browser runs it in some later
    turn, never before it is due. *)
Definition due_time (t delay : Z) : Z := t + Z.max 0 delay.

(** The closure [throttle(func, limit)] returns: its flag [inThrottle]
    ([undefined] counts as [false]), the due times of the pending
    [() => inThrottle = false] timers, the number of invocations of [func]
    that have begun and not ended, the [func.apply(this, args)] calls made
    so far with their times, and the time of the latest event. *)
Record Throttle (A : Type) : Type := mkThrottle {
  inThrottle : bool;
  throttle_timers : list Z;
  throttle_running : nat;
  throttle_invoked : list (Z * A);
  throttle_clock : Z;
}.
Arguments mkThrottle {A} _ _ _ _ _.
Arguments inThrottle {A} _.
Arguments throttle_timers {A} _.
Arguments throttle_running {A} _.
Arguments throttle_invoked {A} _.
Arguments throttle_clock {A} _.

(** What happens to the closure.  The throttled function is called with
    [args], from outside or by [func] itself while it runs; the innermost
    invocation of [func] in progress returns, or ends by throwing; the
    oldest timer runs. *)
Inductive throttle_event (A : Type) : Type :=
  | ThrottleCall (t : Z) (args : A)
  | ThrottleFuncReturns (t : Z)
  | ThrottleFuncThrows (t : Z)
  | ThrottleTimeout (t : Z).
Arguments ThrottleCall {A} t args.
Arguments ThrottleFuncReturns {A} t.
Arguments ThrottleFuncThrows {A} t.
Arguments ThrottleTimeout {A} t.

Definition throttle_init {A} (t0 : Z) : Throttle A :=
  mkThrottle false [] 0 [] t0.

(** One event at time [t].  A call that finds [inThrottle] unset starts
    [func] (line 187); only when [func] returns are [inThrottle] set and
    the timer started (lines 188-189), and an error thrown by [func] leaves
    the closure before that.  A timer runs in a turn of its own, when no
    invocation is in progress.  [None] is an event that cannot happen: time
    running backwards, an invocation ending that never began, a timer that
    is not there or not yet due. *)
Definition throttle_step {A} (limit : Z) (st : Throttle A)
    (e : throttle_event A) : option (Throttle A) :=
  match e with
  | ThrottleCall t args =>
      if decide (throttle_clock st ≤ t) then
        if inThrottle st then
          Some (mkThrottle (inThrottle st) (throttle_timers st)
                           (throttle_running st) (throttle_invoked st) t)
        else
          Some (mkThrottle (inThrottle st) (throttle_timers st)
                           (S (throttle_running st))
                           (throttle_invoked st ++ [(t, args)]) t)
      else None
  | ThrottleFuncReturns t =>
      match throttle_running st with
      | S running =>
          if decide (throttle_clock st ≤ t) then
            Some (mkThrottle true
                             (throttle_timers st ++ [due_time t limit])
                             running (throttle_invoked st) t)
          else None
      | O => None
      end
  | ThrottleFuncThrows t =>
      match throttle_running st with
      | S running =>
          if decide (throttle_clock st ≤ t) then
            Some (mkThrottle (inThrottle st) (throttle_timers st)
                             running (throttle_invoked st) t)
          else None
      | O => None
      end
  | ThrottleTimeout t =>
      match throttle_running st, throttle_timers st with
      | O, due :: rest =>
          if decide (throttle_clock st ≤ t ∧ due ≤ t) then
            Some (mkThrottle false rest 0 (throttle_invoked st) t)
          else None
      | _, _ => None
      end
  end.

Definition throttle_run {A} (limit : Z) (es : list (throttle_event A))
    (st : Throttle A) : option (Throttle A) :=
  foldl (λ o e, o ≫= λ st, throttle_step limit st e) (Some st) es.

(** The calls of the throttled function among the events. *)
Definition throttle_calls {A} (es : list (throttle_event A)) : list (Z * A) :=
  omap (λ e, match e with
             | ThrottleCall t args => Some (t, args)
             | _ => None
             end) es.

(** [func] behaves in the event [e] met in state [st]: it does not throw,
    and it does not call the throttled function while it runs. *)
Definition func_behaves {A} (st : Throttle A) (e : throttle_event A) : Prop :=
  match e with
  | ThrottleFuncThrows _ => False
  | ThrottleCall _ _ => throttle_running st = 0%nat
  | _ => True
  end.

(** [func] behaves in every event of [es], run from [st]. *)
Fixpoint func_well_behaved {A} (limit : Z) (es : list (throttle_event A))
    (st : Throttle A) : Prop :=
  match es with
  | [] => True
  | e :: es =>
      func_behaves st e ∧
      match throttle_step limit st e with
      | Some st' => func_well_behaved limit es st'
      | None => True
      end
  end.

(** Consecutive entries of a log are at least [gap] apart. *)
Definition spaced {A} (gap : Z) (log : list (Z * A)) : Prop :=
  ∀ i t1 a1 t2 a2,
    log !! i = Some (t1, a1) → log !! S i = Some (t2, a2) → t1 + gap ≤ t2.

(** What [throttle] keeps true from event to event as long as [func]
    behaves. *)
Definition throttle_invariant {A} (limit : Z) (st : Throttle A) : Prop :=
  spaced (Z.max 0 limit) (throttle_invoked st) ∧
  (∀ t a, (t, a) ∈ throttle_invoked st → t ≤ throttle_clock st) ∧
  match throttle_running st with
  | O =>
      if inThrottle st then
        ∃ t a due, last (throttle_invoked st) = Some (t, a) ∧
                   throttle_timers st = [due] ∧ due_time t limit ≤ due
      else
        throttle_timers st = [] ∧
        ∀ t a, last (throttle_invoked st) = Some (t, a) →
               due_time t limit ≤ throttle_clock st
  | S running =>
      running = 0%nat ∧ inThrottle st = false ∧ throttle_timers st = [] ∧
      is_Some (last (throttle_invoked st))
  end.

(** The closure [debounce(func, wait)] returns: its variable [timeout] (the
    handle of its latest [setTimeout], [None] for [undefined]), the pending
    [later] closures by handle with their due time and captured [args],
    the handles given out so far, the [func(...args)] calls made so far
    with their times, and the time of the latest turn. *)
Record Debounce (A : Type) : Type := mkDebounce {
  timeout : option nat;
  debounce_timers : gmap nat (Z * A);
  debounce_handles : nat;
  debounce_invoked : list (Z * A);
  debounce_clock : Z;
}.
Arguments mkDebounce {A} _ _ _ _ _.
Arguments timeout {A} _.
Arguments debounce_timers {A} _.
Arguments debounce_handles {A} _.
Arguments debounce_invoked {A} _.
Arguments debounce_clock {A} _.

Inductive debounce_event (A : Type) : Type :=
  | DebounceCall (t : Z) (args : A)
  | DebounceTimeout (handle : nat) (t : Z).
Arguments DebounceCall {A} t args.
Arguments DebounceTimeout {A} handle t.

Definition debounce_init {A} (t0 : Z) : Debounce A :=
  mkDebounce None ∅ 0 [] t0.

(** [clearTimeout(h)]: nothing happens for [undefined] or a handle that is
    not pending. *)
Definition clearTimeout {A} (h : option nat) (timers : gmap nat (Z * A))
  : gmap nat (Z * A) :=
  match h with
  | Some h => delete h timers
  | None => timers
  end.

Definition debounce_step {A} (wait : Z) (st : Debounce A)
    (e : debounce_event A) : option (Debounce A) :=
  match e with
  | DebounceCall t args =>
      if decide (debounce_clock st ≤ t) then
        let handle := S (debounce_handles st) in
        Some (mkDebounce (Some handle)
                (<[handle := (due_time t wait, args)]>
                   (clearTimeout (timeout st) (debounce_timers st)))
                handle (debounce_invoked st) t)
      else None
  | DebounceTimeout handle t =>
      match debounce_timers st !! handle with
      | Some (due, args) =>
          if decide (debounce_clock st ≤ t ∧ due ≤ t) then
            (* later: clearTimeout(timeout); func(...args) *)
            Some (mkDebounce (timeout st)
                    (clearTimeout (timeout st)
                       (delete handle (debounce_timers st)))
                    (debounce_handles st)
                    (debounce_invoked st ++ [(t, args)]) t)
          else None
      | None => None
      end
  end.

Definition debounce_run {A} (wait : Z) (es : list (debounce_event A))
    (st : Debounce A) : option (Debounce A) :=
  foldl (λ o e, o ≫= λ st, debounce_step wait st e) (Some st) es.

Definition debounce_calls {A} (es : list (debounce_event A)) : list (Z * A) :=
  omap (λ e, match e with
             | DebounceCall t args => Some (t, args)
             | DebounceTimeout _ _ => None
             end) es.

(** What [debounce] keeps true after the turns [es]: either nothing is
    pending and the arguments invoked so far are a selection of the
    arguments passed, in order; or exactly the [later] of the latest call
    is pending, under the handle in [timeout], and the arguments invoked so
    far are a selection of those passed before that call. *)
Definition debounce_invariant {A} (wait : Z) (es : list (debounce_event A))
    (st : Debounce A) : Prop :=
  (debounce_timers st = ∅ ∧
   sublist (debounce_invoked st).*2 (debounce_calls es).*2) ∨
  (∃ h t0 args before,
     timeout st = Some h ∧
     debounce_timers st = {[ h := (due_time t0 wait, args) ]} ∧
     debounce_calls es = before ++ [(t0, args)] ∧
     sublist (debounce_invoked st).*2 before.*2).

(** ** The frame schedulers of advanced-performance.js *)

#[local] Set Warnings "-register-all".

(** A callback handed to [scheduleRAF], as far as the scheduler can tell:
    it is identified by [id], and when it runs it hands the callbacks
    [reentrant] to [scheduleRAF] in turn.  Callbacks are taken not to
    throw. *)
Inductive raf_callback : Type :=
  | RafCallback (id : nat) (reentrant : list raf_callback).

Definition raf_callback_id (cb : raf_callback) : nat :=
  match cb with RafCallback id _ => id end.
Definition raf_reentrant (cb : raf_callback) : list raf_callback :=
  match cb with RafCallback _ more => more end.

(** [rafId] ([None] for [null]; handles of [requestAnimationFrame] are
    positive), [rafCallbacks], the handles given out so far, and the ids of
    the callbacks run so far. *)
Record RafState : Type := mkRaf {
  rafId : option nat;
  rafCallbacks : list raf_callback;
  raf_handles : nat;
  raf_log : list nat;
}.

Definition raf_init : RafState := mkRaf None [] 0 [].

Definition scheduleRAF (callback : raf_callback) (st : RafState) : RafState :=
  let st := mkRaf (rafId st) (rafCallbacks st ++ [callback])
                  (raf_handles st) (raf_log st) in
  match rafId st with
  | None =>
      mkRaf (Some (S (raf_handles st))) (rafCallbacks st)
            (S (raf_handles st)) (raf_log st)
  | Some _ => st
  end.

(** [cb()] *)
Definition raf_call (st : RafState) (cb : raf_callback) : RafState :=
  foldl (λ st c, scheduleRAF c st)
        (mkRaf (rafId st) (rafCallbacks st) (raf_handles st)
               (raf_log st ++ [raf_callback_id cb]))
        (raf_reentrant cb).

(** The browser runs the frame callback requested under [rafId], if one
    is outstanding. *)
Definition raf_frame (st : RafState) : RafState :=
  match rafId st with
  | None => st
  | Some _ =>
      let callbacks := rafCallbacks st in
      foldl raf_call (mkRaf None [] (raf_handles st) (raf_log st)) callbacks
  end.

Inductive raf_event : Type :=
  | RafSchedule (callback : raf_callback)
  | RafFrame.

Definition raf_step (st : RafState) (e : raf_event) : RafState :=
  match e with
  | RafSchedule cb => scheduleRAF cb st
  | RafFrame => raf_frame st
  end.

(** A job handed to [scheduleRead] or [scheduleWrite]: identified by [id];
    when it runs it hands the jobs of [body] to [scheduleRead] ([false]) or
    [scheduleWrite] ([true]) in turn, and then returns, or throws if
    [throws] is set. *)
Inductive layout_job : Type :=
  | LayoutJob (id : nat) (body : list (bool * layout_job)) (throws : bool).

Definition layout_job_id (j : layout_job) : nat :=
  match j with LayoutJob id _ _ => id end.
Definition layout_body (j : layout_job) : list (bool * layout_job) :=
  match j with LayoutJob _ body _ => body end.
Definition layout_throws (j : layout_job) : bool :=
  match j with LayoutJob _ _ throws => throws end.

(** [readQueue], [writeQueue], [scheduled], the frame callbacks requested
    and not yet run, and the ids of the jobs run so far. *)
Record LayoutState : Type := mkLayout {
  readQueue : list layout_job;
  writeQueue : list layout_job;
  scheduled : bool;
  layout_frames : nat;
  layout_log : list nat;
}.

Definition layout_init : LayoutState := mkLayout [] [] false 0 [].

Definition scheduleLayout (st : LayoutState) : LayoutState :=
  if scheduled st then st
  else mkLayout (readQueue st) (writeQueue st) true (S (layout_frames st))
                (layout_log st).

Definition scheduleRead (fn : layout_job) (st : LayoutState) : LayoutState :=
  scheduleLayout
    (mkLayout (readQueue st ++ [fn]) (writeQueue st) (scheduled st)
              (layout_frames st) (layout_log st)).

Definition scheduleWrite (fn : layout_job) (st : LayoutState) : LayoutState :=
  scheduleLayout
    (mkLayout (readQueue st) (writeQueue st ++ [fn]) (scheduled st)
              (layout_frames st) (layout_log st)).

(** [fn()], as far as it gets whether it returns or throws. *)
Definition layout_call (st : LayoutState) (fn : layout_job) : LayoutState :=
  foldl (λ st (a : bool * layout_job),
           if a.1 then scheduleWrite a.2 st else scheduleRead a.2 st)
        (mkLayout (readQueue st) (writeQueue st) (scheduled st)
                  (layout_frames st) (layout_log st ++ [layout_job_id fn]))
        (layout_body fn).

(** [queue.forEach(fn => fn())] over [jobs], the elements the queue has
    when the loop starts: they run in order, and the first one that throws
    ends the loop.  The boolean says whether one threw. *)
Fixpoint layout_forEach (jobs : list layout_job) (st : LayoutState)
  : bool * LayoutState :=
  match jobs with
  | [] => (false, st)
  | fn :: jobs =>
      let st := layout_call st fn in
      if layout_throws fn then (true, st) else layout_forEach jobs st
  end.

(** The frame callback of [scheduleLayout], if one was requested.  What
    the jobs push onto a queue while its loop runs is in that queue when it
    is replaced by [[]].  A job that throws ends the callback there: the
    assignments after it, [scheduled = false] among them, are not
    reached. *)
Definition layout_frame (st : LayoutState) : LayoutState :=
  match layout_frames st with
  | O => st
  | S frames =>
      let st := mkLayout (readQueue st) (writeQueue st) (scheduled st) frames
                         (layout_log st) in
      let (threw, st) := layout_forEach (readQueue st) st in
      if threw then st
      else
        let st := mkLayout [] (writeQueue st) (scheduled st) (layout_frames st)
                           (layout_log st) in
        let (threw, st) := layout_forEach (writeQueue st) st in
        if threw then st
        else mkLayout (readQueue st) [] false (layout_frames st) (layout_log st)
  end.

Inductive layout_event : Type :=
  | LayoutRead (fn : layout_job)
  | LayoutWrite (fn : layout_job)
  | LayoutFrame.

Definition layout_step (st : LayoutState) (e : layout_event) : LayoutState :=
  match e with
  | LayoutRead fn => scheduleRead fn st
  | LayoutWrite fn => scheduleWrite fn st
  | LayoutFrame => layout_frame st
  end.

(** The jobs a list of jobs hands to [scheduleWrite] ([true]) or to
    [scheduleRead] ([false]) when run. *)
Definition requested (write : bool) (jobs : list layout_job) : list layout_job :=
  (jobs ≫= layout_body) ≫=
  λ a : bool * layout_job, if bool_decide (a.1 = write) then [a.2] else [].

(** The jobs a list of events hands to the scheduler from outside. *)
Definition layout_submitted (es : list layout_event) : list nat :=
  es ≫= λ e, match e with
             | LayoutRead fn | LayoutWrite fn => [layout_job_id fn]
             | LayoutFrame => []
             end.

(** None of the jobs throws. *)
Definition layout_quiet (jobs : list layout_job) : Prop :=
  Forall (λ j, layout_throws j = false) jobs.

(** Only jobs that schedule nothing themselves and do not throw. *)
Definition plain_events (es : list layout_event) : Prop :=
  Forall (λ e, match e with
               | LayoutRead fn | LayoutWrite fn =>
                   layout_body fn = [] ∧ layout_throws fn = false
               | LayoutFrame => True
               end) es.

(** The reads a frame leaves in [readQueue]: those asked for by the writes
    it ran. *)
Definition layout_stranded (st : LayoutState) : list layout_job :=
  requested false (writeQueue st ++ requested true (readQueue st)).

(** ** The passive-listener patch of advanced-performance.js *)

(** The third argument of [addEventListener]: [undefined], [null], a
    boolean, an object with its properties, or any other value (a number,
    a string, a function). *)
Inductive listener_options : Type :=
  | OptUndefined
  | OptNull
  | OptBoolean (b : bool)
  | OptObject (props : gmap string JS.value)
  | OptOther.

(** [o.p === undefined], for a property that is absent or holds
    [undefined]. *)
Definition is_undefined (v : option JS.value) : bool :=
  match v with
  | None | Some JS.JUndefined => true
  | Some _ => false
  end.

(** The [options] the patched [addEventListener] hands on to the original
    one. *)
Definition patched_options (type : string) (options : listener_options)
  : listener_options :=
  if bool_decide (type = "scroll") || bool_decide (type = "wheel") then
    match options with
    | OptUndefined => OptObject {[ "passive" := JS.JBool true ]}
    | OptBoolean b =>
        OptObject (<["passive" := JS.JBool true]>
                     {[ "capture" := JS.JBool b ]})
    | OptObject props =>
        if is_undefined (props !! "passive") then
          OptObject (<["passive" := JS.JBool true]> props)
        else options
    | OptNull | OptOther => options
    end
  else options.

(** ** The navbar on scroll *)

(** The navbar as [initNavbarEffects] drives it: whether its class list
    holds [scrolled], its inline [transform], and [lastScrollY].  Scroll
    offsets are rationals, as every finite double is. *)
Record Navbar : Type := mkNavbar {
  nav_scrolled : bool;
  nav_transform : string;
  lastScrollY : Q;
}.

(** The function wrapped by [throttle], run with [window.scrollY] being
    [currentScrollY]. *)
Definition navbar_on_scroll (st : Navbar) (currentScrollY : Q) : Navbar :=
  mkNavbar
    (if Qlt_le_dec 100 currentScrollY then true else false)
    (if Qlt_le_dec (lastScrollY st) currentScrollY then
       if Qlt_le_dec 200 currentScrollY then "translateY(-100%)"
       else "translateY(0)"
     else "translateY(0)")
    currentScrollY.

(** The navbar after the scroll events [es] went through
    [throttle(..., limit)]: the wrapped function ran for the invocations
    the throttle let through, with the scroll offset of that moment. *)
Definition throttled_navbar (limit t0 : Z) (nav : Navbar)
    (es : list (throttle_event Q)) : option Navbar :=
  (λ st, foldl navbar_on_scroll nav (throttle_invoked st).*2)
    <$> throttle_run limit es (throttle_init t0).

(** ** The intersection observer pool of advanced-performance.js *)






(** ** The typewriter of the hero title *)

(** The hero title element: its text and the three inline styles
    [animateHeroTitle] sets. *)
Record HeroTitle : Type := mkHeroTitle {
  hero_textContent : string;
  hero_borderRight : string;
  hero_animation : string;
  hero_textShadow : string;
}.

Inductive hero_timer : Type := TypeWriterTimer | FinishTimer.

(** The title, the counter [i] of the closure, whether the hero name
    carries [hero-name-animate], the pending timer with its due time, and
    the time of the latest turn. *)
Record Typing : Type := mkTyping {
  hero_title : HeroTitle;
  typed : nat;
  heroName_animated : bool;
  hero_pending : option (hero_timer * Z);
  hero_clock : Z;
}.

(** [animateHeroTitle()] at time [t] on a page that has the title
    element, for the constant [text] of the source. *)
Definition animateHeroTitle (text : string) (t : Z) (heroName_animated : bool)
  : Typing :=
  mkTyping
    (mkHeroTitle "" "2px solid var(--accent-primary)"
                 "blink-cursor 0.8s infinite" "")
    0 heroName_animated (Some (TypeWriterTimer, due_time t 500)) t.

(** [s + c] for the result [c] of [charAt], which is the empty string
    beyond the end. *)
Definition append_char (s : string) (c : option Ascii.ascii) : string :=
  match c with
  | Some c => s +:+ String c ""
  | None => s
  end.

(** The pending timer runs at time [t]; [heroName] says whether the page
    has the hero name element. *)
Definition hero_timer_runs (text : string) (heroName : bool) (st : Typing)
    (t : Z) : option Typing :=
  match hero_pending st with
  | Some (kind, due) =>
      if decide (hero_clock st ≤ t ∧ due ≤ t) then
        match kind with
        | TypeWriterTimer =>
            if decide (typed st < String.length text)%nat then
              Some (mkTyping
                      (mkHeroTitle
                         (append_char (hero_textContent (hero_title st))
                                      (String.get (typed st) text))
                         (hero_borderRight (hero_title st))
                         (hero_animation (hero_title st))
                         (hero_textShadow (hero_title st)))
                      (S (typed st)) (heroName_animated st)
                      (Some (TypeWriterTimer, due_time t 60)) t)
            else
              Some (mkTyping (hero_title st) (typed st) (heroName_animated st)
                             (Some (FinishTimer, due_time t 300)) t)
        | FinishTimer =>
            Some (mkTyping
                    (mkHeroTitle
                       (hero_textContent (hero_title st)) "none" "none"
                       "0 0 8px rgba(14, 165, 233, 0.4), 0 0 16px rgba(14, 165, 233, 0.2)")
                    (typed st)
                    (if heroName then true else heroName_animated st)
                    None t)
        end
      else None
  | None => None
  end.

Definition hero_run (text : string) (heroName : bool) (ts : list Z)
    (st : Typing) : option Typing :=
  foldl (λ o t, o ≫= λ st, hero_timer_runs text heroName st t) (Some st) ts.

(** The text of the source, and timer turns that each come exactly when
    due after a start at time 0: 27 turns of [typeWriter], 60 apart from
    500 on, and the finishing turn 300 later. *)
Definition hero_title_text : string := "Mechanical Design Engineer".

Definition punctual_turns : list Z :=
  ((λ k, 500 + 60 * Z.of_nat k) <$> seq 0 27) ++ [2360].

(** The first [k] characters of [s]. *)
Fixpoint string_take (k : nat) (s : string) : string :=
  match k, s with
  | S k, String c s => String c (string_take k s)
  | _, _ => ""
  end.

(** ** Unfolding a function body *)

Ltac js_unfold :=
  unfold exec, result, pagehide, try_catch, closeGallery, prevImage,
    nextImage, goToImage, createThumbnails, updateGalleryImage, done,
    set_counter_text, console_error, throw, write, read, mbind, Js_bind,
    mret, Js_ret in *.

Ltac js_simpl := js_unfold; cbn -[Z.rem Z.add Z.sub Z.of_nat pretty highlight imap] in *.

Lemma highlight_lookup (cur : JS.number) (ths : list Thumb) (k : nat) :
  highlight cur ths !! k
  = toggle_active (JS.strict_eq (Num (Z.of_nat k)) cur) <$> ths !! k.
Proof. unfold highlight. by rewrite list_lookup_imap. Qed.

Lemma updateGalleryImage_frame (s : State) :
  same_session s (exec updateGalleryImage s).
Proof.
  destruct s as [g i [m t im c th bc bn bp] o l off p d].
  js_simpl. unfold same_session.
  destruct im as [img|]; cbn; [|done].
  case_bool_decide; destruct c, th, d; cbn; done.
Qed.

Lemma updateGalleryImage_returns (s : State) :
  render_hooks s → result updateGalleryImage s = Returned tt.
Proof.
  destruct s as [g i [m t im c th bc bn bp] o l off p d].
  unfold render_hooks; cbn. intros ([img ->] & [ct ->] & [ths ->]).
  js_simpl. case_bool_decide; destruct d; cbn; done.
Qed.

Lemma updateGalleryImage_hooks (s : State) :
  render_hooks s → render_hooks (exec updateGalleryImage s).
Proof.
  destruct s as [g i [m t im c th bc bn bp] o l off p d].
  unfold render_hooks; cbn. intros ([img ->] & [ct ->] & [ths ->]).
  js_simpl. case_bool_decide; destruct d; cbn; eauto.
Qed.

Lemma nextImage_index (s : State) :
  currentImageIndex (exec nextImage s) =
  JS.rem (JS.add (currentImageIndex s) (Num 1)) (JS.length (currentGallery s)).
Proof.
  unfold nextImage, exec, mbind, Js_bind, write; cbn.
  pose proof (updateGalleryImage_frame
    (with_index (JS.rem (JS.add (currentImageIndex s) (Num 1))
                        (JS.length (currentGallery s))) s)) as (_ & H & _).
  unfold exec in H. destruct (updateGalleryImage _) as [[] ?]; exact H.
Qed.

Lemma prevImage_index (s : State) :
  currentImageIndex (exec prevImage s) =
  JS.rem (JS.add (JS.sub (currentImageIndex s) (Num 1))
                 (JS.length (currentGallery s)))
         (JS.length (currentGallery s)).
Proof.
  unfold prevImage, exec, mbind, Js_bind, write; cbn.
  match goal with |- context [updateGalleryImage ?s'] =>
    pose proof (updateGalleryImage_frame s') as (_ & H & _) end.
  unfold exec in H. destruct (updateGalleryImage _) as [[] ?]; exact H.
Qed.

Lemma goToImage_index (i : JS.number) (s : State) :
  currentImageIndex (exec (goToImage i) s) = i.
Proof.
  unfold goToImage, exec, mbind, Js_bind, write; cbn.
  pose proof (updateGalleryImage_frame (with_index i s)) as (_ & H & _).
  unfold exec in H. destruct (updateGalleryImage _) as [[] ?]; exact H.
Qed.

(** The three navigation functions assign the index and render: apart from
    the index they leave what [same_session] lists alone. *)
Lemma navigation_frame (s : State) :
  currentGallery (exec nextImage s) = currentGallery s ∧
  currentGallery (exec prevImage s) = currentGallery s ∧
  (∀ i, currentGallery (exec (goToImage i) s) = currentGallery s).
Proof.
  unfold nextImage, prevImage, goToImage, exec, mbind, Js_bind, write; cbn.
  repeat split; intros;
    match goal with |- context [updateGalleryImage ?s'] =>
      pose proof (updateGalleryImage_frame s') as (H & _);
      unfold exec in H; destruct (updateGalleryImage s') as [[] ?]; exact H
    end.
Qed.

Lemma iter_next_gallery (n : nat) (s : State) :
  currentGallery (Nat.iter n (exec nextImage) s) = currentGallery s.
Proof.
  induction n as [|n IH]; [done|]. rewrite Nat.iter_succ.
  destruct (navigation_frame (Nat.iter n (exec nextImage) s)) as (H & _).
  by rewrite H.
Qed.

Lemma iter_next_index (n : nat) (s : State) (i : Z) :
  currentImageIndex s = Num i →
  0 ≤ i < Z.of_nat (length (currentGallery s)) →
  currentImageIndex (Nat.iter n (exec nextImage) s) =
  Num ((i + Z.of_nat n) `mod` Z.of_nat (length (currentGallery s))).
Proof.
  intros Hi Hr. induction n as [|n IH].
  - cbn. rewrite Z.add_0_r, Z.mod_small by lia. exact Hi.
  - rewrite Nat.iter_succ, nextImage_index, IH, iter_next_gallery.
    unfold JS.length, JS.add, JS.rem.
    destruct (decide _) as [E|_]; [lia|]. f_equal.
    set (N := Z.of_nat (length (currentGallery s))) in *.
    rewrite Z.rem_mod_nonneg; [| pose proof (Z.mod_pos_bound (i + Z.of_nat n) N); lia | lia].
    rewrite Zplus_mod_idemp_l. f_equal. lia.
Qed.

(** C4.  In a session over [N ≥ 1] images whose index is some [i] in
    [[0, N)] - every open session is one - [N] calls of [nextImage] bring
    [currentImageIndex] back to [i], the gallery being the same throughout:
    after [k] calls the index is [(i + k) mod N]. *)
Theorem next_cycle (s : State) (i : Z) :
  currentImageIndex s = Num i →
  0 ≤ i < Z.of_nat (length (currentGallery s)) →
  currentImageIndex (Nat.iter (length (currentGallery s)) (exec nextImage) s)
    = Num i ∧
  currentGallery (Nat.iter (length (currentGallery s)) (exec nextImage) s)
    = currentGallery s.
Proof.
  intros Hi Hr. split; [|apply iter_next_gallery].
  rewrite (iter_next_index _ s i Hi Hr). f_equal.
  rewrite <- (Z.mul_1_l (Z.of_nat (length (currentGallery s)))) at 1.
  rewrite Z_mod_plus_full. apply Z.mod_small. lia.
Qed.

(** C5, as the code has it.  In a session over a non-empty gallery whose
    index is an integer in [[0, currentGallery.length)], [prevImage] undoes
    [nextImage]: after the two calls [currentImageIndex] (and
    [currentGallery]) are what they were. *)
Theorem prev_after_next (s : State) :
  index_in_range s →
  currentImageIndex (exec prevImage (exec nextImage s)) = currentImageIndex s ∧
  currentGallery (exec prevImage (exec nextImage s)) = currentGallery s.
Proof.
  intros (i & Hi & Hr).
  destruct (navigation_frame s) as (Hn & _).
  destruct (navigation_frame (exec nextImage s)) as (_ & Hp & _).
  split; [|congruence].
  rewrite prevImage_index, nextImage_index, Hn, Hi.
  unfold JS.length, JS.add, JS.sub, JS.rem.
  set (N := Z.of_nat (length (currentGallery s))) in *.
  destruct (decide (N = 0)) as [E|_]; [lia|]. cbn.
  destruct (decide (N = 0)) as [E|_]; [lia|]. f_equal.
  rewrite (Z.rem_mod_nonneg (i + 1) N) by lia.
  pose proof (Z.mod_pos_bound (i + 1) N).
  rewrite Z.rem_mod_nonneg by lia.
  destruct (decide (i + 1 = N)) as [E|E].
  - rewrite E, Z_mod_same_full. rewrite Z.mod_small; lia.
  - rewrite (Z.mod_small (i + 1) N) by lia.
    replace (i + 1 - 1 + N) with (i + 1 * N) by lia.
    rewrite Z_mod_plus_full. apply Z.mod_small. lia.
Qed.

(** C5 fails as stated: an open session over a non-empty gallery need not
    have its index in range, and then [prevImage] does not undo
    [nextImage].  With "ever" (three images) shown at index 7, as
    [goToImage(7)] leaves it, [nextImage] gives [8 % 3 = 2] and [prevImage]
    then gives [(2 - 1 + 3) % 3 = 1].  The same happens in a session driven
    by the listeners alone on a page without the counter element, where the
    strip of "helmet" stays over "ever" and its fifth thumbnail sets the
    index to 4. *)
Lemma prev_after_next_out_of_range :
  is_open ever_at_seven ∧
  length (currentGallery ever_at_seven) = 3%nat ∧
  currentImageIndex ever_at_seven = Num 7 ∧
  currentImageIndex (exec prevImage (exec nextImage ever_at_seven)) = Num 1 ∧
  currentImageIndex (exec prevImage (exec nextImage ever_at_seven))
    ≠ currentImageIndex ever_at_seven ∧
  is_open stale_strip_visit ∧
  length (currentGallery stale_strip_visit) = 3%nat ∧
  currentImageIndex stale_strip_visit = Num 4 ∧
  currentImageIndex (exec prevImage (exec nextImage stale_strip_visit)) = Num 1 ∧
  currentImageIndex (exec prevImage (exec nextImage stale_strip_visit))
    ≠ currentImageIndex stale_strip_visit.
Proof.
  repeat split; try (vm_compute; reflexivity);
    intros H; vm_compute in H; discriminate.
Qed.

Lemma nextImage_in_range (s : State) :
  index_in_range s → index_in_range (exec nextImage s).
Proof.
  intros (i & Hi & Hr). destruct (navigation_frame s) as (Hn & _).
  unfold index_in_range. rewrite nextImage_index, Hn, Hi.
  unfold JS.length, JS.add, JS.rem.
  set (N := Z.of_nat (length (currentGallery s))) in *.
  destruct (decide (N = 0)) as [E|_]; [lia|].
  eexists; split; [reflexivity|].
  rewrite Z.rem_mod_nonneg by lia. apply Z.mod_pos_bound. lia.
Qed.

Lemma prevImage_in_range (s : State) :
  index_in_range s → index_in_range (exec prevImage s).
Proof.
  intros (i & Hi & Hr). destruct (navigation_frame s) as (_ & Hp & _).
  unfold index_in_range. rewrite prevImage_index, Hp, Hi.
  unfold JS.length, JS.add, JS.sub, JS.rem.
  set (N := Z.of_nat (length (currentGallery s))) in *.
  destruct (decide (N = 0)) as [E|_]; [lia|].
  eexists; split; [reflexivity|].
  rewrite Z.rem_mod_nonneg by lia. apply Z.mod_pos_bound. lia.
Qed.

Lemma rem_by_zero (a : JS.number) : JS.rem a (Num 0) = NaN.
Proof. by destruct a. Qed.

(** C10.  The script starts with [currentGallery = []]; over an empty
    gallery - the initial state in particular - [nextImage] and [prevImage]
    take a remainder by zero and leave [currentImageIndex = NaN], which is
    no index in range; over a non-empty gallery with the index in range,
    both keep it in range. *)
Theorem empty_gallery_NaN (d : DOMCache) (decode : bool) :
  currentGallery (initial_state d decode) = [] ∧
  currentImageIndex (exec nextImage (initial_state d decode)) = NaN ∧
  currentImageIndex (exec prevImage (initial_state d decode)) = NaN ∧
  (∀ s, currentGallery s = [] →
        currentImageIndex (exec nextImage s) = NaN ∧
        currentImageIndex (exec prevImage s) = NaN ∧
        ¬ index_in_range (exec nextImage s) ∧
        ¬ index_in_range (exec prevImage s)) ∧
  (∀ s, currentGallery s ≠ [] → index_in_range s →
        index_in_range (exec nextImage s) ∧
        index_in_range (exec prevImage s)).
Proof.
  assert (∀ s, currentGallery s = [] →
               currentImageIndex (exec nextImage s) = NaN ∧
               currentImageIndex (exec prevImage s) = NaN) as Hnan.
  { intros s Hg. rewrite nextImage_index, prevImage_index, Hg.
    cbn [JS.length length Z.of_nat]. by rewrite !rem_by_zero. }
  split; [done|]. split; [by apply Hnan|]. split; [by apply Hnan|]. split.
  - intros s Hg. destruct (Hnan s Hg) as [Hn Hp].
    repeat split; [done|done| |]; intros (i & Hi & _); congruence.
  - intros s _ Hr. split; [by apply nextImage_in_range|by apply prevImage_in_range].
Qed.

(** *** [goToImage] *)

Lemma goToImage_frame (i : JS.number) (s : State) :
  same_session (with_index i s) (exec (goToImage i) s).
Proof.
  unfold goToImage, exec, mbind, Js_bind, write; cbn.
  pose proof (updateGalleryImage_frame (with_index i s)) as H.
  unfold exec in H. by destruct (updateGalleryImage _) as [[] ?].
Qed.

(** The thumbnails, the callers of [goToImage] in the source, pass indices
    of the gallery they were made from. *)
Lemma createThumbnails_onclick (s : State) (ths : list Thumb) :
  galleryThumbnails (DOM (exec createThumbnails s)) = Some ths →
  is_Some (galleryThumbnails (DOM s)) →
  ∀ k th, ths !! k = Some th →
          thumb_onclick th = k ∧ (k < length (currentGallery s))%nat ∧
          Some (thumb_src th) = currentGallery s !! k.
Proof.
  intros H [old Hold] k th Hk. js_simpl. rewrite Hold in H. cbn in H.
  injection H as <-. unfold thumbnail_fragment in Hk.
  rewrite list_lookup_imap in Hk.
  destruct (currentGallery s !! k) as [src|] eqn:E; cbn in Hk; [|done].
  injection Hk as <-. cbn. split; [done|]. split; [|done].
  by apply lookup_lt_Some in E.
Qed.

(** *** [openGallery] on a key that does not resolve *)

(** C3.  When the argument is no string, or names nothing in the catalog,
    or names an entry without a non-empty image array, [openGallery]
    returns normally and the state it leaves is the one it found with
    exactly one [console.error] entry appended: no variable and no DOM
    element is written. *)
Theorem openGallery_unresolved (catalog : gmap string Project)
    (v : JS.value) (s : State) :
  unresolved catalog v →
  ∃ entry : log_entry,
    openGallery catalog v s = (Returned tt, with_console (console s ++ [entry]) s).
Proof.
  intros [Hv | (key & -> & Hk)]; unfold openGallery.
  - rewrite Hv, orb_true_r. eexists. reflexivity.
  - cbn [JS.is_string negb orb JS.truthy JS.to_property_key].
    case_bool_decide; cbn [negb orb]; [eexists; reflexivity|].
    unfold lookup_project.
    destruct Hk as [-> | (p & -> & Himg)].
    + destruct (decide _); eexists; reflexivity.
    + destruct Himg as [-> | [-> | ->]]; eexists; reflexivity.
Qed.

(** [openGallery] either logs one error and does nothing else, or makes its
    assignments, renders and builds the thumbnail strip. *)
Lemma openGallery_cases (catalog : gmap string Project) (v : JS.value)
    (s : State) :
  (∃ entry : log_entry,
     openGallery catalog v s
     = (Returned tt, with_console (console s ++ [entry]) s)) ∨
  (∃ key p imgs,
     v = JS.JString key ∧ key ≠ "" ∧ catalog !! key = Some p ∧
     images p = ImagesArray imgs ∧ imgs ≠ [] ∧
     is_Some (galleryModal (DOM s)) ∧ is_Some (galleryTitle (DOM s)) ∧
     openGallery catalog v s
     = (updateGalleryImage ;; createThumbnails) (open_writes p imgs s)).
Proof.
  unfold openGallery.
  destruct (negb (JS.truthy v) || negb (JS.is_string v)) eqn:Hv;
    [left; eexists; reflexivity|].
  apply orb_false_elim in Hv as [Ht Hs].
  destruct v as [| | | |key|]; try discriminate. cbn in Ht.
  apply negb_false_iff, negb_true_iff, bool_decide_eq_false in Ht.
  cbn [JS.to_property_key]. unfold lookup_project.
  destruct (catalog !! key) as [p|] eqn:Hk;
    [|destruct (decide _); left; eexists; reflexivity].
  destruct (images p) as [| |[|src imgs]] eqn:Hi;
    try (left; eexists; reflexivity).
  destruct (galleryModal (DOM s)) as [m|] eqn:Hm;
    [|left; eexists; unfold mbind, Js_bind, read; cbn; by rewrite Hm].
  destruct (galleryTitle (DOM s)) as [t|] eqn:Htt;
    [|left; eexists; unfold mbind, Js_bind, read; cbn; by rewrite Hm, Htt].
  right. exists key, p, (src :: imgs). repeat split; eauto.
  unfold mbind, Js_bind, read, write; cbn -[updateGalleryImage createThumbnails].
  by rewrite Hm, Htt.
Qed.

(** *** Frames of the remaining functions *)

Lemma same_session_refl (s : State) : same_session s s.
Proof. by unfold same_session. Qed.

Lemma same_session_trans (s1 s2 s3 : State) :
  same_session s1 s2 → same_session s2 s3 → same_session s1 s3.
Proof. unfold same_session. intuition congruence. Qed.

Lemma createThumbnails_frame (s : State) :
  same_session s (exec createThumbnails s).
Proof.
  destruct s as [g i [m t im c th bc bn bp] o l off p d].
  js_simpl. destruct th; cbn; by unfold same_session.
Qed.

Lemma done_frame (nextSrc : option string) (s : State) :
  same_session s (exec (done nextSrc) s).
Proof.
  destruct s as [g i [m t im c th bc bn bp] o l off p d].
  js_simpl. destruct c; cbn; by unfold same_session.
Qed.

Lemma settle_frame (k : nat) (r : decode_result) (s : State) :
  same_session s (exec (settle k r) s).
Proof.
  unfold settle, exec, mbind at 1, Js_bind at 1, read. cbn.
  destruct (pending s !! k) as [nextSrc|]; [|apply same_session_refl].
  unfold mbind, Js_bind, write. cbn.
  set (s1 := with_pending _ s).
  assert (same_session s s1) as H1 by done.
  pose proof (done_frame nextSrc s1) as H2. unfold exec in H2.
  destruct r; unfold try_catch.
  - destruct (done nextSrc s1) as [[[]|e] s2] eqn:E; cbn in *.
    + by eapply same_session_trans.
    + pose proof (done_frame nextSrc s2) as H3. unfold exec in H3.
      eauto using same_session_trans.
  - eauto using same_session_trans.
Qed.

Lemma nextImage_frame (s : State) :
  same_session (with_index (currentImageIndex (exec nextImage s)) s)
               (exec nextImage s).
Proof.
  rewrite nextImage_index.
  unfold nextImage, exec, mbind, Js_bind, write; cbn.
  match goal with |- context [updateGalleryImage ?s'] =>
    pose proof (updateGalleryImage_frame s') as H end.
  unfold exec in H. by destruct (updateGalleryImage _) as [[] ?].
Qed.

Lemma prevImage_frame (s : State) :
  same_session (with_index (currentImageIndex (exec prevImage s)) s)
               (exec prevImage s).
Proof.
  rewrite prevImage_index.
  unfold prevImage, exec, mbind, Js_bind, write; cbn.
  match goal with |- context [updateGalleryImage ?s'] =>
    pose proof (updateGalleryImage_frame s') as H end.
  unfold exec in H. by destruct (updateGalleryImage _) as [[] ?].
Qed.

(** Navigation and settling decodes leave the modal and the scroll lock as
    they are. *)
Lemma history_step_lock (s : State) (op : history_op) :
  galleryModal (DOM (history_step s op)) = galleryModal (DOM s) ∧
  body_overflow (history_step s op) = body_overflow s.
Proof.
  destruct op as [| |i|k r]; cbn [history_step].
  - by destruct (nextImage_frame s) as (_ & _ & ? & _ & ? & _).
  - by destruct (prevImage_frame s) as (_ & _ & ? & _ & ? & _).
  - by destruct (goToImage_frame i s) as (_ & _ & ? & _ & ? & _).
  - by destruct (settle_frame k r s) as (_ & _ & ? & _ & ? & _).
Qed.

Lemma history_lock (ops : list history_op) (s : State) :
  galleryModal (DOM (foldl history_step s ops)) = galleryModal (DOM s) ∧
  body_overflow (foldl history_step s ops) = body_overflow s.
Proof.
  revert s. induction ops as [|op ops IH]; intros s; [done|].
  cbn [foldl]. destruct (IH (history_step s op)) as [-> ->].
  apply history_step_lock.
Qed.

(** *** [closeGallery] *)

Lemma closeGallery_present (s : State) :
  is_Some (galleryModal (DOM s)) →
  closeGallery s
  = (Returned tt,
     with_overflow "" (with_DOM (with_modal (Some false) (DOM s)) s)).
Proof. intros [m Hm]. js_simpl. by rewrite Hm. Qed.

Lemma closeGallery_absent (s : State) :
  galleryModal (DOM s) = None → closeGallery s = (Thrown TypeError, s).
Proof. intros Hm. js_simpl. by rewrite Hm. Qed.

(** C9.  From an open session, after any sequence of [nextImage],
    [prevImage], [goToImage] calls and settled decodes, [closeGallery]
    returns normally and leaves the modal without [active] and
    [document.body.style.overflow] reset to the empty string; so does the
    [pagehide] listener. *)
Theorem close_after_history (s : State) (ops : list history_op) :
  is_open s →
  result closeGallery (foldl history_step s ops) = Returned tt ∧
  is_closed (exec closeGallery (foldl history_step s ops)) ∧
  result pagehide (foldl history_step s ops) = Returned tt ∧
  is_closed (exec pagehide (foldl history_step s ops)).
Proof.
  intros Ho. destruct (history_lock ops s) as [Hm _].
  unfold is_open in Ho. rewrite Ho in Hm.
  unfold pagehide, try_catch, exec, result.
  rewrite closeGallery_present by (rewrite Hm; eauto). by cbn.
Qed.

(** *** The keyboard and backdrop listeners *)

Lemma closeGallery_closed (s : State) :
  is_closed s → closeGallery s = (Returned tt, s).
Proof.
  destruct s as [g i [m t im c th bc bn bp] o l off p d].
  unfold is_closed; cbn. intros [-> ->]. reflexivity.
Qed.

(** *** The scroll lock follows the modal *)

Lemma lock_invariant_same (s s' : State) :
  same_session s s' → lock_invariant s → lock_invariant s'.
Proof.
  intros (_ & _ & Hm & _ & Ho & _). unfold lock_invariant.
  by rewrite Hm, Ho.
Qed.

Lemma render_and_strip_frame (s : State) :
  same_session s (exec (updateGalleryImage ;; createThumbnails) s).
Proof.
  unfold exec, mbind, Js_bind.
  pose proof (updateGalleryImage_frame s) as H1. unfold exec in H1.
  destruct (updateGalleryImage s) as [[[]|e] s1]; cbn in *; [|done].
  pose proof (createThumbnails_frame s1) as H2. unfold exec in H2.
  eauto using same_session_trans.
Qed.

Lemma openGallery_lock (catalog : gmap string Project) (v : JS.value)
    (s : State) :
  lock_invariant s → lock_invariant (exec (openGallery catalog v) s).
Proof.
  intros Hl. unfold exec.
  destruct (openGallery_cases catalog v s)
    as [[entry ->] | (key & p & imgs & _ & _ & _ & _ & _ & _ & _ & ->)].
  - exact Hl.
  - apply (lock_invariant_same (open_writes p imgs s));
      [apply render_and_strip_frame | reflexivity].
Qed.

Lemma closeGallery_lock (s : State) :
  lock_invariant s → lock_invariant (exec closeGallery s).
Proof.
  intros Hl. unfold exec. destruct (galleryModal (DOM s)) as [m|] eqn:Hm.
  - rewrite closeGallery_present by (rewrite Hm; eauto). reflexivity.
  - by rewrite closeGallery_absent.
Qed.

Lemma step_lock_invariant (catalog : gmap string Project) (e : event)
    (s : State) :
  lock_invariant s → lock_invariant (step catalog e s).
Proof.
  intros Hl. unfold step.
  destruct e as [a| | | | |key|k| |k r]; cbn [handler].
  - unfold project_click, exec, mbind, Js_bind, read. cbn.
    destruct (galleryModal (DOM s)) as [[]|] eqn:Hm; cbn; try done.
    destruct a as [projectKey|]; cbn; [|done].
    destruct (_ && _); [|done]. by apply openGallery_lock.
  - unfold close_click, exec, mbind, Js_bind, read. cbn.
    destruct (galleryClose (DOM s)); [|done]. by apply closeGallery_lock.
  - unfold next_click, exec, mbind, Js_bind, read. cbn.
    destruct (galleryNext (DOM s)); [|done].
    by apply (lock_invariant_same _ _ (nextImage_frame s)).
  - unfold prev_click, exec, mbind, Js_bind, read. cbn.
    destruct (galleryPrev (DOM s)); [|done].
    by apply (lock_invariant_same _ _ (prevImage_frame s)).
  - unfold backdrop_click, exec, mbind, Js_bind, read. cbn.
    destruct (galleryModal (DOM s)) as [m|] eqn:Hm; [|done].
    by apply closeGallery_lock.
  - unfold keydown, exec, mbind, Js_bind, read. cbn.
    destruct (galleryModal (DOM s)) as [[]|] eqn:Hm; try done.
    repeat case_bool_decide; try done.
    + by apply closeGallery_lock.
    + by apply (lock_invariant_same _ _ (prevImage_frame s)).
    + by apply (lock_invariant_same _ _ (nextImage_frame s)).
  - unfold thumb_click, exec, mbind at 1, Js_bind at 1, read. cbn.
    destruct (_ ≫= _) as [th|]; [|done].
    by apply (lock_invariant_same _ _ (goToImage_frame _ s)).
  - unfold pagehide, try_catch, exec.
    pose proof (closeGallery_lock s Hl) as H. unfold exec in H.
    by destruct (closeGallery s) as [[[]|e] s1].
  - by apply (lock_invariant_same _ _ (settle_frame k r s)).
Qed.

(** On every state the page can reach from a load with the modal hidden,
    a modal without [active] means the scroll lock is released: such a
    state is [is_closed]. *)
Lemma reachable_lock_invariant (catalog : gmap string Project)
    (d : DOMCache) (decode : bool) (s : State) :
  galleryModal d ≠ Some true →
  reachable catalog d decode s → lock_invariant s.
Proof.
  intros Hd Hr. induction Hr as [|s e _ IH].
  - unfold lock_invariant. cbn. by destruct (galleryModal d) as [[]|].
  - by apply step_lock_invariant.
Qed.

Lemma reachable_hidden_is_closed (catalog : gmap string Project)
    (d : DOMCache) (decode : bool) (s : State) :
  galleryModal d ≠ Some true →
  reachable catalog d decode s →
  galleryModal (DOM s) = Some false → is_closed s.
Proof.
  intros Hd Hr Hm. pose proof (reachable_lock_invariant _ _ _ _ Hd Hr) as Hl.
  unfold lock_invariant in Hl. rewrite Hm in Hl. by split.
Qed.

(** C8.  While the session is closed (modal without [active], scroll not
    locked) a key press of any key and a click on the backdrop return
    normally and leave the state exactly as it was; on the states the page
    can reach from a load with the modal hidden, a modal without [active]
    is enough for that.  While the session is open, Escape runs
    [closeGallery], ArrowLeft [prevImage], ArrowRight [nextImage], a
    backdrop click [closeGallery], and any other key does nothing. *)
Theorem keyboard_and_backdrop (s : State) :
  (is_closed s →
     (∀ key, keydown key s = (Returned tt, s)) ∧
     backdrop_click s = (Returned tt, s)) ∧
  (∀ catalog d decode,
     galleryModal d ≠ Some true → reachable catalog d decode s →
     galleryModal (DOM s) = Some false →
     (∀ key, keydown key s = (Returned tt, s)) ∧
     backdrop_click s = (Returned tt, s)) ∧
  (is_open s →
     keydown "Escape" s = closeGallery s ∧
     keydown "ArrowLeft" s = prevImage s ∧
     keydown "ArrowRight" s = nextImage s ∧
     backdrop_click s = closeGallery s ∧
     (∀ key, key ≠ "Escape" → key ≠ "ArrowLeft" → key ≠ "ArrowRight" →
             keydown key s = (Returned tt, s))).
Proof.
  assert (is_closed s →
          (∀ key, keydown key s = (Returned tt, s)) ∧
          backdrop_click s = (Returned tt, s)) as Hclosed.
  { intros Hc. pose proof (closeGallery_closed s Hc) as Hclose.
    destruct Hc as [Hm Ho]. split.
    - intros key. unfold keydown, mbind, Js_bind, read. cbn. by rewrite Hm.
    - unfold backdrop_click, mbind, Js_bind, read. cbn. by rewrite Hm. }
  split; [exact Hclosed|]. split.
  - intros catalog d decode Hd Hr Hm.
    apply Hclosed. by eapply reachable_hidden_is_closed.
  - unfold is_open. intros Hm.
    unfold keydown, backdrop_click, mbind at 1 2 3 4, Js_bind at 1 2 3 4, read.
    cbn. rewrite Hm. repeat split.
    intros key H1 H2 H3. unfold keydown, mbind, Js_bind, read. cbn.
    rewrite Hm. by rewrite !bool_decide_eq_false_2.
Qed.

(** *** A page without the gallery elements *)

Lemma updateGalleryImage_no_image (s : State) :
  galleryMainImage (DOM s) = None → updateGalleryImage s = (Returned tt, s).
Proof. intros H. unfold updateGalleryImage, mbind, Js_bind, read. cbn. by rewrite H. Qed.

(** C2, as the code has it.  On a page where neither the modal nor the
    main image element was found: [openGallery] returns normally, logs
    exactly one error and writes nothing else; [nextImage], [prevImage] and
    [goToImage] return normally, log nothing and touch no element, but do
    assign [currentImageIndex]; the keyboard, backdrop and [pagehide]
    listeners return normally and leave the state as it was. *)
Theorem missing_elements (catalog : gmap string Project) (s : State) :
  galleryModal (DOM s) = None →
  galleryMainImage (DOM s) = None →
  (∀ v, ∃ entry : log_entry,
      openGallery catalog v s
      = (Returned tt, with_console (console s ++ [entry]) s)) ∧
  nextImage s
    = (Returned tt,
       with_index (JS.rem (JS.add (currentImageIndex s) (Num 1))
                          (JS.length (currentGallery s))) s) ∧
  prevImage s
    = (Returned tt,
       with_index (JS.rem (JS.add (JS.sub (currentImageIndex s) (Num 1))
                                  (JS.length (currentGallery s)))
                          (JS.length (currentGallery s))) s) ∧
  (∀ i, goToImage i s = (Returned tt, with_index i s)) ∧
  (∀ key, keydown key s = (Returned tt, s)) ∧
  backdrop_click s = (Returned tt, s) ∧
  pagehide s = (Returned tt, s).
Proof.
  intros Hm Hi. split; [|repeat split].
  - intros v.
    destruct (openGallery_cases catalog v s)
      as [H | (_ & _ & _ & _ & _ & _ & _ & _ & [m Hm'] & _)]; [done|congruence].
  - unfold nextImage, mbind, Js_bind, write. cbn.
    by rewrite updateGalleryImage_no_image.
  - unfold prevImage, mbind, Js_bind, write. cbn.
    by rewrite updateGalleryImage_no_image.
  - intros i. unfold goToImage, mbind, Js_bind, write. cbn.
    by rewrite updateGalleryImage_no_image.
  - intros key. unfold keydown, mbind, Js_bind, read. cbn. by rewrite Hm.
  - unfold backdrop_click, mbind, Js_bind, read. cbn. by rewrite Hm.
  - unfold pagehide, try_catch. by rewrite closeGallery_absent.
Qed.

(** C2 fails as stated: on a freshly loaded page without any gallery
    element, [closeGallery] throws a [TypeError], so does the click
    listener that would open a project, and [nextImage], [prevImage] and
    [goToImage] change [currentImageIndex] while logging nothing. *)
Lemma missing_elements_not_noops :
  closeGallery (initial_state bare_page true)
    = (Thrown TypeError, initial_state bare_page true) ∧
  project_click portfolioData (Some "ever") (initial_state bare_page true)
    = (Thrown TypeError, initial_state bare_page true) ∧
  currentImageIndex (initial_state bare_page true) = Num 0 ∧
  nextImage (initial_state bare_page true)
    = (Returned tt, with_index NaN (initial_state bare_page true)) ∧
  prevImage (initial_state bare_page true)
    = (Returned tt, with_index NaN (initial_state bare_page true)) ∧
  goToImage (Num 5) (initial_state bare_page true)
    = (Returned tt, with_index (Num 5) (initial_state bare_page true)) ∧
  console (exec nextImage (initial_state bare_page true)) = [] ∧
  exec nextImage (initial_state bare_page true) ≠ initial_state bare_page true.
Proof.
  repeat split; try (vm_compute; reflexivity).
  intros H. apply (f_equal currentImageIndex) in H. vm_compute in H. discriminate.
Qed.

(** *** Rendering the main image *)

Section Render.
Context (s : State) (img : ImgEl) (c : string) (ths : list Thumb).
Hypothesis Himg : galleryMainImage (DOM s) = Some img.
Hypothesis Hcounter : galleryCounter (DOM s) = Some c.
Hypothesis Hstrip : galleryThumbnails (DOM s) = Some ths.

Lemma updateGalleryImage_same :
  next_src s = Some (default "" (img_src img)) →
  updateGalleryImage s
  = (Returned tt, rendered (set_hints img) (Some (counter_text s)) ths s).
Proof using Himg Hcounter Hstrip.
  destruct s as [g i [m t im ct th bc bn bp] o l off p d]. cbn in *. subst.
  intros Hn. unfold updateGalleryImage, mbind, Js_bind, read, write. cbn.
  unfold next_src in *. cbn in *.
  rewrite bool_decide_eq_true_2 by done. reflexivity.
Qed.

Lemma updateGalleryImage_decode :
  next_src s ≠ Some (default "" (img_src img)) →
  has_decode s = true →
  updateGalleryImage s
  = (Returned tt,
     with_pending (pending s ++ [next_src s])
       (with_offscreen (offscreen s ++ [JS.dom_string (next_src s)])
          (rendered (set_hints img) (Some c) ths s))).
Proof using Himg Hcounter Hstrip.
  destruct s as [g i [m t im ct th bc bn bp] o l off p d]. cbn in *. subst.
  intros Hn Hd. cbn in Hd. subst d.
  unfold updateGalleryImage, mbind, Js_bind, read, write. cbn.
  unfold next_src in *. cbn in *.
  rewrite bool_decide_eq_false_2 by congruence. reflexivity.
Qed.

Lemma updateGalleryImage_immediate :
  next_src s ≠ Some (default "" (img_src img)) →
  has_decode s = false →
  updateGalleryImage s
  = (Returned tt,
     with_offscreen (offscreen s ++ [JS.dom_string (next_src s)])
       (rendered (set_src (JS.dom_string (next_src s)) (set_hints img))
                 (Some (counter_text s)) ths s)).
Proof using Himg Hcounter Hstrip.
  destruct s as [g i [m t im ct th bc bn bp] o l off p d]. cbn in *. subst.
  intros Hn Hd. cbn in Hd. subst d.
  unfold updateGalleryImage, mbind, Js_bind, read, write. cbn.
  unfold next_src in *. cbn in *.
  rewrite bool_decide_eq_false_2 by congruence. reflexivity.
Qed.

End Render.

Lemma settle_runs_done (s : State) (img : ImgEl) (c : string) (k : nat)
    (nextSrc : option string) (r : decode_result) :
  galleryMainImage (DOM s) = Some img →
  galleryCounter (DOM s) = Some c →
  pending s !! k = Some nextSrc →
  settle k r s
  = (Returned tt, with_pending (delete k (pending s)) (swapped img nextSrc s)).
Proof.
  destruct s as [g i [m t im ct th bc bn bp] o l off p d]. cbn.
  intros -> -> Hk. unfold settle, mbind, Js_bind, read, write. cbn.
  rewrite Hk. destruct r; reflexivity.
Qed.

Lemma settle_last (s : State) (img : ImgEl) (c : string)
    (nextSrc : option string) (r : decode_result) (before : list (option string)) :
  galleryMainImage (DOM s) = Some img →
  galleryCounter (DOM s) = Some c →
  pending s = before ++ [nextSrc] →
  settle (length before) r s
  = (Returned tt, with_pending before (swapped img nextSrc s)).
Proof.
  intros Hi Hc Hp.
  rewrite (settle_runs_done s img c (length before) nextSrc r Hi Hc).
  - by rewrite Hp, delete_middle, app_nil_r.
  - by rewrite Hp, list_lookup_middle.
Qed.



(** A render that found the main image leaves the two hints set, so that
    setting them again changes nothing. *)
Lemma updateGalleryImage_hints (s : State) (img : ImgEl) :
  galleryMainImage (DOM s) = Some img →
  ∃ img', galleryMainImage (DOM (exec updateGalleryImage s)) = Some img' ∧
          set_hints img' = img'.
Proof.
  destruct s as [g i [m t im c th bc bn bp] o l off p d]. cbn. intros ->.
  js_simpl. case_bool_decide; destruct c, th, d; cbn; eauto.
Qed.

(** C7, as the code has it.  A render that finds its elements, for the
    target [currentGallery[currentImageIndex]], sets the two loading hints
    of the main image before it looks at the target, and ends by putting
    [active] on the thumbnail at [currentImageIndex] and on no other.  In
    between:
    - if the target is the [src] the main image already has, it writes the
      counter text; the [src] stays, no off-screen image is created, no
      continuation is registered.  The call thus changes the counter, the
      highlight and the two hints, the hints only where they were not set
      already;
    - otherwise an off-screen image is created for the target; where
      [decode] exists the call itself leaves [src] and counter alone and
      registers [done], which sets [src] and the counter when the decode
      settles, fulfilled or rejected; where it does not, [done] runs within
      the call. *)
Theorem render_same_or_swap (s : State) (img : ImgEl) (c : string)
    (ths : list Thumb) :
  galleryMainImage (DOM s) = Some img →
  galleryCounter (DOM s) = Some c →
  galleryThumbnails (DOM s) = Some ths →
  (∀ k th,
     highlight (currentImageIndex s) ths !! k = Some th ↔
     ∃ th0, ths !! k = Some th0 ∧
            th = mkThumb (thumb_src th0) (thumb_alt th0)
                   (bool_decide (currentImageIndex s = Num (Z.of_nat k)))
                   (thumb_onclick th0)) ∧
  length (highlight (currentImageIndex s) ths) = length ths ∧
  (next_src s = Some (default "" (img_src img)) →
     updateGalleryImage s
     = (Returned tt, rendered (set_hints img) (Some (counter_text s)) ths s) ∧
     (set_hints img = img →
        updateGalleryImage s
        = (Returned tt,
           with_DOM
             (with_thumbnails (Some (highlight (currentImageIndex s) ths))
                (with_counter (Some (counter_text s)) (DOM s))) s))) ∧
  (next_src s ≠ Some (default "" (img_src img)) →
     (has_decode s = true →
        updateGalleryImage s
        = (Returned tt,
           with_pending (pending s ++ [next_src s])
             (with_offscreen (offscreen s ++ [JS.dom_string (next_src s)])
                (rendered (set_hints img) (Some c) ths s))) ∧
        ∀ r, settle (length (pending s)) r (exec updateGalleryImage s)
             = (Returned tt,
                with_pending (pending s)
                  (swapped (set_hints img) (next_src s)
                           (exec updateGalleryImage s)))) ∧
     (has_decode s = false →
        updateGalleryImage s
        = (Returned tt,
           with_offscreen (offscreen s ++ [JS.dom_string (next_src s)])
             (rendered (set_src (JS.dom_string (next_src s)) (set_hints img))
                       (Some (counter_text s)) ths s)))).
Proof.
  intros Hi Hc Ht. split; [|split; [|split; [|intros Hn; split]]].
  - intros k th. rewrite highlight_lookup.
    assert (JS.strict_eq (Num (Z.of_nat k)) (currentImageIndex s)
            = bool_decide (currentImageIndex s = Num (Z.of_nat k))) as ->.
    { destruct (currentImageIndex s) as [z|]; cbn; [|done].
      apply bool_decide_ext. split; congruence. }
    destruct (ths !! k) as [th0|]; cbn.
    + split; [intros [= <-]; by exists th0|].
      intros (th1 & [= <-] & ->). done.
    + split; [done|]. by intros (th1 & ? & _).
  - unfold highlight. by rewrite length_imap.
  - intros Hn. pose proof (updateGalleryImage_same s img c ths Hi Hc Ht Hn) as E.
    split; [exact E|]. intros Hh. rewrite E, Hh.
    destruct s as [g i [m t im ct th bc bn bp] o l off p d]. cbn in *.
    by subst.
  - intros Hd.
    pose proof (updateGalleryImage_decode s img c ths Hi Hc Ht Hn Hd) as E.
    split; [exact E|]. intros r. unfold exec. rewrite E. cbn [snd].
    by apply settle_last with (c := c).
  - intros Hd. by apply updateGalleryImage_immediate with (c := c).
Qed.

(** C7 fails as stated: a render for the image already displayed writes
    more than the counter and the highlight.  On a page whose markup gives
    the main image the first image of "ever" as [src] and no loading hints,
    the render within [openGallery("ever")] finds its target displayed,
    loads nothing, and still sets [fetchpriority] and [decoding] of the
    main image. *)
Lemma render_same_writes_hints :
  galleryMainImage (DOM ever_first_render)
    = Some (mkImgEl (Some "Photos/EVER/1.webp") None None) ∧
  next_src ever_first_render = Some "Photos/EVER/1.webp" ∧
  result updateGalleryImage ever_first_render = Returned tt ∧
  galleryMainImage (DOM (exec updateGalleryImage ever_first_render))
    = Some (mkImgEl (Some "Photos/EVER/1.webp") (Some "high") (Some "async")) ∧
  offscreen (exec updateGalleryImage ever_first_render) = [] ∧
  pending (exec updateGalleryImage ever_first_render) = [] ∧
  exec updateGalleryImage ever_first_render
    ≠ with_DOM
        (with_thumbnails
           (Some (highlight (currentImageIndex ever_first_render) []))
           (with_counter (Some (counter_text ever_first_render))
                         (DOM ever_first_render)))
        ever_first_render.
Proof.
  repeat split; try (vm_compute; reflexivity).
  intros H. apply (f_equal (λ s, galleryMainImage (DOM s))) in H.
  vm_compute in H. discriminate.
Qed.

(** *** [openGallery] on a key that resolves *)

Lemma openGallery_resolved (catalog : gmap string Project) (key : string)
    (p : Project) (imgs : list string) (s : State) :
  key ≠ "" → catalog !! key = Some p → images p = ImagesArray imgs →
  imgs ≠ [] →
  is_Some (galleryModal (DOM s)) → is_Some (galleryTitle (DOM s)) →
  openGallery catalog (JS.JString key) s
  = (updateGalleryImage ;; createThumbnails) (open_writes p imgs s).
Proof.
  intros Hkey Hk Hi Hne [m Hm] [t Ht]. unfold openGallery.
  cbn [JS.truthy JS.is_string JS.to_property_key negb orb].
  rewrite bool_decide_eq_false_2 by done. cbn [negb orb].
  unfold lookup_project. rewrite Hk, Hi.
  destruct imgs as [|src imgs]; [done|].
  unfold mbind, Js_bind, read, write; cbn -[updateGalleryImage createThumbnails].
  by rewrite Hm, Ht.
Qed.

Lemma createThumbnails_present (s : State) (ths : list Thumb) :
  galleryThumbnails (DOM s) = Some ths →
  createThumbnails s
  = (Returned tt,
     with_DOM (with_thumbnails
                 (Some (thumbnail_fragment (currentGallery s))) (DOM s)) s).
Proof. intros H. js_simpl. by rewrite H. Qed.

Lemma counter_text_first (s : State) :
  currentImageIndex s = Num 0 →
  counter_text s = "1 / " +:+ pretty (Z.of_nat (length (currentGallery s))).
Proof. intros H. unfold counter_text. rewrite H. reflexivity. Qed.

(** C6, as the code has it.  For a non-empty key that the catalog resolves
    to an entry with at least one image, on a page with all gallery
    elements, [openGallery] returns normally with the modal [active], the
    scroll locked, [currentGallery] the entry's images and
    [currentImageIndex = 0].  The counter reads "1 / N" on return when the
    first image is the one already displayed or the browser has no
    [decode]; otherwise the counter is still what it was and the
    continuation for the first image is pending.  If that continuation is
    the next thing to run, whether the decode was fulfilled or rejected,
    the counter reads "1 / N" and the main image shows the first image
    after it; whenever it runs, it gives the main image the first image as
    [src] and writes the counter from [currentImageIndex] and
    [currentGallery] as they are then. *)
Theorem openGallery_opens (catalog : gmap string Project) (key : string)
    (p : Project) (imgs : list string) (s : State) (img : ImgEl)
    (c : string) (ths : list Thumb) :
  key ≠ "" → catalog !! key = Some p → images p = ImagesArray imgs →
  imgs ≠ [] →
  is_Some (galleryModal (DOM s)) → is_Some (galleryTitle (DOM s)) →
  galleryMainImage (DOM s) = Some img →
  galleryCounter (DOM s) = Some c →
  galleryThumbnails (DOM s) = Some ths →
  let s' := exec (openGallery catalog (JS.JString key)) s in
  let one_of_N := "1 / " +:+ pretty (Z.of_nat (length imgs)) in
  result (openGallery catalog (JS.JString key)) s = Returned tt ∧
  is_open s' ∧ body_overflow s' = "hidden" ∧
  currentGallery s' = imgs ∧ currentImageIndex s' = Num 0 ∧
  galleryTitle (DOM s') = Some (title p) ∧
  (has_decode s = false ∨ head imgs = Some (default "" (img_src img)) →
     galleryCounter (DOM s') = Some one_of_N ∧ pending s' = pending s) ∧
  (has_decode s = true → head imgs ≠ Some (default "" (img_src img)) →
     galleryCounter (DOM s') = Some c ∧
     pending s' = pending s ++ [head imgs] ∧
     ∀ r, result (settle (length (pending s)) r) s' = Returned tt ∧
          galleryCounter (DOM (exec (settle (length (pending s)) r) s'))
            = Some one_of_N ∧
          (galleryMainImage (DOM (exec (settle (length (pending s)) r) s'))
             ≫= img_src) = head imgs ∧
          pending (exec (settle (length (pending s)) r) s') = pending s) ∧
  (∀ (s2 : State) (img2 : ImgEl) (c2 : string) (k : nat) (r : decode_result),
     galleryMainImage (DOM s2) = Some img2 →
     galleryCounter (DOM s2) = Some c2 →
     pending s2 !! k = Some (head imgs) →
     settle k r s2
     = (Returned tt,
        with_pending (delete k (pending s2)) (swapped img2 (head imgs) s2))).
Proof.
  intros Hkey Hk Hi Hne Hm Ht Him Hc Hth s' one_of_N. subst s'.
  assert (∀ A B C D E F G H I : Prop,
            A ∧ B ∧ C ∧ D ∧ E ∧ F ∧ G ∧ H → I →
            A ∧ B ∧ C ∧ D ∧ E ∧ F ∧ G ∧ H ∧ I) as Hjoin by tauto.
  apply Hjoin;
    [|intros s2 img2 c2 k r H1 H2 H3; by apply settle_runs_done with (c := c2)].
  clear Hjoin.
  unfold exec, result.
  rewrite (openGallery_resolved catalog key p imgs s Hkey Hk Hi Hne Hm Ht).
  set (s0 := open_writes p imgs s).
  assert (galleryMainImage (DOM s0) = Some img) as Him0 by done.
  assert (galleryCounter (DOM s0) = Some c) as Hc0 by done.
  assert (galleryThumbnails (DOM s0) = Some ths) as Hth0 by done.
  assert (next_src s0 = head imgs) as Hnext.
  { unfold next_src, s0. cbn. by rewrite head_lookup. }
  assert (counter_text s0 = one_of_N) as Hct by (by apply counter_text_first).
  unfold mbind, Js_bind.
  destruct (decide (head imgs = Some (default "" (img_src img)))) as [Hsame|Hdiff].
  - rewrite (updateGalleryImage_same s0 img c ths Him0 Hc0 Hth0) by congruence.
    erewrite createThumbnails_present by reflexivity. rewrite Hct. cbn.
    repeat split; done.
  - destruct (has_decode s) eqn:Hd.
    + rewrite (updateGalleryImage_decode s0 img c ths Him0 Hc0 Hth0)
        by (done || congruence).
      erewrite createThumbnails_present by reflexivity. rewrite Hnext. cbn.
      repeat split; try done.
      * by destruct H.
      * by destruct H.
      * erewrite settle_last with (nextSrc := head imgs); done.
      * erewrite settle_last with (nextSrc := head imgs) by done.
        cbn. by rewrite <- Hct.
      * erewrite settle_last with (nextSrc := head imgs) by done.
        cbn. clear -Hne. by destruct imgs.
      * erewrite settle_last with (nextSrc := head imgs) by done. done.
    + rewrite (updateGalleryImage_immediate s0 img c ths Him0 Hc0 Hth0)
        by (done || congruence).
      erewrite createThumbnails_present by reflexivity. rewrite Hct. cbn.
      repeat split; try done.
Qed.

(** C6 fails as stated: in a browser with [decode], [openGallery] returns
    before the counter is written.  On a fresh page, "ever" is open at
    index 0 with the counter still empty; and "helmet", opened after a visit
    of "ever" that ended on its second image, is open at index 0 of five
    images with the counter still reading "2 / 3". *)
Lemma open_counter_not_yet_written :
  is_open (ever_open true) ∧
  currentImageIndex (ever_open true) = Num 0 ∧
  length (currentGallery (ever_open true)) = 3%nat ∧
  galleryCounter (DOM (ever_open true)) = Some "" ∧
  galleryCounter (DOM (ever_open true)) ≠ Some "1 / 3" ∧
  is_open helmet_after_ever ∧
  currentImageIndex helmet_after_ever = Num 0 ∧
  length (currentGallery helmet_after_ever) = 5%nat ∧
  galleryCounter (DOM helmet_after_ever) = Some "2 / 3" ∧
  galleryCounter (DOM helmet_after_ever) ≠ Some "1 / 5".
Proof.
  repeat split; try (vm_compute; reflexivity);
    intros H; vm_compute in H; discriminate.
Qed.

(** *** The invariant of sessions on a complete page *)

Lemma highlight_onclick (cur : JS.number) (ths : list Thumb) :
  map thumb_onclick (highlight cur ths) = map thumb_onclick ths.
Proof.
  apply list_eq. intros k. unfold highlight.
  rewrite !list_lookup_fmap, list_lookup_imap.
  by destruct (ths !! k).
Qed.

Lemma updateGalleryImage_keeps (s : State) :
  render_hooks s →
  result updateGalleryImage s = Returned tt ∧ keeps s (exec updateGalleryImage s).
Proof.
  intros Hh. split; [by apply updateGalleryImage_returns|].
  split; [apply updateGalleryImage_frame|].
  destruct s as [g i [m t im c th bc bn bp] o l off p d].
  destruct Hh as ([img Hi] & [ct Hc] & [ths Ht]). cbn in Hi, Hc, Ht. subst.
  js_simpl. case_bool_decide; destruct d; cbn;
    rewrite highlight_onclick; eauto.
Qed.

Lemma settle_keeps (k : nat) (r : decode_result) (s : State) :
  render_hooks s →
  result (settle k r) s = Returned tt ∧ keeps s (exec (settle k r) s).
Proof.
  intros Hh. pose proof (settle_frame k r s) as Hf.
  destruct Hh as ([img Hi] & [ct Hc] & Ht).
  destruct (pending s !! k) as [nextSrc|] eqn:Hk.
  - unfold exec, result in *.
    rewrite (settle_runs_done s img ct k nextSrc r Hi Hc Hk) in *. cbn.
    split; [done|]. split; [done|]. cbn. eauto.
  - unfold exec, result, settle, mbind, Js_bind, read in *. cbn in *.
    rewrite Hk in *. cbn. split; [done|]. split; [done|]. rewrite Hi, Hc. eauto.
Qed.

Lemma keeps_invariant (s s' : State) :
  keeps s s' → all_hooks s → strip_in_range s →
  all_hooks s' ∧ strip_in_range s' ∧
  (index_in_range s → index_in_range s') ∧ (is_open s' → is_open s).
Proof.
  intros ((Hg & Hi & Hm & Ht & _) & Him & Hc & Hs) (Hm' & Ht' & _ & _ & Hth) Hr.
  destruct Hth as [ths Hths]. rewrite Hths in Hs.
  destruct (galleryThumbnails (DOM s')) as [ths'|] eqn:E; [|done].
  cbn in Hs. injection Hs as Hs.
  repeat split.
  - by rewrite Hm.
  - by rewrite Ht.
  - done.
  - done.
  - by rewrite E.
  - intros ths0 E0. rewrite E in E0. injection E0 as <-. rewrite Hg.
    specialize (Hr ths Hths). rewrite Forall_lookup in Hr |- *.
    intros k th' Hk.
    assert (map thumb_onclick ths' !! k = Some (thumb_onclick th')) as Hk'
      by (by rewrite list_lookup_fmap, Hk).
    rewrite Hs, list_lookup_fmap in Hk'.
    destruct (ths !! k) as [th|] eqn:Ek; [|done].
    cbn in Hk'. injection Hk' as <-. by apply (Hr k).
  - unfold index_in_range. by rewrite Hg, Hi.
  - unfold is_open. by rewrite Hm.
Qed.

Lemma render_invariant (i : JS.number) (s : State) :
  all_hooks s → strip_in_range s →
  (is_open s → index_in_range (with_index i s)) →
  result updateGalleryImage (with_index i s) = Returned tt ∧
  session_invariant (exec updateGalleryImage (with_index i s)).
Proof.
  intros Hh Hs Hr.
  destruct (updateGalleryImage_keeps (with_index i s)) as [Hret Hk];
    [apply Hh|].
  split; [done|].
  destruct (keeps_invariant _ _ Hk Hh Hs) as (H1 & H2 & H3 & H4).
  split; [done|]. split; [done|]. intros Ho. apply H3, Hr, (H4 Ho).
Qed.

Lemma nextImage_invariant (s : State) :
  session_invariant s →
  result nextImage s = Returned tt ∧ session_invariant (exec nextImage s).
Proof.
  intros (Hh & Hs & Hr). apply render_invariant; [done..|].
  intros Ho. destruct (Hr Ho) as (i & Hi & Hb).
  unfold index_in_range. cbn. rewrite Hi.
  unfold JS.length, JS.add, JS.rem.
  destruct (decide _) as [E|_]; [lia|]. eexists. split; [done|].
  rewrite Z.rem_mod_nonneg by lia. apply Z.mod_pos_bound. lia.
Qed.

Lemma prevImage_invariant (s : State) :
  session_invariant s →
  result prevImage s = Returned tt ∧ session_invariant (exec prevImage s).
Proof.
  intros (Hh & Hs & Hr). apply render_invariant; [done..|].
  intros Ho. destruct (Hr Ho) as (i & Hi & Hb).
  unfold index_in_range. cbn. rewrite Hi.
  unfold JS.length, JS.add, JS.sub, JS.rem.
  destruct (decide _) as [E|_]; [lia|]. eexists. split; [done|].
  rewrite Z.rem_mod_nonneg by lia. apply Z.mod_pos_bound. lia.
Qed.

Lemma thumb_click_invariant (k : nat) (s : State) :
  session_invariant s →
  result (thumb_click k) s = Returned tt ∧
  session_invariant (exec (thumb_click k) s).
Proof.
  intros (Hh & Hs & Hr).
  assert (thumb_click k s
          = match galleryThumbnails (DOM s) ≫= (.!! k) with
            | Some thumb =>
                updateGalleryImage
                  (with_index (Num (Z.of_nat (thumb_onclick thumb))) s)
            | None => (Returned tt, s)
            end) as E.
  { unfold thumb_click, goToImage, mbind at 1, Js_bind at 1, read.
    cbn beta iota. by destruct (galleryThumbnails (DOM s) ≫= (.!! k)). }
  unfold exec, result. rewrite E. clear E.
  destruct (galleryThumbnails (DOM s)) as [ths|] eqn:Et; cbn; [|done].
  destruct (ths !! k) as [th|] eqn:Ek; cbn; [|done].
  apply (render_invariant _ s); [done..|].
  intros _. specialize (Hs ths Et). rewrite Forall_lookup in Hs.
  specialize (Hs k th Ek). cbn in Hs.
  eexists. split; [reflexivity|]. cbn. lia.
Qed.

Lemma closeGallery_invariant (s : State) :
  session_invariant s →
  result closeGallery s = Returned tt ∧ session_invariant (exec closeGallery s).
Proof.
  intros (Hh & Hs & Hr). unfold exec, result.
  rewrite closeGallery_present by apply Hh. cbn.
  destruct Hh as (Hm & Ht & Him & Hc & Hth).
  split; [done|]. repeat split; cbn; eauto. intros Ho. discriminate Ho.
Qed.

Lemma thumbnail_fragment_in_range (gallery : list string) :
  Forall (λ th, (thumb_onclick th < length gallery)%nat)
         (thumbnail_fragment gallery).
Proof.
  rewrite Forall_lookup. intros k th Hk. unfold thumbnail_fragment in Hk.
  rewrite list_lookup_imap in Hk.
  destruct (gallery !! k) as [src|] eqn:E; [|done].
  cbn in Hk. injection Hk as <-. cbn. by apply lookup_lt_Some in E.
Qed.

Lemma openGallery_invariant (catalog : gmap string Project) (v : JS.value)
    (s : State) :
  session_invariant s →
  result (openGallery catalog v) s = Returned tt ∧
  session_invariant (exec (openGallery catalog v) s).
Proof.
  intros Hinv. unfold exec, result.
  destruct (openGallery_cases catalog v s)
    as [[entry ->] | (key & p & imgs & _ & _ & _ & _ & Hne & _ & _ & ->)];
    [done|].
  destruct Hinv as ((Hm & Ht & Hrh) & Hs & Hr).
  set (s0 := open_writes p imgs s).
  assert (render_hooks s0) as Hrh0 by done.
  destruct (updateGalleryImage_keeps s0 Hrh0) as [Hret Hk].
  unfold exec, result, mbind, Js_bind in *.
  destruct (updateGalleryImage s0) as [[[]|e] s1]; cbn in Hret, Hk; [|done].
  destruct Hk as ((Hg & Hi & Hmo & Hti & Hov & _) & Him & Hc & Hth).
  assert (is_Some (galleryThumbnails (DOM s1))) as [ths1 Hths1].
  { destruct Hrh as (_ & _ & [ths Hths]). cbn in Hth. rewrite Hths in Hth.
    destruct (galleryThumbnails (DOM s1)); [eauto|done]. }
  rewrite (createThumbnails_present s1 ths1 Hths1). cbn.
  split; [done|]. repeat split; cbn; eauto.
  - rewrite Hmo. cbn. eauto.
  - rewrite Hti. cbn. eauto.
  - intros ths E. cbn in E. injection E as <-.
    apply thumbnail_fragment_in_range.
  - intros _. exists 0. cbn. rewrite Hi, Hg. cbn. split; [done|].
    destruct imgs; [done|]. cbn. lia.
Qed.

Lemma step_invariant (catalog : gmap string Project) (e : event) (s : State) :
  session_invariant s →
  result (handler catalog e) s = Returned tt ∧
  session_invariant (step catalog e s).
Proof.
  intros Hinv. pose proof Hinv as ((Hm & Ht & Hrh) & Hs & Hr).
  unfold step. destruct e as [a| | | | |key|k| |k r]; cbn [handler].
  - unfold project_click, exec, result, mbind, Js_bind, read. cbn.
    destruct Hm as [m Hm]. rewrite Hm. destruct m; cbn; [done|].
    destruct a as [projectKey|]; cbn; [|done].
    destruct (_ && _); [|done]. by apply openGallery_invariant.
  - unfold close_click, exec, result, mbind, Js_bind, read. cbn.
    destruct (galleryClose (DOM s)); [|done]. by apply closeGallery_invariant.
  - unfold next_click, exec, result, mbind, Js_bind, read. cbn.
    destruct (galleryNext (DOM s)); [|done]. by apply nextImage_invariant.
  - unfold prev_click, exec, result, mbind, Js_bind, read. cbn.
    destruct (galleryPrev (DOM s)); [|done]. by apply prevImage_invariant.
  - unfold backdrop_click, exec, result, mbind, Js_bind, read. cbn.
    destruct Hm as [m Hm]. rewrite Hm. by apply closeGallery_invariant.
  - unfold keydown, exec, result, mbind, Js_bind, read. cbn.
    destruct Hm as [m Hm]. rewrite Hm. destruct m; [|done].
    repeat case_bool_decide; try done.
    + by apply closeGallery_invariant.
    + by apply prevImage_invariant.
    + by apply nextImage_invariant.
  - by apply thumb_click_invariant.
  - destruct (closeGallery_invariant s Hinv) as [Hret Hc].
    unfold pagehide, try_catch, exec, result in *.
    by destruct (closeGallery s) as [[[]|err] s1].
  - destruct (settle_keeps k r s Hrh) as [Hret Hk]. split; [done|].
    destruct (keeps_invariant _ _ Hk) as (H1 & H2 & H3 & H4); [done..|].
    split; [done|]. split; [done|]. intros Ho. apply H3, Hr, (H4 Ho).
Qed.

(** On a complete page no listener ever throws, and every session the
    listeners open has [0 ≤ currentImageIndex < currentGallery.length] for
    as long as it is open: the thumbnails are the only callers of
    [goToImage], and they pass indices of the gallery shown. *)
Lemma reachable_session_invariant (catalog : gmap string Project)
    (d : DOMCache) (decode : bool) (s : State) :
  complete_page d → reachable catalog d decode s →
  session_invariant s ∧
  ∀ e, result (handler catalog e) s = Returned tt.
Proof.
  intros (Hm & Ht & Hi & Hc & Hth) Hr.
  assert (session_invariant s) as Hinv.
  { induction Hr as [|s e _ IH].
    - repeat split; cbn; eauto.
      + intros ths E. cbn in E. rewrite Hth in E. injection E as <-.
        constructor.
      + unfold is_open. cbn. by rewrite Hm.
    - by apply step_invariant. }
  split; [done|]. intros e. by apply step_invariant.
Qed.

Lemma open_session_in_range (catalog : gmap string Project) (d : DOMCache)
    (decode : bool) (s : State) :
  complete_page d → reachable catalog d decode s → is_open s →
  index_in_range s.
Proof.
  intros Hd Hr Ho.
  destruct (reachable_session_invariant catalog d decode s Hd Hr)
    as ((_ & _ & H) & _).
  by apply H.
Qed.

Lemma run_reachable (catalog : gmap string Project) (d : DOMCache)
    (decode : bool) (es : list event) :
  reachable catalog d decode (run catalog es (initial_state d decode)).
Proof.
  unfold run. induction es as [|e es IH] using rev_ind.
  - constructor.
  - rewrite foldl_app. cbn. by constructor.
Qed.

(** While the lightbox is shown, a click on a project opens nothing. *)
Lemma project_click_while_open (catalog : gmap string Project)
    (a : option string) (s : State) :
  is_open s → project_click catalog a s = (Returned tt, s).
Proof.
  unfold is_open. intros Hm.
  unfold project_click, mbind, Js_bind, read. cbn. by rewrite Hm.
Qed.

(** ** The scenarios of the specification *)

(** "ever" has three images: open, three times next, close. *)
Example scenario_ever :
  lookup_project portfolioData "ever"
    = Own (mkProject "EVER Monaco"
             (ImagesArray ["Photos/EVER/1.webp"; "Photos/EVER/2.webp";
                           "Photos/EVER/C.webp"])) ∧
  currentImageIndex (ever_open false) = Num 0 ∧
  galleryCounter (DOM (ever_open false)) = Some "1 / 3" ∧
  currentImageIndex (exec nextImage (ever_open false)) = Num 1 ∧
  galleryCounter (DOM (exec nextImage (ever_open false))) = Some "2 / 3" ∧
  currentImageIndex (Nat.iter 3 (exec nextImage) (ever_open false)) = Num 0 ∧
  galleryCounter (DOM (Nat.iter 3 (exec nextImage) (ever_open false)))
    = Some "1 / 3" ∧
  is_closed (exec closeGallery (Nat.iter 3 (exec nextImage) (ever_open false))).
Proof. repeat split; vm_compute; reflexivity. Qed.

(** "chassis-gallery" has five images: go to the last, then next wraps. *)
Example scenario_chassis :
  currentImageIndex
    (exec (goToImage (Num 4))
       (exec (openGallery portfolioData (JS.JString "chassis-gallery"))
          (initial_state gallery_page false))) = Num 4 ∧
  galleryCounter
    (DOM (exec (goToImage (Num 4))
            (exec (openGallery portfolioData (JS.JString "chassis-gallery"))
               (initial_state gallery_page false)))) = Some "5 / 5" ∧
  currentImageIndex
    (exec nextImage
       (exec (goToImage (Num 4))
          (exec (openGallery portfolioData (JS.JString "chassis-gallery"))
             (initial_state gallery_page false)))) = Num 0.
Proof. repeat split; vm_compute; reflexivity. Qed.

(** Every key of [portfolioData] is a non-empty string with a non-empty
    image array. *)
Example portfolioData_well_formed :
  map_Forall
    (λ key p, key ≠ "" ∧ ∃ src imgs, images p = ImagesArray (src :: imgs))
    portfolioData.
Proof.
  apply map_Forall_to_list. unfold portfolioData.
  rewrite map_to_list_to_map.
  - repeat (apply Forall_cons; split; [cbn; split; [done|eauto]|]).
    apply Forall_nil_2.
  - cbn. compute_done.
Qed.

(** ** The theorems at concrete sessions *)

(** [next_cycle] on "ever" standing at its second image. *)
Lemma next_cycle_witness :
  currentImageIndex (exec nextImage (ever_open false)) = Num 1 ∧
  0 ≤ 1 < Z.of_nat (length (currentGallery (exec nextImage (ever_open false)))) ∧
  currentImageIndex
    (Nat.iter (length (currentGallery (exec nextImage (ever_open false))))
              (exec nextImage) (exec nextImage (ever_open false))) = Num 1.
Proof.
  assert (currentImageIndex (exec nextImage (ever_open false)) = Num 1) as Hi
    by (vm_compute; reflexivity).
  assert (0 ≤ 1 < Z.of_nat (length (currentGallery (exec nextImage (ever_open false))))) as Hr
    by (vm_compute; split; [discriminate | reflexivity]).
  split; [exact Hi|]. split; [exact Hr|].
  exact (proj1 (next_cycle (exec nextImage (ever_open false)) 1 Hi Hr)).
Defined.


(** [prev_after_next] on "ever" standing at its last image. *)
Lemma prev_after_next_witness :
  index_in_range (exec (goToImage (Num 2)) (ever_open false)) ∧
  currentImageIndex
    (exec prevImage (exec nextImage (exec (goToImage (Num 2)) (ever_open false))))
  = currentImageIndex (exec (goToImage (Num 2)) (ever_open false)).
Proof.
  assert (index_in_range (exec (goToImage (Num 2)) (ever_open false))) as Hr.
  { exists 2. vm_compute. split; [reflexivity|]. split; [discriminate|reflexivity]. }
  split; [exact Hr|].
  exact (proj1 (prev_after_next (exec (goToImage (Num 2)) (ever_open false)) Hr)).
Defined.

(** [empty_gallery_NaN]: the empty case at the initial state, the
    non-empty case at "ever". *)
Lemma empty_gallery_NaN_witness :
  currentGallery (initial_state gallery_page true) = [] ∧
  currentImageIndex (exec nextImage (initial_state gallery_page true)) = NaN ∧
  ¬ index_in_range (exec prevImage (initial_state gallery_page true)) ∧
  currentGallery (ever_open true) ≠ [] ∧
  index_in_range (ever_open true) ∧
  index_in_range (exec nextImage (ever_open true)) ∧
  index_in_range (exec prevImage (ever_open true)).
Proof.
  destruct (empty_gallery_NaN gallery_page true) as (Hg & Hn & _ & He & Hk).
  assert (currentGallery (ever_open true) ≠ []) as Hne
    by (vm_compute; discriminate).
  assert (index_in_range (ever_open true)) as Hr.
  { exists 0. vm_compute. split; [reflexivity|]. split; [discriminate|reflexivity]. }
  split; [exact Hg|]. split; [exact Hn|].
  split; [exact (proj2 (proj2 (proj2 (He _ Hg))))|].
  split; [exact Hne|]. split; [exact Hr|]. exact (Hk _ Hne Hr).
Defined.

(** [openGallery_unresolved] on the unknown id "does-not-exist", on the
    inherited name "toString", and on a number. *)
Lemma openGallery_unresolved_witness :
  unresolved portfolioData (JS.JString "does-not-exist") ∧
  (∃ entry : log_entry,
     openGallery portfolioData (JS.JString "does-not-exist")
                 (initial_state gallery_page true)
     = (Returned tt,
        with_console (console (initial_state gallery_page true) ++ [entry])
                     (initial_state gallery_page true))) ∧
  (∃ entry : log_entry,
     openGallery portfolioData (JS.JString "toString") (ever_open true)
     = (Returned tt,
        with_console (console (ever_open true) ++ [entry]) (ever_open true))) ∧
  (∃ entry : log_entry,
     openGallery portfolioData (JS.JNumber (Num 3)) (ever_open true)
     = (Returned tt,
        with_console (console (ever_open true) ++ [entry]) (ever_open true))).
Proof.
  assert (∀ key, portfolioData !! key = None →
                 unresolved portfolioData (JS.JString key)) as Hu.
  { intros key Hk. right. exists key. split; [reflexivity|]. left. exact Hk. }
  assert (portfolioData !! "does-not-exist" = None) as H1
    by (vm_compute; reflexivity).
  assert (portfolioData !! "toString" = None) as H2
    by (vm_compute; reflexivity).
  split; [exact (Hu _ H1)|].
  split; [exact (openGallery_unresolved portfolioData _ _ (Hu _ H1))|].
  split; [exact (openGallery_unresolved portfolioData _ _ (Hu _ H2))|].
  apply (openGallery_unresolved portfolioData (JS.JNumber (Num 3))).
  left. reflexivity.
Defined.

(** [close_after_history] after a walk through "ever". *)
Lemma close_after_history_witness :
  is_open (ever_open true) ∧
  is_closed
    (exec closeGallery
       (foldl history_step (ever_open true)
              [OpNext; OpSettle 0 Rejected; OpGoTo (Num 2); OpPrev; OpNext;
               OpNext])).
Proof.
  assert (is_open (ever_open true)) as Ho by (vm_compute; reflexivity).
  split; [exact Ho|].
  exact (proj1 (proj2 (close_after_history (ever_open true)
    [OpNext; OpSettle 0 Rejected; OpGoTo (Num 2); OpPrev; OpNext; OpNext] Ho))).
Defined.

(** [keyboard_and_backdrop] on the freshly loaded page (closed) and on
    "ever" (open). *)
Lemma keyboard_and_backdrop_witness :
  is_closed (initial_state gallery_page true) ∧
  keydown "ArrowRight" (initial_state gallery_page true)
    = (Returned tt, initial_state gallery_page true) ∧
  backdrop_click (initial_state gallery_page true)
    = (Returned tt, initial_state gallery_page true) ∧
  is_open (ever_open true) ∧
  keydown "ArrowRight" (ever_open true) = nextImage (ever_open true).
Proof.
  assert (is_closed (initial_state gallery_page true)) as Hc
    by (split; reflexivity).
  assert (is_open (ever_open true)) as Ho by (vm_compute; reflexivity).
  destruct (keyboard_and_backdrop (initial_state gallery_page true))
    as (Hclosed & _ & _).
  destruct (keyboard_and_backdrop (ever_open true)) as (_ & _ & Hopen).
  split; [exact Hc|]. split; [exact (proj1 (Hclosed Hc) "ArrowRight")|].
  split; [exact (proj2 (Hclosed Hc))|]. split; [exact Ho|].
  exact (proj1 (proj2 (proj2 (Hopen Ho)))).
Defined.

(** [missing_elements] on a freshly loaded page without gallery elements. *)
Lemma missing_elements_witness :
  galleryModal (DOM (initial_state bare_page true)) = None ∧
  galleryMainImage (DOM (initial_state bare_page true)) = None ∧
  (∃ entry : log_entry,
     openGallery portfolioData (JS.JString "ever") (initial_state bare_page true)
     = (Returned tt,
        with_console (console (initial_state bare_page true) ++ [entry])
                     (initial_state bare_page true))) ∧
  pagehide (initial_state bare_page true)
    = (Returned tt, initial_state bare_page true).
Proof.
  split; [reflexivity|]. split; [reflexivity|].
  destruct (missing_elements portfolioData (initial_state bare_page true)
              eq_refl eq_refl) as (Hopen & _ & _ & _ & _ & _ & Hhide).
  split; [exact (Hopen (JS.JString "ever"))|exact Hhide].
Defined.

(** [render_same_or_swap]: "ever" rendered again at its first image (same
    source), which puts [active] on its first thumbnail; and rendered while
    its first image is still being decoded (different source, [decode]
    present). *)
Lemma render_same_or_swap_witness :
  galleryMainImage (DOM (ever_open false)) = Some ever_image ∧
  galleryCounter (DOM (ever_open false)) = Some "1 / 3" ∧
  galleryThumbnails (DOM (ever_open false)) = Some ever_thumbs ∧
  next_src (ever_open false) = Some (default "" (img_src ever_image)) ∧
  set_hints ever_image = ever_image ∧
  highlight (currentImageIndex (ever_open false)) ever_thumbs !! 0%nat
  = Some (mkThumb "Photos/EVER/1.webp" "Thumbnail 1" true 0) ∧
  highlight (currentImageIndex (ever_open false)) ever_thumbs !! 1%nat
  = Some (mkThumb "Photos/EVER/2.webp" "Thumbnail 2" false 1) ∧
  galleryThumbnails (DOM (exec updateGalleryImage (ever_open false)))
  = Some [mkThumb "Photos/EVER/1.webp" "Thumbnail 1" true 0;
          mkThumb "Photos/EVER/2.webp" "Thumbnail 2" false 1;
          mkThumb "Photos/EVER/C.webp" "Thumbnail 3" false 2] ∧
  updateGalleryImage (ever_open false)
  = (Returned tt,
     with_DOM
       (with_thumbnails
          (Some (highlight (currentImageIndex (ever_open false)) ever_thumbs))
          (with_counter (Some (counter_text (ever_open false)))
                        (DOM (ever_open false))))
       (ever_open false)) ∧
  next_src (ever_open true) ≠ Some (default "" (img_src (set_hints (mkImgEl None None None)))) ∧
  has_decode (ever_open true) = true ∧
  (∀ r, settle (length (pending (ever_open true))) r
               (exec updateGalleryImage (ever_open true))
        = (Returned tt,
           with_pending (pending (ever_open true))
             (swapped (set_hints (set_hints (mkImgEl None None None)))
                      (next_src (ever_open true))
                      (exec updateGalleryImage (ever_open true))))).
Proof.
  assert (galleryMainImage (DOM (ever_open false)) = Some ever_image) as Hi
    by (vm_compute; reflexivity).
  assert (galleryCounter (DOM (ever_open false)) = Some "1 / 3") as Hc
    by (vm_compute; reflexivity).
  assert (galleryThumbnails (DOM (ever_open false)) = Some ever_thumbs) as Ht
    by (vm_compute; reflexivity).
  assert (next_src (ever_open false) = Some (default "" (img_src ever_image)))
    as Hn by (vm_compute; reflexivity).
  assert (set_hints ever_image = ever_image) as Hh by reflexivity.
  assert (galleryMainImage (DOM (ever_open true))
          = Some (set_hints (mkImgEl None None None))) as Hi'
    by (vm_compute; reflexivity).
  assert (galleryCounter (DOM (ever_open true)) = Some "") as Hc'
    by (vm_compute; reflexivity).
  assert (galleryThumbnails (DOM (ever_open true)) = Some ever_thumbs) as Ht'
    by (vm_compute; reflexivity).
  assert (next_src (ever_open true)
          ≠ Some (default "" (img_src (set_hints (mkImgEl None None None)))))
    as Hn' by (vm_compute; discriminate).
  assert (has_decode (ever_open true) = true) as Hd by (vm_compute; reflexivity).
  destruct (render_same_or_swap _ _ _ _ Hi Hc Ht) as (Hhl & _ & Hsame & _).
  destruct (render_same_or_swap _ _ _ _ Hi' Hc' Ht') as (_ & _ & _ & Hswap).
  split; [exact Hi|]. split; [exact Hc|]. split; [exact Ht|].
  split; [exact Hn|]. split; [exact Hh|].
  split.
  { apply (proj2 (Hhl 0%nat _)).
    exists (mkThumb "Photos/EVER/1.webp" "Thumbnail 1" false 0).
    split; vm_compute; reflexivity. }
  split.
  { apply (proj2 (Hhl 1%nat _)).
    exists (mkThumb "Photos/EVER/2.webp" "Thumbnail 2" false 1).
    split; vm_compute; reflexivity. }
  split.
  { unfold exec. rewrite (proj1 (Hsame Hn)). vm_compute. reflexivity. }
  split; [exact (proj2 (Hsame Hn) Hh)|].
  split; [exact Hn'|]. split; [exact Hd|].
  exact (proj2 (proj1 (Hswap Hn') Hd)).
Defined.

(** [openGallery_opens]: "ever" opened on a fresh page, in a browser with
    [decode].  Settled at once, the continuation writes "1 / 3"; settled
    after a [nextImage], it writes "2 / 3" and shows the first image. *)
Lemma openGallery_opens_witness :
  portfolioData !! "ever" = Some ever_project ∧
  is_open (ever_open true) ∧
  currentImageIndex (ever_open true) = Num 0 ∧
  galleryCounter (DOM (ever_open true)) = Some "" ∧
  pending (ever_open true) = [Some "Photos/EVER/1.webp"] ∧
  (∀ r, galleryCounter (DOM (exec (settle 0 r) (ever_open true)))
        = Some "1 / 3") ∧
  (∀ r, galleryCounter
          (DOM (exec (settle 0 r) (exec nextImage (ever_open true))))
        = Some "2 / 3" ∧
        (galleryMainImage
           (DOM (exec (settle 0 r) (exec nextImage (ever_open true))))
           ≫= img_src) = Some "Photos/EVER/1.webp").
Proof.
  assert (portfolioData !! "ever" = Some ever_project) as Hk
    by (vm_compute; reflexivity).
  pose proof (openGallery_opens portfolioData "ever" ever_project
                ["Photos/EVER/1.webp"; "Photos/EVER/2.webp"; "Photos/EVER/C.webp"]
                (initial_state gallery_page true) (mkImgEl None None None)
                "" []
                ltac:(discriminate) Hk eq_refl ltac:(discriminate)
                (mk_is_Some _ _ eq_refl) (mk_is_Some _ _ eq_refl)
                eq_refl eq_refl eq_refl)
    as (_ & Ho & _ & _ & Hidx & _ & _ & Hlater & Hwhenever).
  destruct (Hlater eq_refl ltac:(discriminate)) as (Hc & Hp & Hr).
  split; [exact Hk|]. split; [exact Ho|]. split; [exact Hidx|].
  split; [exact Hc|]. split; [exact Hp|].
  split; [intros r; exact (proj1 (proj2 (Hr r)))|].
  intros r. unfold exec at 1 3.
  rewrite (Hwhenever (exec nextImage (ever_open true))
             (mkImgEl None (Some "high") (Some "async")) "" 0%nat r
             eq_refl eq_refl eq_refl).
  split; vm_compute; reflexivity.
Defined.

(** * Beyond the lightbox contracts *)

(** ** The strip and the highlight *)

Lemma exec_bind (m k : Js unit) (s : State) :
  result m s = Returned tt → exec (m ;; k) s = exec k (exec m s).
Proof.
  unfold exec, result, mbind, Js_bind.
  destruct (m s) as [[[]|e] s1]; cbn; [done|discriminate].
Qed.

Lemma step_kinds (catalog : gmap string Project) (e : event) (s : State) :
  session_invariant s → step_kind s (step catalog e s).
Proof.
  intros ((Hm & Ht & Hrh) & _ & _). unfold step.
  assert (step_kind s (exec closeGallery s)) as Hclose.
  { unfold exec. rewrite closeGallery_present by done. constructor. }
  assert (step_kind s (exec nextImage s)) as Hnext by apply kind_render.
  assert (step_kind s (exec prevImage s)) as Hprev by apply kind_render.
  assert (∀ v, step_kind s (exec (openGallery catalog v) s)) as Hopen.
  { intros v. unfold exec at 1.
    destruct (openGallery_cases catalog v s)
      as [[entry ->] | (key & p & imgs & _ & _ & _ & _ & Hne & _ & _ & ->)].
    - constructor.
    - change (step_kind s
                (exec (updateGalleryImage ;; createThumbnails)
                      (open_writes p imgs s))).
      rewrite exec_bind by (by apply updateGalleryImage_returns).
      by constructor. }
  destruct e as [a| | | | |key|k| |k r]; cbn [handler].
  - unfold project_click, exec, mbind, Js_bind, read. cbn.
    destruct Hm as [m Hm]. rewrite Hm. destruct m; cbn; [constructor|].
    destruct a as [projectKey|]; cbn; [|constructor].
    destruct (_ && _); [apply Hopen|constructor].
  - unfold close_click, exec, mbind, Js_bind, read. cbn.
    destruct (galleryClose (DOM s)); [apply Hclose|constructor].
  - unfold next_click, exec, mbind, Js_bind, read. cbn.
    destruct (galleryNext (DOM s)); [apply Hnext|constructor].
  - unfold prev_click, exec, mbind, Js_bind, read. cbn.
    destruct (galleryPrev (DOM s)); [apply Hprev|constructor].
  - unfold backdrop_click, exec, mbind, Js_bind, read. cbn.
    destruct Hm as [m Hm]. rewrite Hm. apply Hclose.
  - unfold keydown, exec, mbind, Js_bind, read. cbn.
    destruct Hm as [m Hm]. rewrite Hm. destruct m; [|constructor].
    repeat case_bool_decide;
      [apply Hclose|apply Hprev|apply Hnext|constructor].
  - unfold thumb_click, exec, mbind at 1, Js_bind at 1, read. cbn beta iota.
    destruct (galleryThumbnails (DOM s) ≫= (.!! k)) as [th|];
      [apply kind_render|constructor].
  - unfold pagehide, try_catch, exec in *.
    rewrite closeGallery_present in * by done. apply Hclose.
  - constructor.
Qed.

Lemma highlight_highlight (i j : JS.number) (ths : list Thumb) :
  highlight i (highlight j ths) = highlight i ths.
Proof.
  apply list_eq. intros k. rewrite !highlight_lookup.
  by destruct (ths !! k).
Qed.

Lemma thumbnail_fragment_lookup (gallery : list string) (k : nat) :
  thumbnail_fragment gallery !! k
  = (λ src, mkThumb src ("Thumbnail " +:+ pretty (Z.of_nat k + 1)) false k)
      <$> gallery !! k.
Proof. unfold thumbnail_fragment. by rewrite list_lookup_imap. Qed.

Lemma updateGalleryImage_strip (s : State) (ths : list Thumb) :
  render_hooks s → galleryThumbnails (DOM s) = Some ths →
  galleryThumbnails (DOM (exec updateGalleryImage s))
  = Some (highlight (currentImageIndex s) ths).
Proof.
  destruct s as [g i [m t im c th bc bn bp] o l off p d].
  unfold render_hooks; cbn. intros ([img ->] & [ct ->] & _) ->.
  js_simpl. case_bool_decide; destruct d; cbn; done.
Qed.

Lemma settle_strip (k : nat) (r : decode_result) (s : State) :
  render_hooks s →
  galleryThumbnails (DOM (exec (settle k r) s)) = galleryThumbnails (DOM s).
Proof.
  intros ([img Hi] & [ct Hc] & _).
  destruct (pending s !! k) as [nextSrc|] eqn:Hk.
  - unfold exec. by rewrite (settle_runs_done s img ct k nextSrc r Hi Hc Hk).
  - unfold exec, settle, mbind, Js_bind, read. cbn. by rewrite Hk.
Qed.

Lemma step_kind_strip_shape (s s' : State) :
  render_hooks s → step_kind s s' → strip_shape s → strip_shape s'.
Proof.
  intros Hrh Hk Hs. destruct Hk as [|entry|i| |p imgs Hne|k r].
  - done.
  - done.
  - destruct (updateGalleryImage_frame (with_index i s)) as (Hg & Hi & _).
    cbn in Hg, Hi. right. rewrite Hg, Hi.
    destruct Hs as [Hs|Hs];
      rewrite (updateGalleryImage_strip (with_index i s) _ Hrh Hs); cbn;
      by rewrite ?highlight_highlight.
  - done.
  - left. set (s1 := exec updateGalleryImage (open_writes p imgs s)).
    assert (is_Some (galleryThumbnails (DOM s1))) as [ths1 H1].
    { assert (render_hooks (open_writes p imgs s)) as H0 by done.
      by destruct (updateGalleryImage_hooks _ H0) as (_ & _ & ?). }
    unfold exec at 1 2. by rewrite (createThumbnails_present s1 ths1 H1).
  - destruct (settle_frame k r s) as (Hg & Hi & _).
    unfold strip_shape. by rewrite Hg, Hi, settle_strip.
Qed.

Lemma reachable_strip_shape (catalog : gmap string Project) (d : DOMCache)
    (decode : bool) (s : State) :
  complete_page d → reachable catalog d decode s → strip_shape s.
Proof.
  intros Hd Hr. induction Hr as [|s e Hr IH].
  - left. cbn. by destruct Hd as (_ & _ & _ & _ & ->).
  - destruct (reachable_session_invariant catalog d decode s Hd Hr)
      as [Hinv _].
    eapply step_kind_strip_shape; [apply Hinv|by apply step_kinds|done].
Qed.

Lemma gallery_page_complete : complete_page gallery_page.
Proof. repeat split; cbn; eauto. Qed.

(** X1.  On a page with all gallery elements, whatever the listeners have
    done so far, the strip holds one thumbnail per image of
    [currentGallery], in the gallery's order; the [k]-th thumbnail shows
    the [k]-th image, is labelled "Thumbnail k+1" and passes [k] to
    [goToImage]. *)
Theorem strip_mirrors_gallery (catalog : gmap string Project) (d : DOMCache)
    (decode : bool) (s : State) :
  complete_page d → reachable catalog d decode s →
  ∃ ths, galleryThumbnails (DOM s) = Some ths ∧
         map thumb_src ths = currentGallery s ∧
         ∀ k th, ths !! k = Some th →
                 thumb_onclick th = k ∧
                 thumb_alt th = "Thumbnail " +:+ pretty (Z.of_nat k + 1).
Proof.
  intros Hd Hr.
  assert (∀ ths, (ths = thumbnail_fragment (currentGallery s) ∨
                  ths = highlight (currentImageIndex s)
                          (thumbnail_fragment (currentGallery s))) →
                 map thumb_src ths = currentGallery s ∧
                 ∀ k th, ths !! k = Some th →
                         thumb_onclick th = k ∧
                         thumb_alt th = "Thumbnail " +:+ pretty (Z.of_nat k + 1))
    as Hshape.
  { intros ths Hths. split.
    - apply list_eq. intros k. rewrite list_lookup_fmap.
      destruct Hths as [-> | ->];
        rewrite ?highlight_lookup, thumbnail_fragment_lookup;
        by destruct (currentGallery s !! k).
    - intros k th Hk.
      destruct Hths as [-> | ->];
        rewrite ?highlight_lookup, thumbnail_fragment_lookup in Hk;
        destruct (currentGallery s !! k); cbn in Hk; [|done| |done];
        by injection Hk as <-. }
  destruct (reachable_strip_shape catalog d decode s Hd Hr) as [H|H];
    eexists; (split; [exact H|]); apply Hshape; eauto.
Qed.

Lemma strip_mirrors_gallery_witness :
  complete_page gallery_page ∧
  reachable portfolioData gallery_page true (ever_visit true) ∧
  ∃ ths, galleryThumbnails (DOM (ever_visit true)) = Some ths ∧
         map thumb_src ths = currentGallery (ever_visit true).
Proof.
  split; [exact gallery_page_complete|].
  split; [apply run_reachable|].
  destruct (strip_mirrors_gallery portfolioData gallery_page true
              (ever_visit true) gallery_page_complete
              (run_reachable _ _ _ _)) as (ths & H1 & H2 & _).
  exists ths. split; [exact H1|exact H2].
Defined.

(** X2.  On a page with all gallery elements the highlight is never on a
    wrong thumbnail: in every state the listeners can reach, a thumbnail
    that carries [active] is the one at [currentImageIndex]. *)
Theorem highlight_never_wrong (catalog : gmap string Project) (d : DOMCache)
    (decode : bool) (s : State) (ths : list Thumb) (k : nat) (th : Thumb) :
  complete_page d → reachable catalog d decode s →
  galleryThumbnails (DOM s) = Some ths → ths !! k = Some th →
  thumb_active th = true → currentImageIndex s = Num (Z.of_nat k).
Proof.
  intros Hd Hr Hths Hk Ha.
  destruct (reachable_strip_shape catalog d decode s Hd Hr) as [H|H];
    rewrite H in Hths; injection Hths as <-.
  - rewrite thumbnail_fragment_lookup in Hk.
    destruct (currentGallery s !! k); cbn in Hk; [|done].
    injection Hk as <-. discriminate Ha.
  - rewrite highlight_lookup, thumbnail_fragment_lookup in Hk.
    destruct (currentGallery s !! k); cbn in Hk; [|done].
    injection Hk as <-. cbn in Ha.
    destruct (currentImageIndex s) as [z|]; cbn in Ha; [|done].
    apply bool_decide_eq_true in Ha. by subst.
Qed.

Lemma highlight_never_wrong_witness :
  complete_page gallery_page ∧
  reachable portfolioData gallery_page true (ever_visit true) ∧
  galleryThumbnails (DOM (ever_visit true))
    = Some (highlight (Num 2) ever_thumbs) ∧
  highlight (Num 2) ever_thumbs !! 2%nat
    = Some (mkThumb "Photos/EVER/C.webp" "Thumbnail 3" true 2) ∧
  currentImageIndex (ever_visit true) = Num 2.
Proof.
  assert (galleryThumbnails (DOM (ever_visit true))
          = Some (highlight (Num 2) ever_thumbs)) as Hths
    by (vm_compute; reflexivity).
  assert (highlight (Num 2) ever_thumbs !! 2%nat
          = Some (mkThumb "Photos/EVER/C.webp" "Thumbnail 3" true 2)) as Hk
    by (vm_compute; reflexivity).
  split; [exact gallery_page_complete|].
  split; [apply run_reachable|]. split; [exact Hths|]. split; [exact Hk|].
  exact (highlight_never_wrong portfolioData gallery_page true
           (ever_visit true) _ 2%nat _ gallery_page_complete
           (run_reachable _ _ _ _) Hths Hk eq_refl).
Defined.

(** X3.  A successful [openGallery] leaves no thumbnail highlighted, the
    first one included: it renders before it rebuilds the strip, so the
    strip it leaves is the fresh fragment, one thumbnail per image and none
    of them [active], although [currentImageIndex] is 0. *)
Theorem open_highlights_nothing (catalog : gmap string Project)
    (key : string) (p : Project) (imgs : list string) (s : State) :
  key ≠ "" → catalog !! key = Some p → images p = ImagesArray imgs →
  imgs ≠ [] →
  is_Some (galleryModal (DOM s)) → is_Some (galleryTitle (DOM s)) →
  render_hooks s →
  currentImageIndex (exec (openGallery catalog (JS.JString key)) s) = Num 0 ∧
  ∃ ths,
    galleryThumbnails (DOM (exec (openGallery catalog (JS.JString key)) s))
      = Some ths ∧
    length ths = length imgs ∧
    Forall (λ th, thumb_active th = false) ths.
Proof.
  intros Hkey Hk Hi Hne Hm Ht Hrh. unfold exec at 1 2.
  rewrite (openGallery_resolved catalog key p imgs s Hkey Hk Hi Hne Hm Ht).
  set (s0 := open_writes p imgs s).
  assert (render_hooks s0) as Hrh0 by done.
  fold (exec (updateGalleryImage ;; createThumbnails) s0).
  rewrite exec_bind by (by apply updateGalleryImage_returns).
  destruct (updateGalleryImage_frame s0) as (Hg & Hidx & _).
  destruct (updateGalleryImage_hooks s0 Hrh0) as (_ & _ & [ths1 H1]).
  unfold exec at 1 3. rewrite (createThumbnails_present _ ths1 H1). cbn.
  split; [done|]. eexists. split; [reflexivity|]. rewrite Hg. cbn. split.
  - unfold thumbnail_fragment. by rewrite length_imap.
  - rewrite Forall_lookup. intros k th Hth.
    rewrite thumbnail_fragment_lookup in Hth.
    destruct (imgs !! k); cbn in Hth; [|done]. by injection Hth as <-.
Qed.

Lemma open_highlights_nothing_witness :
  portfolioData !! "ever" = Some ever_project ∧
  currentImageIndex (ever_open true) = Num 0 ∧
  ∃ ths, galleryThumbnails (DOM (ever_open true)) = Some ths ∧
         length ths = 3%nat ∧
         Forall (λ th, thumb_active th = false) ths.
Proof.
  assert (portfolioData !! "ever" = Some ever_project) as Hk
    by (vm_compute; reflexivity).
  split; [exact Hk|].
  exact (open_highlights_nothing portfolioData "ever" ever_project
           ["Photos/EVER/1.webp"; "Photos/EVER/2.webp"; "Photos/EVER/C.webp"]
           (initial_state gallery_page true)
           ltac:(discriminate) Hk eq_refl ltac:(discriminate)
           (mk_is_Some _ _ eq_refl) (mk_is_Some _ _ eq_refl)
           (conj (mk_is_Some _ _ eq_refl)
                 (conj (mk_is_Some _ _ eq_refl) (mk_is_Some _ _ eq_refl)))).
Defined.

(** X4.  On a page with the render elements, each of [nextImage],
    [prevImage] and [goToImage] returns normally and leaves the strip with
    its thumbnails in place and [active] on exactly the thumbnails at the
    new [currentImageIndex] (on none when that index is no position of the
    strip). *)
Theorem navigation_highlights_current (s : State) (ths : list Thumb) :
  render_hooks s → galleryThumbnails (DOM s) = Some ths →
  ∀ s', (s' = exec nextImage s ∨ s' = exec prevImage s ∨
         ∃ i, s' = exec (goToImage i) s) →
    ∃ ths', galleryThumbnails (DOM s') = Some ths' ∧
            length ths' = length ths ∧
            map thumb_src ths' = map thumb_src ths ∧
            ∀ k th, ths' !! k = Some th →
                    (thumb_active th = true ↔
                     currentImageIndex s' = Num (Z.of_nat k)).
Proof.
  intros Hrh Hths s' Hs'.
  assert (∃ i, s' = exec updateGalleryImage (with_index i s)) as [i ->].
  { destruct Hs' as [-> | [-> | [i ->]]]; eexists; reflexivity. }
  destruct (updateGalleryImage_frame (with_index i s)) as (_ & Hi & _).
  cbn in Hi. rewrite Hi.
  rewrite (updateGalleryImage_strip (with_index i s) ths Hrh Hths). cbn.
  eexists. split; [reflexivity|]. split; [|split].
  - unfold highlight. by rewrite length_imap.
  - apply list_eq. intros k. rewrite !list_lookup_fmap, highlight_lookup.
    by destruct (ths !! k).
  - intros k th Hk. rewrite highlight_lookup in Hk.
    destruct (ths !! k) as [th0|]; cbn in Hk; [|done].
    injection Hk as <-. cbn. destruct i as [z|]; cbn; [|done].
    rewrite bool_decide_eq_true. split; [by intros ->|congruence].
Qed.

Lemma navigation_highlights_current_witness :
  render_hooks (ever_open false) ∧
  galleryThumbnails (DOM (ever_open false)) = Some ever_thumbs ∧
  ∃ ths', galleryThumbnails (DOM (exec nextImage (ever_open false)))
          = Some ths' ∧ length ths' = length ever_thumbs.
Proof.
  assert (render_hooks (ever_open false)) as Hrh.
  { repeat split; vm_compute; eauto. }
  assert (galleryThumbnails (DOM (ever_open false)) = Some ever_thumbs)
    as Hths by (vm_compute; reflexivity).
  split; [exact Hrh|]. split; [exact Hths|].
  destruct (navigation_highlights_current (ever_open false) ever_thumbs
              Hrh Hths (exec nextImage (ever_open false))
              (or_introl eq_refl)) as (ths' & H1 & H2 & _).
  exists ths'. split; [exact H1|exact H2].
Defined.

(** ** Image and counter against the two variables *)

Lemma render_immediate_synced (s : State) :
  render_hooks s → has_decode s = false →
  synced (exec updateGalleryImage s) ∧
  pending (exec updateGalleryImage s) = pending s ∧
  has_decode (exec updateGalleryImage s) = false.
Proof.
  destruct s as [g i [m t im c th bc bn bp] o l off p d].
  unfold render_hooks; cbn. intros ([img ->] & [ct ->] & [ths ->]) ->.
  js_simpl. unfold synced, shown_src, next_src, counter_text in *.
  case_bool_decide as E; cbn; [|done].
  unfold next_src in E. cbn in E. by rewrite <- E.
Qed.

Lemma settle_nothing_pending (k : nat) (r : decode_result) (s : State) :
  pending s = [] → settle k r s = (Returned tt, s).
Proof.
  intros Hp. unfold settle, mbind, Js_bind, read. cbn. by rewrite Hp.
Qed.

Lemma step_kind_immediate (s s' : State) :
  render_hooks s → step_kind s s' →
  immediate_invariant s → immediate_invariant s'.
Proof.
  intros Hrh Hk (Hd & Hp & Hs). destruct Hk as [|entry|i| |p imgs Hne|k r].
  - done.
  - done.
  - destruct (render_immediate_synced (with_index i s) Hrh Hd) as (H1 & H2 & H3).
    split; [done|]. split; [by rewrite H2|]. by right.
  - done.
  - set (s0 := open_writes p imgs s).
    destruct (render_immediate_synced s0) as (H1 & H2 & H3); [done..|].
    assert (render_hooks s0) as Hrh0 by done.
    destruct (updateGalleryImage_hooks s0 Hrh0) as (_ & _ & [ths1 Hths1]).
    set (s1 := exec updateGalleryImage s0) in *. clearbody s1.
    unfold exec. rewrite (createThumbnails_present _ ths1 Hths1).
    unfold immediate_invariant. cbn.
    split; [done|]. split; [by rewrite H2|]. by right.
  - unfold exec. by rewrite settle_nothing_pending.
Qed.

Lemma reachable_immediate (catalog : gmap string Project) (d : DOMCache)
    (s : State) :
  complete_page d → reachable catalog d false s → immediate_invariant s.
Proof.
  intros Hd Hr. induction Hr as [|s e Hr IH].
  - split; [done|]. split; [done|]. by left.
  - destruct (reachable_session_invariant catalog d false s Hd Hr)
      as [Hinv _].
    eapply step_kind_immediate; [apply Hinv|by apply step_kinds|done].
Qed.

(** X5.  In a browser whose images have no [decode], on a page with all
    gallery elements, the lightbox never shows a stale image or counter:
    whenever it is open, the main image's [src] is the image at
    [currentImageIndex], the counter reads "index+1 / length", and no
    continuation is pending. *)
Theorem immediate_render_in_sync (catalog : gmap string Project)
    (d : DOMCache) (s : State) :
  complete_page d → reachable catalog d false s → is_open s →
  ∃ (i : Z) (src : string),
    currentImageIndex s = Num i ∧ 0 ≤ i ∧
    currentGallery s !! Z.to_nat i = Some src ∧
    shown_src s = Some src ∧
    galleryCounter (DOM s)
    = Some (pretty (i + 1) +:+ " / " +:+
            pretty (Z.of_nat (length (currentGallery s)))) ∧
    pending s = [].
Proof.
  intros Hd Hr Ho.
  destruct (open_session_in_range catalog d false s Hd Hr Ho) as (i & Hi & Hb).
  destruct (reachable_immediate catalog d s Hd Hr) as (_ & Hp & [[Hg _]|Hs]).
  { rewrite Hg in Hb. cbn in Hb. lia. }
  destruct (lookup_lt_is_Some_2 (currentGallery s) (Z.to_nat i)) as [src Hsrc];
    [lia|].
  destruct Hs as [Hshown Hc]. exists i, src.
  assert (next_src s = Some src) as Hn.
  { unfold next_src, JS.get. rewrite Hi. by destruct (decide _); [|lia]. }
  rewrite Hn in Hshown. unfold counter_text in Hc. rewrite Hi in Hc.
  split; [done|]. split; [lia|]. split; [done|]. split; [done|].
  split; [exact Hc|done].
Qed.

Lemma immediate_render_in_sync_witness :
  complete_page gallery_page ∧
  reachable portfolioData gallery_page false (ever_visit false) ∧
  is_open (ever_visit false) ∧
  ∃ (i : Z) (src : string),
    currentImageIndex (ever_visit false) = Num i ∧
    shown_src (ever_visit false) = Some src ∧
    currentGallery (ever_visit false) !! Z.to_nat i = Some src.
Proof.
  assert (is_open (ever_visit false)) as Ho by (vm_compute; reflexivity).
  split; [exact gallery_page_complete|].
  split; [apply run_reachable|]. split; [exact Ho|].
  destruct (immediate_render_in_sync portfolioData gallery_page
              (ever_visit false) gallery_page_complete
              (run_reachable _ _ _ _) Ho)
    as (i & src & Hi & _ & Hsrc & Hshown & _).
  exists i, src. split; [exact Hi|]. split; [exact Hshown|exact Hsrc].
Defined.

(** X6.  In a browser with [decode], stepping forward and straight back
    leaves the wrong image on screen.  From a page in step with the
    variables and nothing pending, with a next image different from the one
    shown: after [nextImage] and [prevImage] the index is back and the
    counter never moved, but the one continuation that is pending, once it
    runs, puts the next image into the main image element - while the index
    and the counter stand at the original image. *)
Theorem next_prev_leaves_stale_image (s : State) (img : ImgEl) (c : string)
    (ths : list Thumb) (i : Z) (a b : string) :
  galleryMainImage (DOM s) = Some img →
  galleryCounter (DOM s) = Some c →
  galleryThumbnails (DOM s) = Some ths →
  has_decode s = true → pending s = [] →
  currentImageIndex s = Num i → 0 ≤ i →
  (i + 1 < Z.of_nat (length (currentGallery s))) →
  currentGallery s !! Z.to_nat i = Some a →
  currentGallery s !! Z.to_nat (i + 1) = Some b →
  default "" (img_src img) = a → a ≠ b →
  ∀ r,
    currentImageIndex (exec prevImage (exec nextImage s)) = Num i ∧
    pending (exec prevImage (exec nextImage s)) = [Some b] ∧
    result (settle 0 r) (exec prevImage (exec nextImage s)) = Returned tt ∧
    shown_src (exec (settle 0 r) (exec prevImage (exec nextImage s)))
      = Some b ∧
    next_src (exec (settle 0 r) (exec prevImage (exec nextImage s)))
      = Some a ∧
    galleryCounter (DOM (exec (settle 0 r) (exec prevImage (exec nextImage s))))
      = Some (pretty (i + 1) +:+ " / " +:+
              pretty (Z.of_nat (length (currentGallery s)))).
Proof.
  intros Him Hc Hth Hd Hp Hi Hi0 HiN Ha Hb Hshown Hab r.
  set (N := Z.of_nat (length (currentGallery s))) in *.
  (* nextImage: the index moves on and a decode is started *)
  set (s1 := with_index (JS.rem (JS.add (currentImageIndex s) (Num 1))
                                (JS.length (currentGallery s))) s).
  assert (currentImageIndex s1 = Num (i + 1)) as Hi1.
  { unfold s1. cbn. rewrite Hi. unfold JS.length, JS.add, JS.rem. fold N.
    destruct (decide (N = 0)); [lia|]. f_equal.
    rewrite Z.rem_mod_nonneg by lia. apply Z.mod_small. lia. }
  assert (next_src s1 = Some b) as Hn1.
  { unfold next_src, JS.get. rewrite Hi1. by destruct (decide _); [|lia]. }
  assert (updateGalleryImage s1
          = (Returned tt,
             with_pending (pending s1 ++ [next_src s1])
               (with_offscreen (offscreen s1 ++ [JS.dom_string (next_src s1)])
                  (rendered (set_hints img) (Some c) ths s1)))) as E1'.
  { apply updateGalleryImage_decode; try done. rewrite Hn1. congruence. }
  change (exec nextImage s) with (snd (updateGalleryImage s1)).
  rewrite E1'. cbn [snd]. clear E1'. rewrite Hn1.
  change (pending s1) with (pending s). rewrite Hp. cbn [app].
  set (s2 := with_pending _ _).
  (* prevImage: the index moves back, the source shown is the target *)
  set (s3 := with_index (JS.rem (JS.add (JS.sub (currentImageIndex s2) (Num 1))
                                        (JS.length (currentGallery s2)))
                                (JS.length (currentGallery s2))) s2).
  assert (currentImageIndex s3 = Num i) as Hi3.
  { unfold s3. cbn. rewrite Hi. unfold JS.length, JS.add, JS.sub, JS.rem.
    fold N. destruct (decide (N = 0)); [lia|]. cbn.
    destruct (decide (N = 0)); [lia|]. f_equal.
    rewrite (Z.rem_mod_nonneg (i + 1) N) by lia.
    rewrite (Z.mod_small (i + 1) N) by lia.
    rewrite Z.rem_mod_nonneg by lia.
    replace (i + 1 - 1 + N) with (i + 1 * N) by lia.
    rewrite Z_mod_plus_full. apply Z.mod_small. lia. }
  assert (next_src s3 = Some a) as Hn3.
  { unfold next_src, JS.get. rewrite Hi3. by destruct (decide _); [|lia]. }
  assert (updateGalleryImage s3
          = (Returned tt,
             rendered (set_hints (set_hints img)) (Some (counter_text s3))
                      (highlight (currentImageIndex s2) ths) s3)) as E3'.
  { apply updateGalleryImage_same with (c := c); try done.
    rewrite Hn3. cbn. by rewrite Hshown. }
  change (exec prevImage s2) with (snd (updateGalleryImage s3)).
  rewrite E3'. cbn [snd]. clear E3'.
  set (s4 := rendered _ _ _ s3).
  assert (counter_text s3 = pretty (i + 1) +:+ " / " +:+ pretty N) as Hct.
  { unfold counter_text. by rewrite Hi3. }
  (* the continuation of the first decode runs *)
  unfold exec, result.
  rewrite (settle_runs_done s4 (set_hints (set_hints img)) (counter_text s3)
             0 (Some b) r) by done.
  cbn. repeat split; try done. by rewrite <- Hct.
Qed.

Lemma next_prev_leaves_stale_image_witness :
  shown_src (exec (settle 0 Fulfilled) (ever_open true))
    = Some "Photos/EVER/1.webp" ∧
  shown_src
    (exec (settle 0 Fulfilled)
       (exec prevImage
          (exec nextImage (exec (settle 0 Fulfilled) (ever_open true)))))
    = Some "Photos/EVER/2.webp" ∧
  next_src
    (exec (settle 0 Fulfilled)
       (exec prevImage
          (exec nextImage (exec (settle 0 Fulfilled) (ever_open true)))))
    = Some "Photos/EVER/1.webp".
Proof.
  split; [vm_compute; reflexivity|].
  destruct (next_prev_leaves_stale_image
              (exec (settle 0 Fulfilled) (ever_open true))
              ever_image "1 / 3" ever_thumbs 0
              "Photos/EVER/1.webp" "Photos/EVER/2.webp"
              ltac:(vm_compute; reflexivity) ltac:(vm_compute; reflexivity)
              ltac:(vm_compute; reflexivity) ltac:(vm_compute; reflexivity)
              ltac:(vm_compute; reflexivity) ltac:(vm_compute; reflexivity)
              ltac:(discriminate) ltac:(vm_compute; reflexivity)
              ltac:(vm_compute; reflexivity) ltac:(vm_compute; reflexivity)
              ltac:(vm_compute; reflexivity) ltac:(discriminate) Fulfilled)
    as (_ & _ & _ & Hshown & Hnext & _).
  split; [exact Hshown|exact Hnext].
Defined.

(** X7.  With two decodes pending, the continuation that runs last decides
    the image, whatever was requested last: for continuations at queue
    positions [j < k] that captured [a] and [b], settling [k] and then [j]
    leaves the source [a] on screen, settling [j] and then [k] leaves [b];
    in both orders both are gone from the queue and the counter shows the
    current index. *)
Theorem last_settled_decides_image (s : State) (img : ImgEl) (c : string)
    (j k : nat) (a b : option string) (r1 r2 : decode_result) :
  galleryMainImage (DOM s) = Some img →
  galleryCounter (DOM s) = Some c →
  (j < k)%nat → pending s !! j = Some a → pending s !! k = Some b →
  shown_src (exec (settle j r2) (exec (settle k r1) s))
    = Some (JS.dom_string a) ∧
  shown_src (exec (settle (k - 1) r2) (exec (settle j r1) s))
    = Some (JS.dom_string b) ∧
  pending (exec (settle j r2) (exec (settle k r1) s))
    = delete j (delete k (pending s)) ∧
  pending (exec (settle (k - 1) r2) (exec (settle j r1) s))
    = delete j (delete k (pending s)) ∧
  galleryCounter (DOM (exec (settle j r2) (exec (settle k r1) s)))
    = Some (counter_text s) ∧
  galleryCounter (DOM (exec (settle (k - 1) r2) (exec (settle j r1) s)))
    = Some (counter_text s).
Proof.
  intros Hi Hc Hjk Hj Hk. unfold exec.
  rewrite (settle_runs_done s img c k b r1 Hi Hc Hk).
  rewrite (settle_runs_done s img c j a r1 Hi Hc Hj). cbn [snd].
  erewrite (settle_runs_done _ _ _ j a r2); [|reflexivity|reflexivity|].
  2:{ cbn. by rewrite list_lookup_delete_lt. }
  erewrite (settle_runs_done _ _ _ (k - 1) b r2); [|reflexivity|reflexivity|].
  2:{ cbn. rewrite list_lookup_delete_ge by lia.
      by replace (S (k - 1)) with k by lia. }
  cbn. repeat split.
  apply list_eq. intros n. clear -Hjk.
  destruct (decide (n < j)%nat); [|destruct (decide (n < k - 1)%nat)].
  - by rewrite !list_lookup_delete_lt by lia.
  - rewrite (list_lookup_delete_lt _ (k - 1) n) by lia.
    rewrite !(list_lookup_delete_ge _ j n) by lia.
    by rewrite list_lookup_delete_lt by lia.
  - rewrite (list_lookup_delete_ge _ (k - 1) n) by lia.
    rewrite (list_lookup_delete_ge _ j (S n)) by lia.
    rewrite (list_lookup_delete_ge _ j n) by lia.
    by rewrite list_lookup_delete_ge by lia.
Qed.

Lemma last_settled_decides_image_witness :
  pending (exec nextImage (ever_open true))
    = [Some "Photos/EVER/1.webp"; Some "Photos/EVER/2.webp"] ∧
  currentImageIndex (exec nextImage (ever_open true)) = Num 1 ∧
  shown_src (exec (settle 0 Fulfilled)
               (exec (settle 1 Fulfilled) (exec nextImage (ever_open true))))
    = Some "Photos/EVER/1.webp" ∧
  shown_src (exec (settle 0 Fulfilled)
               (exec (settle 0 Fulfilled) (exec nextImage (ever_open true))))
    = Some "Photos/EVER/2.webp".
Proof.
  split; [vm_compute; reflexivity|]. split; [vm_compute; reflexivity|].
  destruct (last_settled_decides_image (exec nextImage (ever_open true))
              (set_hints (mkImgEl None None None)) "" 0 1
              (Some "Photos/EVER/1.webp") (Some "Photos/EVER/2.webp")
              Fulfilled Fulfilled
              ltac:(vm_compute; reflexivity) ltac:(vm_compute; reflexivity)
              ltac:(lia) ltac:(vm_compute; reflexivity)
              ltac:(vm_compute; reflexivity)) as (H1 & H2 & _).
  split; [exact H1|exact H2].
Defined.

(** ** The page as a whole *)

(** X8.  From a page loaded with the modal hidden, the page scroll is
    locked exactly while the lightbox is shown: in every state the
    listeners can reach, [document.body.style.overflow] is "hidden" if the
    modal carries [active] and the empty string if not. *)
Theorem scroll_locked_iff_shown (catalog : gmap string Project)
    (d : DOMCache) (decode : bool) (s : State) :
  galleryModal d ≠ Some true → reachable catalog d decode s →
  (is_open s → body_overflow s = "hidden") ∧
  (¬ is_open s → body_overflow s = "").
Proof.
  intros Hd Hr.
  pose proof (reachable_lock_invariant catalog d decode s Hd Hr) as Hl.
  unfold lock_invariant, is_open in *.
  destruct (galleryModal (DOM s)) as [[]|]; split; intros H; try done;
    by destruct H.
Qed.

Lemma scroll_locked_iff_shown_witness :
  galleryModal gallery_page ≠ Some true ∧
  reachable portfolioData gallery_page true (ever_visit true) ∧
  is_open (ever_visit true) ∧
  body_overflow (ever_visit true) = "hidden" ∧
  ¬ is_open (step portfolioData PageHide (ever_visit true)) ∧
  body_overflow (step portfolioData PageHide (ever_visit true)) = "".
Proof.
  assert (galleryModal gallery_page ≠ Some true) as Hd by discriminate.
  assert (is_open (ever_visit true)) as Ho by (vm_compute; reflexivity).
  assert (¬ is_open (step portfolioData PageHide (ever_visit true))) as Hc
    by (vm_compute; discriminate).
  split; [exact Hd|]. split; [apply run_reachable|]. split; [exact Ho|].
  split.
  - exact (proj1 (scroll_locked_iff_shown portfolioData gallery_page true
                    (ever_visit true) Hd (run_reachable _ _ _ _)) Ho).
  - split; [exact Hc|].
    exact (proj2 (scroll_locked_iff_shown portfolioData gallery_page true
                    _ Hd (reachable_step _ _ _ _ PageHide
                            (run_reachable _ _ _ _))) Hc).
Defined.

(** X9.  On a page with all gallery elements no listener and no decode
    continuation ever throws: after any sequence of clicks, key presses,
    [pagehide] and settled decodes, every further event is handled to a
    normal return. *)
Theorem complete_page_never_throws (catalog : gmap string Project)
    (d : DOMCache) (decode : bool) (es : list event) (e : event) :
  complete_page d →
  result (handler catalog e) (run catalog es (initial_state d decode))
  = Returned tt.
Proof.
  intros Hd.
  by destruct (reachable_session_invariant catalog d decode _ Hd
                 (run_reachable catalog d decode es)) as [_ H].
Qed.

Lemma complete_page_never_throws_witness :
  complete_page gallery_page ∧
  result (handler portfolioData (DecodeSettled 1 Rejected))
         (run portfolioData [ProjectClick (Some "ever"); NextClick; PrevClick]
              (initial_state gallery_page true))
  = Returned tt.
Proof.
  split; [exact gallery_page_complete|].
  exact (complete_page_never_throws portfolioData gallery_page true
           [ProjectClick (Some "ever"); NextClick; PrevClick]
           (DecodeSettled 1 Rejected) gallery_page_complete).
Defined.

(** X10.  On a page with all gallery elements an open lightbox always has
    an image to show: whatever the listeners have done, while the modal is
    shown [currentGallery[currentImageIndex]] is an image of the gallery,
    never [undefined], and the index is a whole number, never [NaN]. *)
Theorem open_session_has_image (catalog : gmap string Project)
    (d : DOMCache) (decode : bool) (s : State) :
  complete_page d → reachable catalog d decode s → is_open s →
  ∃ (i : nat) (src : string),
    currentImageIndex s = Num (Z.of_nat i) ∧
    currentGallery s !! i = Some src ∧ next_src s = Some src.
Proof.
  intros Hd Hr Ho.
  destruct (open_session_in_range catalog d decode s Hd Hr Ho)
    as (i & Hi & Hb).
  destruct (lookup_lt_is_Some_2 (currentGallery s) (Z.to_nat i)) as [src Hsrc];
    [lia|].
  exists (Z.to_nat i), src. rewrite Z2Nat.id by lia.
  split; [done|]. split; [done|].
  unfold next_src, JS.get. rewrite Hi. by destruct (decide _); [|lia].
Qed.

Lemma open_session_has_image_witness :
  complete_page gallery_page ∧
  reachable portfolioData gallery_page true (ever_visit true) ∧
  is_open (ever_visit true) ∧
  ∃ (i : nat) (src : string),
    currentImageIndex (ever_visit true) = Num (Z.of_nat i) ∧
    currentGallery (ever_visit true) !! i = Some src.
Proof.
  assert (is_open (ever_visit true)) as Ho by (vm_compute; reflexivity).
  split; [exact gallery_page_complete|].
  split; [apply run_reachable|]. split; [exact Ho|].
  destruct (open_session_has_image portfolioData gallery_page true
              (ever_visit true) gallery_page_complete
              (run_reachable _ _ _ _) Ho) as (i & src & Hi & Hsrc & _).
  exists i, src. split; [exact Hi|exact Hsrc].
Defined.

(** ** [throttle] *)

Lemma throttle_run_snoc {A} (limit : Z) (es : list (throttle_event A))
    (e : throttle_event A) (st : Throttle A) :
  throttle_run limit (es ++ [e]) st
  = throttle_run limit es st ≫= λ st', throttle_step limit st' e.
Proof. unfold throttle_run. by rewrite foldl_app. Qed.

Lemma throttle_run_cons {A} (limit : Z) (e : throttle_event A)
    (es : list (throttle_event A)) (st : Throttle A) :
  throttle_run limit (e :: es) st
  = throttle_step limit st e ≫= throttle_run limit es.
Proof.
  unfold throttle_run. cbn.
  destruct (throttle_step limit st e) as [st'|]; cbn; [done|].
  induction es as [|e' es IH]; [done|]. exact IH.
Qed.

Lemma spaced_snoc {A} (gap : Z) (log : list (Z * A)) (t : Z) (a : A) :
  spaced gap log →
  (∀ t0 a0, last log = Some (t0, a0) → t0 + gap ≤ t) →
  spaced gap (log ++ [(t, a)]).
Proof.
  intros Hs Hl i t1 a1 t2 a2 H1 H2.
  destruct (decide (S i < length log)%nat) as [Hlt|Hge].
  - rewrite lookup_app_l in H1, H2 by lia. eauto.
  - assert (S i = length log) as Hi.
    { apply lookup_lt_Some in H2. rewrite length_app in H2. cbn in H2. lia. }
    rewrite lookup_app_l in H1 by lia.
    rewrite lookup_app_r, Hi, Nat.sub_diag in H2 by lia.
    injection H2 as <- <-. apply (Hl t1 a1).
    rewrite last_lookup. by replace (pred (length log)) with i by lia.
Qed.

Lemma throttle_init_invariant {A} (limit t0 : Z) :
  throttle_invariant limit (throttle_init (A := A) t0).
Proof.
  split; [|split]; cbn; [| |done].
  - by intros i t1 a1 t2 a2 H.
  - intros t a H. by apply elem_of_nil in H.
Qed.

Lemma throttle_step_invariant {A} (limit : Z) (st st' : Throttle A)
    (e : throttle_event A) :
  throttle_invariant limit st → func_behaves st e →
  throttle_step limit st e = Some st' →
  throttle_invariant limit st'.
Proof.
  intros (Hs & Hc & Hf) Hb Hstep.
  destruct e as [t args|t|t|t]; cbn in Hstep, Hb.
  - destruct (decide _) as [Ht|]; [|done]. rewrite Hb in Hf. revert Hf Hstep.
    destruct (inThrottle st) eqn:Hin; intros Hf Hstep;
      injection Hstep as <-; unfold throttle_invariant; cbn; rewrite ?Hb.
    + split; [done|]. split; [|done].
      intros t0 a0 H0. specialize (Hc t0 a0 H0). lia.
    + destruct Hf as [Htim Hdue]. split; [|split].
      * apply spaced_snoc; [done|]. intros t0 a0 H0.
        specialize (Hdue t0 a0 H0). unfold due_time in Hdue. lia.
      * intros t0 a0 [H0|H0]%elem_of_app.
        -- specialize (Hc t0 a0 H0). lia.
        -- apply list_elem_of_singleton in H0. injection H0 as -> ->. lia.
      * rewrite last_snoc. eauto.
  - destruct (throttle_running st) as [|running]; [done|].
    destruct (decide _) as [Ht|]; [|done]. injection Hstep as <-.
    destruct Hf as (-> & Hin & Htim & [[t0 a0] Hlast]).
    unfold throttle_invariant; cbn. split; [done|]. split.
    + intros t1 a1 H1. specialize (Hc t1 a1 H1). lia.
    + exists t0, a0, (due_time t limit). rewrite Htim. split; [done|].
      split; [done|].
      assert ((t0, a0) ∈ throttle_invoked st) as Hel.
      { rewrite last_lookup in Hlast. by eapply list_elem_of_lookup_2. }
      specialize (Hc t0 a0 Hel). unfold due_time. lia.
  - done.
  - destruct (throttle_running st) as [|running] eqn:Hrun; [|done].
    destruct (throttle_timers st) as [|due rest] eqn:Htim; [done|].
    destruct (decide _) as [[Ht Hd]|]; [|done]. injection Hstep as <-.
    unfold throttle_invariant; cbn. split; [done|]. split.
    + intros t0 a0 H0. specialize (Hc t0 a0 H0). lia.
    + destruct (inThrottle st).
      * destruct Hf as (t0 & a0 & due0 & Hlast & Hone & Hdue).
        injection Hone as -> ->. split; [done|].
        intros t1 a1 H1. rewrite Hlast in H1. injection H1 as <- <-. lia.
      * by destruct Hf.
Qed.

Lemma throttle_run_invariant {A} (limit : Z) (es : list (throttle_event A))
    (st0 st : Throttle A) :
  throttle_invariant limit st0 → func_well_behaved limit es st0 →
  throttle_run limit es st0 = Some st →
  throttle_invariant limit st.
Proof.
  revert st0. induction es as [|e es IH]; intros st0 Hinv Hwb Hrun.
  - by injection Hrun as <-.
  - rewrite throttle_run_cons in Hrun. destruct Hwb as [Hb Hwb].
    destruct (throttle_step limit st0 e) as [st1|] eqn:Hstep; [|done].
    cbn in Hrun. eapply IH; [|done|done].
    by eapply throttle_step_invariant.
Qed.

(** X11.  As long as [func] returns normally and does not call the
    throttled function itself, a throttled function runs [func] at most
    once per [limit] milliseconds: over any such sequence of calls, returns
    and timer turns, two consecutive invocations of [func] are at least
    [max(0, limit)] apart. *)
Theorem throttle_spacing {A} (limit t0 : Z) (es : list (throttle_event A))
    (st : Throttle A) (i : nat) (t1 t2 : Z) (a1 a2 : A) :
  func_well_behaved limit es (throttle_init t0) →
  throttle_run limit es (throttle_init t0) = Some st →
  throttle_invoked st !! i = Some (t1, a1) →
  throttle_invoked st !! S i = Some (t2, a2) →
  t1 + Z.max 0 limit ≤ t2.
Proof.
  intros Hwb Hrun H1 H2.
  destruct (throttle_run_invariant limit es (throttle_init t0) st
              (throttle_init_invariant limit t0) Hwb Hrun) as (Hs & _).
  by apply (Hs i t1 a1 t2 a2).
Qed.

Lemma throttle_spacing_witness :
  func_well_behaved 100
    [ThrottleCall 0 "a"; ThrottleFuncReturns 2; ThrottleCall 40 "b";
     ThrottleTimeout 103; ThrottleCall 120 "c"; ThrottleFuncReturns 121]
    (throttle_init 0) ∧
  throttle_run 100
    [ThrottleCall 0 "a"; ThrottleFuncReturns 2; ThrottleCall 40 "b";
     ThrottleTimeout 103; ThrottleCall 120 "c"; ThrottleFuncReturns 121]
    (throttle_init 0)
  = Some (mkThrottle true [221] 0 [(0, "a"); (120, "c")] 121) ∧
  0 + Z.max 0 100 ≤ 120.
Proof.
  assert (func_well_behaved 100
            [ThrottleCall 0 "a"; ThrottleFuncReturns 2; ThrottleCall 40 "b";
             ThrottleTimeout 103; ThrottleCall 120 "c";
             ThrottleFuncReturns 121]
            (throttle_init 0)) as Hwb
    by (vm_compute; repeat split).
  assert (throttle_run 100
            [ThrottleCall 0 "a"; ThrottleFuncReturns 2; ThrottleCall 40 "b";
             ThrottleTimeout 103; ThrottleCall 120 "c";
             ThrottleFuncReturns 121]
            (throttle_init 0)
          = Some (mkThrottle true [221] 0 [(0, "a"); (120, "c")] 121)) as Hrun
    by (vm_compute; reflexivity).
  split; [exact Hwb|]. split; [exact Hrun|].
  exact (throttle_spacing 100 0 _ _ 0%nat 0 120 "a" "c" Hwb Hrun
                          eq_refl eq_refl).
Defined.

Lemma throttle_step_calls {A} (limit : Z) (st st' : Throttle A)
    (e : throttle_event A) (calls : list (Z * A)) :
  throttle_step limit st e = Some st' →
  sublist (throttle_invoked st) calls →
  sublist (throttle_invoked st') (calls ++ throttle_calls [e]).
Proof.
  intros Hstep Hsub. destruct e as [t args|t|t|t]; cbn in *.
  - destruct (decide _); [|done].
    destruct (inThrottle st); injection Hstep as <-; cbn.
    + by apply sublist_inserts_r.
    + by apply sublist_app.
  - destruct (throttle_running st); [done|].
    destruct (decide _); [|done]. injection Hstep as <-. cbn.
    by rewrite app_nil_r.
  - destruct (throttle_running st); [done|].
    destruct (decide _); [|done]. injection Hstep as <-. cbn.
    by rewrite app_nil_r.
  - destruct (throttle_running st); [|done].
    destruct (throttle_timers st); [done|].
    destruct (decide _); [|done]. injection Hstep as <-. cbn.
    by rewrite app_nil_r.
Qed.

(** Before the first call nothing can happen to the closure, and the
    first call runs [func]. *)
Lemma throttle_first_call {A} (limit t0 : Z) (es : list (throttle_event A))
    (st : Throttle A) :
  throttle_run limit es (throttle_init t0) = Some st →
  (throttle_calls es = [] ∧ throttle_invoked st = [] ∧
   inThrottle st = false ∧ throttle_running st = 0%nat ∧
   throttle_timers st = []) ∨
  (∃ c, head (throttle_calls es) = Some c ∧
        head (throttle_invoked st) = Some c).
Proof.
  revert st. induction es as [|e es IH] using rev_ind; intros st Hrun.
  - injection Hrun as <-. by left.
  - rewrite throttle_run_snoc in Hrun.
    destruct (throttle_run limit es (throttle_init t0)) as [st0|] eqn:Hrun0;
      [|done].
    cbn in Hrun.
    unfold throttle_calls. rewrite omap_app. fold (throttle_calls es).
    assert (∀ (l : list (Z * A)) c x, head l = Some c → head (l ++ x) = Some c)
      as Hgrow by (intros [|y l] c x; [done|by cbn]).
    destruct (IH st0 eq_refl) as [(Hc & Hi & Hin & Hr & Htim)|(c & Hc & Hi)];
      destruct e as [t args|t|t|t]; cbn in Hrun |- *.
    + destruct (decide _); [|done]. rewrite Hin in Hrun.
      injection Hrun as <-. cbn. rewrite Hc, Hi. right. by exists (t, args).
    + by rewrite Hr in Hrun.
    + by rewrite Hr in Hrun.
    + by rewrite Hr, Htim in Hrun.
    + destruct (decide _); [|done].
      destruct (inThrottle st0); injection Hrun as <-; cbn; right; exists c;
        eauto.
    + destruct (throttle_running st0); [done|].
      destruct (decide _); [|done]. injection Hrun as <-. cbn.
      rewrite app_nil_r. right. by exists c.
    + destruct (throttle_running st0); [done|].
      destruct (decide _); [|done]. injection Hrun as <-. cbn.
      rewrite app_nil_r. right. by exists c.
    + destruct (throttle_running st0); [|done].
      destruct (throttle_timers st0); [done|].
      destruct (decide _); [|done]. injection Hrun as <-. cbn.
      rewrite app_nil_r. right. by exists c.
Qed.

(** X12.  [throttle] has a leading edge and no trailing one.  [func] is
    only ever run from inside a call, at that call's time and with that
    call's arguments, so the invocations are a selection of the calls in
    their order and a call that was dropped is never made up for; and the
    very first call is always let through.  This holds however [func]
    behaves. *)
Theorem throttle_leading_edge_only {A} (limit t0 : Z)
    (es : list (throttle_event A)) (st : Throttle A) :
  throttle_run limit es (throttle_init t0) = Some st →
  sublist (throttle_invoked st) (throttle_calls es) ∧
  head (throttle_invoked st) = head (throttle_calls es).
Proof.
  intros Hrun. split.
  - revert st Hrun. induction es as [|e es IH] using rev_ind; intros st Hrun.
    + by injection Hrun as <-.
    + rewrite throttle_run_snoc in Hrun.
      destruct (throttle_run limit es (throttle_init t0)) as [st0|]; [|done].
      cbn in Hrun. unfold throttle_calls. rewrite omap_app.
      fold (throttle_calls es). fold (throttle_calls [e]).
      eapply throttle_step_calls; eauto.
  - destruct (throttle_first_call limit t0 es st Hrun)
      as [(-> & -> & _)|(c & -> & ->)]; done.
Qed.

Lemma throttle_leading_edge_only_witness :
  throttle_run 100
    [ThrottleCall 0 "a"; ThrottleFuncReturns 0; ThrottleCall 40 "b";
     ThrottleTimeout 103]
    (throttle_init 0)
  = Some (mkThrottle false [] 0 [(0, "a")] 103) ∧
  sublist [(0, "a")] [(0, "a"); (40, "b")].
Proof.
  assert (throttle_run 100
            [ThrottleCall 0 "a"; ThrottleFuncReturns 0; ThrottleCall 40 "b";
             ThrottleTimeout 103]
            (throttle_init 0)
          = Some (mkThrottle false [] 0 [(0, "a")] 103)) as Hrun
    by (vm_compute; reflexivity).
  split; [exact Hrun|].
  exact (proj1 (throttle_leading_edge_only 100 0 _ _ Hrun)).
Defined.

(** X24.  [throttle] arms itself only once [func] has returned.  From a
    state in which nothing is throttled and [func] is not running: a call
    whose [func] throws sets neither the flag nor a timer, so that the next
    call runs [func] again however soon it comes; and a call that [func]
    makes to the throttled function while it runs is let through as
    well. *)
Theorem throttle_unarmed_until_return {A} (limit : Z) (st : Throttle A)
    (t tx t' : Z) (a b : A) :
  inThrottle st = false → throttle_running st = 0%nat →
  throttle_clock st ≤ t → t ≤ tx → tx ≤ t' →
  throttle_run limit
    [ThrottleCall t a; ThrottleFuncThrows tx; ThrottleCall t' b] st
  = Some (mkThrottle false (throttle_timers st) 1
                     (throttle_invoked st ++ [(t, a); (t', b)]) t') ∧
  throttle_run limit [ThrottleCall t a; ThrottleCall tx b] st
  = Some (mkThrottle false (throttle_timers st) 2
                     (throttle_invoked st ++ [(t, a); (tx, b)]) tx).
Proof.
  intros Hin Hr H0 H1 H2. unfold throttle_run. cbn. rewrite Hin, Hr.
  destruct (decide (throttle_clock st ≤ t)); [|lia]. cbn.
  destruct (decide (t ≤ tx)); [|lia]. cbn.
  destruct (decide (tx ≤ t')); [|lia]. cbn.
  by rewrite <- !app_assoc.
Qed.

Lemma throttle_unarmed_until_return_witness :
  throttle_run 100
    [ThrottleCall 0 "a"; ThrottleFuncThrows 1; ThrottleCall 2 "b"]
    (throttle_init 0)
  = Some (mkThrottle false [] 1 [(0, "a"); (2, "b")] 2) ∧
  throttle_run 100 [ThrottleCall 0 "a"; ThrottleCall 1 "b"] (throttle_init 0)
  = Some (mkThrottle false [] 2 [(0, "a"); (1, "b")] 1).
Proof.
  exact (throttle_unarmed_until_return 100 (throttle_init 0) 0 1 2 "a" "b"
           eq_refl eq_refl ltac:(cbn; lia) ltac:(lia) ltac:(lia)).
Defined.

(** ** [debounce] *)

Lemma debounce_run_snoc {A} (wait : Z) (es : list (debounce_event A))
    (e : debounce_event A) (st : Debounce A) :
  debounce_run wait (es ++ [e]) st
  = debounce_run wait es st ≫= λ st', debounce_step wait st' e.
Proof. unfold debounce_run. by rewrite foldl_app. Qed.

Lemma debounce_calls_snoc {A} (es : list (debounce_event A))
    (e : debounce_event A) :
  debounce_calls (es ++ [e])
  = debounce_calls es ++
    match e with
    | DebounceCall t args => [(t, args)]
    | DebounceTimeout _ _ => []
    end.
Proof. unfold debounce_calls. rewrite omap_app. by destruct e. Qed.

Lemma debounce_step_invariant {A} (wait : Z) (es : list (debounce_event A))
    (e : debounce_event A) (st st' : Debounce A) :
  debounce_invariant wait es st → debounce_step wait st e = Some st' →
  debounce_invariant wait (es ++ [e]) st'.
Proof.
  intros Hinv Hstep. unfold debounce_invariant.
  rewrite debounce_calls_snoc.
  destruct e as [t args|handle t]; cbn in Hstep.
  - destruct (decide _); [|done]. injection Hstep as <-. cbn. right.
    exists (S (debounce_handles st)), t, args, (debounce_calls es).
    split; [done|].
    destruct Hinv as [[Ht Hs]|(h & t0 & a0 & before & Hto & Ht & Hc & Hs)].
    + rewrite Ht. split; [|done].
      assert (clearTimeout (timeout st) (∅ : gmap nat (Z * A)) = ∅) as ->
        by (destruct (timeout st); [apply delete_empty|done]).
      apply insert_empty.
    + rewrite Hto, Ht. cbn. rewrite delete_singleton_eq, insert_empty.
      split; [done|]. split; [done|].
      rewrite Hc, fmap_app. by apply sublist_inserts_r.
  - destruct (debounce_timers st !! handle) as [[due args]|] eqn:Hl; [|done].
    destruct (decide _); [|done]. injection Hstep as <-. cbn. left.
    destruct Hinv as [[Ht Hs]|(h & t0 & a0 & before & Hto & Ht & Hc & Hs)].
    + by rewrite Ht in Hl.
    + rewrite Ht in Hl. apply lookup_singleton_Some in Hl as [<- Heq].
      injection Heq as <- <-. rewrite Hto, Ht. cbn.
      rewrite delete_singleton_eq, delete_empty. split; [done|].
      rewrite app_nil_r, Hc, !fmap_app. cbn. by apply sublist_app.
Qed.

Lemma debounce_run_invariant {A} (wait t0 : Z) (es : list (debounce_event A))
    (st : Debounce A) :
  debounce_run wait es (debounce_init t0) = Some st →
  debounce_invariant wait es st.
Proof.
  revert st. induction es as [|e es IH] using rev_ind; intros st Hrun.
  - injection Hrun as <-. by left.
  - rewrite debounce_run_snoc in Hrun.
    destruct (debounce_run wait es (debounce_init t0)) as [st0|]; [|done].
    cbn in Hrun. eapply debounce_step_invariant; eauto.
Qed.

(** X13.  A debounced function runs [func] only after [wait] milliseconds
    of quiet, with the arguments of the latest call: whenever one of its
    timers runs, that timer belongs to the most recent call, at least
    [max(0, wait)] has passed since that call, [func] is invoked exactly
    once with that call's arguments, and no timer is left pending. *)
Theorem debounce_fires_latest {A} (wait t0 : Z)
    (es : list (debounce_event A)) (st st' : Debounce A) (h : nat) (t : Z) :
  debounce_run wait es (debounce_init t0) = Some st →
  debounce_step wait st (DebounceTimeout h t) = Some st' →
  ∃ tc args before,
    debounce_calls es = before ++ [(tc, args)] ∧
    tc + Z.max 0 wait ≤ t ∧
    debounce_invoked st' = debounce_invoked st ++ [(t, args)] ∧
    debounce_timers st' = ∅.
Proof.
  intros Hrun Hstep.
  pose proof (debounce_run_invariant wait t0 es st Hrun) as Hinv.
  cbn in Hstep.
  destruct (debounce_timers st !! h) as [[due args]|] eqn:Hl; [|done].
  destruct (decide _) as [[Hc Hd]|]; [|done]. injection Hstep as <-. cbn.
  destruct Hinv as [[Ht Hs]|(h0 & tc & a0 & before & Hto & Ht & Hcalls & Hs)].
  - by rewrite Ht in Hl.
  - rewrite Ht in Hl. apply lookup_singleton_Some in Hl as [<- Heq].
    injection Heq as <- <-. exists tc, a0, before.
    split; [done|]. split; [exact Hd|]. split; [done|].
    rewrite Hto, Ht. cbn. by rewrite delete_singleton_eq, delete_empty.
Qed.

Lemma debounce_fires_latest_witness :
  debounce_run 250 [DebounceCall 0 "a"; DebounceCall 100 "b"]
               (debounce_init 0)
  = Some (mkDebounce (Some 2%nat) {[ 2%nat := (350, "b") ]} 2 [] 100) ∧
  debounce_step 250
    (mkDebounce (Some 2%nat) {[ 2%nat := (350, "b") ]} 2 [] 100)
    (DebounceTimeout 2 351)
  = Some (mkDebounce (Some 2%nat) ∅ 2 [(351, "b")] 351) ∧
  ∃ tc args before,
    debounce_calls [DebounceCall 0 "a"; DebounceCall 100 "b"]
    = before ++ [(tc, args)] ∧ tc + Z.max 0 250 ≤ 351.
Proof.
  assert (debounce_run 250 [DebounceCall 0 "a"; DebounceCall 100 "b"]
                       (debounce_init 0)
          = Some (mkDebounce (Some 2%nat) {[ 2%nat := (350, "b") ]} 2 [] 100))
    as Hrun by (vm_compute; reflexivity).
  assert (debounce_step 250
            (mkDebounce (Some 2%nat) {[ 2%nat := (350, "b") ]} 2 [] 100)
            (DebounceTimeout 2 351)
          = Some (mkDebounce (Some 2%nat) ∅ 2 [(351, "b")] 351)) as Hstep
    by (vm_compute; reflexivity).
  split; [exact Hrun|]. split; [exact Hstep|].
  destruct (debounce_fires_latest 250 0 _ _ _ 2%nat 351 Hrun Hstep)
    as (tc & args & before & H1 & H2 & _).
  exists tc, args, before. split; [exact H1|exact H2].
Defined.

(** X14.  [debounce] keeps at most one timer pending, and never runs
    [func] on arguments it was not given, out of order, or twice for one
    call: the arguments of the invocations are a selection, in order, of
    the arguments of the calls. *)
Theorem debounce_single_timer {A} (wait t0 : Z)
    (es : list (debounce_event A)) (st : Debounce A) :
  debounce_run wait es (debounce_init t0) = Some st →
  (size (debounce_timers st) ≤ 1)%nat ∧
  sublist (debounce_invoked st).*2 (debounce_calls es).*2.
Proof.
  intros Hrun.
  destruct (debounce_run_invariant wait t0 es st Hrun)
    as [[Ht Hs]|(h & tc & a0 & before & Hto & Ht & Hc & Hs)].
  - rewrite Ht, map_size_empty. split; [lia|done].
  - rewrite Ht, map_size_singleton, Hc, fmap_app.
    split; [lia|]. by apply sublist_inserts_r.
Qed.

Lemma debounce_single_timer_witness :
  debounce_run 250
    [DebounceCall 0 "a"; DebounceCall 100 "b"; DebounceTimeout 2 351;
     DebounceCall 400 "c"]
    (debounce_init 0)
  = Some (mkDebounce (Some 3%nat) {[ 3%nat := (650, "c") ]} 3
                     [(351, "b")] 400) ∧
  sublist ["b"] ["a"; "b"; "c"].
Proof.
  assert (debounce_run 250
            [DebounceCall 0 "a"; DebounceCall 100 "b"; DebounceTimeout 2 351;
             DebounceCall 400 "c"]
            (debounce_init 0)
          = Some (mkDebounce (Some 3%nat) {[ 3%nat := (650, "c") ]} 3
                             [(351, "b")] 400)) as Hrun
    by (vm_compute; reflexivity).
  split; [exact Hrun|].
  exact (proj2 (debounce_single_timer 250 0 _ _ Hrun)).
Defined.

(** ** [scheduleRAF] *)

Lemma scheduleRAF_fold (more : list raf_callback) (st : RafState) :
  rafCallbacks (foldl (λ st c, scheduleRAF c st) st more)
    = rafCallbacks st ++ more ∧
  raf_log (foldl (λ st c, scheduleRAF c st) st more) = raf_log st ∧
  (rafId st ≠ None ∨ more ≠ [] →
   rafId (foldl (λ st c, scheduleRAF c st) st more) ≠ None) ∧
  (more = [] → rafId (foldl (λ st c, scheduleRAF c st) st more) = rafId st).
Proof.
  revert st. induction more as [|c more IH]; intros st; cbn.
  - rewrite app_nil_r. repeat split; try done. by intros [?|?].
  - destruct (IH (scheduleRAF c st)) as (H1 & H2 & H3 & _).
    rewrite H1, H2. unfold scheduleRAF at 1 2. cbn.
    destruct (rafId st) eqn:E; cbn; rewrite <- app_assoc; repeat split;
      try done; intros _; apply H3; left; unfold scheduleRAF; cbn;
      by rewrite E.
Qed.

Lemma raf_call_spec (st : RafState) (cb : raf_callback) :
  rafCallbacks (raf_call st cb) = rafCallbacks st ++ raf_reentrant cb ∧
  raf_log (raf_call st cb) = raf_log st ++ [raf_callback_id cb] ∧
  ((rafId st = None ↔ rafCallbacks st = []) →
   (rafId (raf_call st cb) = None ↔ rafCallbacks (raf_call st cb) = [])).
Proof.
  unfold raf_call.
  destruct (scheduleRAF_fold (raf_reentrant cb)
              (mkRaf (rafId st) (rafCallbacks st) (raf_handles st)
                     (raf_log st ++ [raf_callback_id cb])))
    as (E1 & E2 & E3 & E4).
  cbn in E1, E2, E3, E4. rewrite E1, E2.
  split; [done|]. split; [done|]. intros Hst.
  destruct (raf_reentrant cb) as [|c more].
  - rewrite app_nil_r. by rewrite E4.
  - split.
    + intros Hn. exfalso. revert Hn. apply E3. by right.
    + intros Hq. by destruct (rafCallbacks st).
Qed.

Lemma raf_call_fold (cbs : list raf_callback) (st : RafState) :
  rafCallbacks (foldl raf_call st cbs)
    = rafCallbacks st ++ (cbs ≫= raf_reentrant) ∧
  raf_log (foldl raf_call st cbs) = raf_log st ++ (raf_callback_id <$> cbs) ∧
  ((rafId st = None ↔ rafCallbacks st = []) →
   (rafId (foldl raf_call st cbs) = None ↔
    rafCallbacks (foldl raf_call st cbs) = [])).
Proof.
  revert st. induction cbs as [|cb cbs IH]; intros st; cbn.
  - by rewrite !app_nil_r.
  - destruct (IH (raf_call st cb)) as (H1 & H2 & H3).
    destruct (raf_call_spec st cb) as (E1 & E2 & E3).
    split; [by rewrite H1, E1, <- app_assoc|].
    split; [by rewrite H2, E2, <- app_assoc|].
    intros Hst. by apply H3, E3.
Qed.

(** X15.  [scheduleRAF] never strands a callback: after any sequence of
    [scheduleRAF] calls and frames, with callbacks that may themselves call
    [scheduleRAF], a frame is requested exactly when callbacks are
    waiting. *)
Theorem raf_frame_requested_iff_waiting (es : list raf_event) :
  rafId (foldl raf_step raf_init es) = None ↔
  rafCallbacks (foldl raf_step raf_init es) = [].
Proof.
  induction es as [|e es IH] using rev_ind; [done|].
  rewrite foldl_app. cbn. set (st := foldl raf_step raf_init es) in *.
  destruct e as [cb|]; cbn.
  - unfold scheduleRAF. cbn. destruct (rafId st); cbn; split; try done;
      by destruct (rafCallbacks st).
  - unfold raf_frame. destruct (rafId st) eqn:E; [|by rewrite E].
    by apply raf_call_fold.
Qed.



(** ** [scheduleRead], [scheduleWrite] and their frame *)

Lemma layout_body_fold (body : list (bool * layout_job)) (st : LayoutState) :
  scheduled st = true →
  foldl (λ st (a : bool * layout_job),
           if a.1 then scheduleWrite a.2 st else scheduleRead a.2 st) st body
  = mkLayout
      (readQueue st ++
       (body ≫= λ a : bool * layout_job,
                  if bool_decide (a.1 = false) then [a.2] else []))
      (writeQueue st ++
       (body ≫= λ a : bool * layout_job,
                  if bool_decide (a.1 = true) then [a.2] else []))
      true (layout_frames st) (layout_log st).
Proof.
  revert st. induction body as [|[[] j] body IH]; intros st Hs; cbn.
  - rewrite !app_nil_r. destruct st; cbn in *; by subst.
  - rewrite IH by (unfold scheduleWrite, scheduleLayout; cbn; by rewrite Hs).
    unfold scheduleWrite, scheduleLayout; cbn. rewrite Hs. cbn.
    by rewrite <- !app_assoc.
  - rewrite IH by (unfold scheduleRead, scheduleLayout; cbn; by rewrite Hs).
    unfold scheduleRead, scheduleLayout; cbn. rewrite Hs. cbn.
    by rewrite <- !app_assoc.
Qed.

Lemma layout_call_fold (jobs : list layout_job) (st : LayoutState) :
  scheduled st = true →
  foldl layout_call st jobs
  = mkLayout (readQueue st ++ requested false jobs)
             (writeQueue st ++ requested true jobs)
             true (layout_frames st)
             (layout_log st ++ (layout_job_id <$> jobs)).
Proof.
  revert st. induction jobs as [|j jobs IH]; intros st Hs; cbn.
  - unfold requested. cbn. rewrite !app_nil_r. destruct st; cbn in *; by subst.
  - unfold layout_call at 2. rewrite layout_body_fold by done. cbn.
    rewrite IH by done. cbn. unfold requested. cbn.
    rewrite !bind_app, <- !app_assoc. done.
Qed.

Lemma layout_forEach_quiet (jobs : list layout_job) (st : LayoutState) :
  layout_quiet jobs → layout_forEach jobs st = (false, foldl layout_call st jobs).
Proof.
  intros Hq. revert st. induction Hq as [|j jobs Hj _ IH]; intros st; cbn.
  - done.
  - by rewrite Hj, IH.
Qed.

Lemma layout_frame_eq (st : LayoutState) :
  layout_frames st = 1%nat → scheduled st = true →
  layout_quiet
    (readQueue st ++ writeQueue st ++ requested true (readQueue st)) →
  layout_frame st
  = mkLayout (layout_stranded st) [] false 0
      (layout_log st ++ (layout_job_id <$> readQueue st) ++
       (layout_job_id <$> writeQueue st ++ requested true (readQueue st))).
Proof.
  intros Hf Hs [Hr Hw]%Forall_app. unfold layout_frame. rewrite Hf. cbn.
  rewrite layout_forEach_quiet by done.
  rewrite (layout_call_fold (readQueue st)) by done. cbn.
  rewrite layout_forEach_quiet by done.
  rewrite layout_call_fold by done. cbn. by rewrite <- app_assoc.
Qed.

(** X17.  What one frame of the read/write scheduler does when none of
    the jobs it runs throws.  It runs the waiting reads in order, then the
    waiting writes in order followed by the writes the reads asked for.
    Reads asked for by a read and writes asked for by a write during the
    frame are thrown away unrun.  Reads asked for by a write stay in
    [readQueue] with [scheduled] false and no frame requested; they run,
    ahead of what is scheduled then, in the frame that the next
    [scheduleRead] or [scheduleWrite] requests. *)
Theorem layout_frame_effect (st : LayoutState) :
  layout_frames st = 1%nat → scheduled st = true →
  layout_quiet
    (readQueue st ++ writeQueue st ++ requested true (readQueue st)) →
  layout_frame st
  = mkLayout (layout_stranded st) [] false 0
      (layout_log st ++ (layout_job_id <$> readQueue st) ++
       (layout_job_id <$> writeQueue st ++ requested true (readQueue st))) ∧
  (∀ fn,
     layout_quiet (layout_stranded st ++ [fn] ++
                   requested true (layout_stranded st ++ [fn])) →
     layout_log (layout_frame (scheduleRead fn (layout_frame st)))
     = layout_log (layout_frame st) ++
       (layout_job_id <$> layout_stranded st ++ [fn]) ++
       (layout_job_id <$> requested true (layout_stranded st ++ [fn]))) ∧
  (∀ fn,
     layout_quiet (layout_stranded st ++ [fn] ++
                   requested true (layout_stranded st)) →
     layout_log (layout_frame (scheduleWrite fn (layout_frame st)))
     = layout_log (layout_frame st) ++
       (layout_job_id <$> layout_stranded st) ++
       (layout_job_id <$> [fn] ++ requested true (layout_stranded st))).
Proof.
  intros Hf Hs Hq. pose proof (layout_frame_eq st Hf Hs Hq) as E.
  split; [exact E|]. rewrite E. clear E.
  set (log := layout_log st ++ _).
  split; intros fn Hfn.
  - change (scheduleRead fn (mkLayout (layout_stranded st) [] false 0 log))
      with (mkLayout (layout_stranded st ++ [fn]) [] true 1 log).
    rewrite layout_frame_eq; [done|done|done|].
    cbn [readQueue writeQueue]. by rewrite app_nil_l, <- app_assoc.
  - change (scheduleWrite fn (mkLayout (layout_stranded st) [] false 0 log))
      with (mkLayout (layout_stranded st) [fn] true 1 log).
    by rewrite layout_frame_eq.
Qed.

Lemma layout_frame_effect_witness :
  layout_frames
    (scheduleWrite
       (LayoutJob 2 [(true, LayoutJob 5 [] false); (false, LayoutJob 6 [] false)]
                  false)
       (scheduleRead
          (LayoutJob 1 [(false, LayoutJob 3 [] false); (true, LayoutJob 4 [] false)]
                     false)
          layout_init)) = 1%nat ∧
  layout_frame
    (scheduleWrite
       (LayoutJob 2 [(true, LayoutJob 5 [] false); (false, LayoutJob 6 [] false)]
                  false)
       (scheduleRead
          (LayoutJob 1 [(false, LayoutJob 3 [] false); (true, LayoutJob 4 [] false)]
                     false)
          layout_init))
  = mkLayout [LayoutJob 6 [] false] [] false 0 [1; 2; 4]%nat ∧
  layout_log
    (layout_frame
       (scheduleRead (LayoutJob 7 [] false)
          (layout_frame
             (scheduleWrite
                (LayoutJob 2 [(true, LayoutJob 5 [] false);
                              (false, LayoutJob 6 [] false)] false)
                (scheduleRead
                   (LayoutJob 1 [(false, LayoutJob 3 [] false);
                                 (true, LayoutJob 4 [] false)] false)
                   layout_init)))))
  = [1; 2; 4; 6; 7]%nat.
Proof.
  destruct (layout_frame_effect
              (scheduleWrite
                 (LayoutJob 2 [(true, LayoutJob 5 [] false);
                               (false, LayoutJob 6 [] false)] false)
                 (scheduleRead
                    (LayoutJob 1 [(false, LayoutJob 3 [] false);
                                  (true, LayoutJob 4 [] false)] false)
                    layout_init))
              eq_refl eq_refl ltac:(repeat constructor))
    as (Hframe & Hread & _).
  split; [reflexivity|]. split; [exact Hframe|].
  rewrite (Hread (LayoutJob 7 [] false) ltac:(repeat constructor)).
  rewrite Hframe. reflexivity.
Defined.

Lemma layout_step_plain (st : LayoutState) (e : layout_event)
    (submitted : list nat) :
  plain_events [e] →
  (layout_frames st = if scheduled st then 1%nat else 0%nat) →
  (scheduled st = false → readQueue st = [] ∧ writeQueue st = []) →
  Forall (λ j, layout_body j = [] ∧ layout_throws j = false)
         (readQueue st ++ writeQueue st) →
  layout_log st ++ (layout_job_id <$> readQueue st ++ writeQueue st)
    ≡ₚ submitted →
  let st' := layout_step st e in
  (layout_frames st' = if scheduled st' then 1%nat else 0%nat) ∧
  (scheduled st' = false → readQueue st' = [] ∧ writeQueue st' = []) ∧
  Forall (λ j, layout_body j = [] ∧ layout_throws j = false)
         (readQueue st' ++ writeQueue st') ∧
  layout_log st' ++ (layout_job_id <$> readQueue st' ++ writeQueue st')
    ≡ₚ submitted ++ layout_submitted [e].
Proof.
  intros Hplain Hf Hq Hb Hp. unfold plain_events in Hplain.
  rewrite Forall_singleton in Hplain.
  assert (∀ w jobs,
            Forall (λ j, layout_body j = [] ∧ layout_throws j = false) jobs →
            requested w jobs = []) as Hreq.
  { intros w jobs Hj. unfold requested.
    induction Hj as [|j jobs [Hj _] _ IH]; [done|]. cbn. by rewrite Hj. }
  assert (∀ jobs,
            Forall (λ j, layout_body j = [] ∧ layout_throws j = false) jobs →
            layout_quiet jobs) as Hquiet.
  { intros jobs Hj. eapply Forall_impl; [exact Hj|]. by intros j [_ ?]. }
  destruct e as [fn|fn|]; cbn -[layout_frame] in Hplain |- *.
  - destruct st as [rq wq sch fr lg]. cbn in *.
    unfold scheduleRead, scheduleLayout. cbn. rewrite ?app_nil_r.
    apply Forall_app in Hb as [H1 H2].
    destruct sch; cbn.
    + split; [done|]. split; [done|]. split.
      * by rewrite !Forall_app, Forall_singleton.
      * rewrite <- Hp, !fmap_app. cbn. solve_Permutation.
    + destruct (Hq eq_refl) as [-> ->]. cbn in *.
      split; [by subst|]. split; [done|].
      split; [by rewrite ?Forall_app, Forall_singleton|].
      rewrite <- Hp. by rewrite !app_nil_r.
  - destruct st as [rq wq sch fr lg]. cbn in *.
    unfold scheduleWrite, scheduleLayout. cbn. rewrite ?app_nil_r.
    apply Forall_app in Hb as [H1 H2].
    destruct sch; cbn.
    + split; [done|]. split; [done|]. split.
      * by rewrite !Forall_app, Forall_singleton.
      * rewrite <- Hp, !fmap_app. cbn. solve_Permutation.
    + destruct (Hq eq_refl) as [-> ->]. cbn in *.
      split; [by subst|]. split; [done|].
      split; [by rewrite ?Forall_app, Forall_singleton|].
      rewrite <- Hp. by rewrite !app_nil_r.
  - rewrite ?app_nil_r. destruct (scheduled st) eqn:Hs.
    + apply Forall_app in Hb as [H1 H2].
      assert (requested true (readQueue st) = []) as Hrw by (by apply Hreq).
      rewrite (layout_frame_eq st Hf Hs)
        by (rewrite Hrw, app_nil_r; apply Hquiet; by apply Forall_app).
      unfold layout_stranded. cbn. rewrite Hrw, app_nil_r.
      rewrite (Hreq false (writeQueue st)) by done. cbn.
      split; [done|]. split; [done|]. split; [done|].
      rewrite app_nil_r, <- Hp, fmap_app. done.
    + unfold layout_frame. rewrite Hf. cbn. rewrite Hs. by rewrite Hf.
Qed.

(** X18.  With jobs that schedule nothing themselves and do not throw,
    the read/write scheduler loses nothing and repeats nothing: after any
    sequence of [scheduleRead], [scheduleWrite] and frames, the jobs run so
    far together with the jobs still queued are exactly the jobs handed in,
    each as often as it was handed in; and a frame is requested whenever a
    job is queued. *)
Theorem layout_plain_jobs_run_once (es : list layout_event) :
  plain_events es →
  layout_log (foldl layout_step layout_init es) ++
  (layout_job_id <$> readQueue (foldl layout_step layout_init es) ++
                     writeQueue (foldl layout_step layout_init es))
    ≡ₚ layout_submitted es ∧
  (readQueue (foldl layout_step layout_init es) ++
   writeQueue (foldl layout_step layout_init es) ≠ [] →
   layout_frames (foldl layout_step layout_init es) = 1%nat).
Proof.
  intros Hplain.
  assert (let st := foldl layout_step layout_init es in
          (layout_frames st = if scheduled st then 1%nat else 0%nat) ∧
          (scheduled st = false → readQueue st = [] ∧ writeQueue st = []) ∧
          Forall (λ j, layout_body j = [] ∧ layout_throws j = false)
                 (readQueue st ++ writeQueue st) ∧
          layout_log st ++ (layout_job_id <$> readQueue st ++ writeQueue st)
            ≡ₚ layout_submitted es) as (Hf & Hq & _ & Hp).
  { induction es as [|e es IH] using rev_ind; [by cbn|].
    apply Forall_app in Hplain as [Hes He].
    destruct (IH Hes) as (Hf & Hq & Hb & Hp).
    rewrite foldl_app. cbn [foldl].
    unfold layout_submitted. rewrite bind_app. fold (layout_submitted es).
    by apply layout_step_plain. }
  split; [exact Hp|]. intros Hne. rewrite Hf.
  destruct (scheduled _); [done|]. destruct (Hq eq_refl) as [Hr Hw].
  by rewrite Hr, Hw in Hne.
Qed.

Lemma layout_plain_jobs_run_once_witness :
  plain_events [LayoutWrite (LayoutJob 1 [] false);
                LayoutRead (LayoutJob 2 [] false);
                LayoutFrame; LayoutRead (LayoutJob 3 [] false)] ∧
  layout_log (foldl layout_step layout_init
                [LayoutWrite (LayoutJob 1 [] false);
                 LayoutRead (LayoutJob 2 [] false);
                 LayoutFrame; LayoutRead (LayoutJob 3 [] false)]) = [2; 1]%nat ∧
  layout_frames (foldl layout_step layout_init
                   [LayoutWrite (LayoutJob 1 [] false);
                    LayoutRead (LayoutJob 2 [] false);
                    LayoutFrame; LayoutRead (LayoutJob 3 [] false)]) = 1%nat.
Proof.
  assert (plain_events [LayoutWrite (LayoutJob 1 [] false);
                        LayoutRead (LayoutJob 2 [] false);
                        LayoutFrame; LayoutRead (LayoutJob 3 [] false)])
    as Hplain.
  { repeat constructor. }
  split; [exact Hplain|]. split; [reflexivity|].
  apply (proj2 (layout_plain_jobs_run_once _ Hplain)). discriminate.
Defined.






(** ** The passive-listener patch *)

(** X19.  The patched [addEventListener] fills in a missing [passive]
    and does nothing else.  Options of other event types pass through
    untouched.  For [scroll] and [wheel]: [undefined] becomes
    [{passive: true}]; a boolean [b] becomes [{capture: b, passive: true}];
    an options object whose [passive] is absent or [undefined] gains
    [passive: true] and keeps every other property; an options object that
    says anything else about [passive], [false] included, passes through
    untouched, as do [null] and values that are neither.  Patching already
    patched options changes nothing. *)
Theorem passive_patch_fills_in_only (type : string)
    (options : listener_options) :
  patched_options type (patched_options type options)
    = patched_options type options ∧
  (type ≠ "scroll" → type ≠ "wheel" → patched_options type options = options) ∧
  (type = "scroll" ∨ type = "wheel" →
     (options = OptUndefined →
        patched_options type options
        = OptObject {[ "passive" := JS.JBool true ]}) ∧
     (∀ b, options = OptBoolean b →
        ∃ props', patched_options type options = OptObject props' ∧
                  props' !! "capture" = Some (JS.JBool b) ∧
                  props' !! "passive" = Some (JS.JBool true) ∧
                  ∀ k, k ≠ "capture" → k ≠ "passive" → props' !! k = None) ∧
     (∀ props, options = OptObject props →
        is_undefined (props !! "passive") = true →
        ∃ props', patched_options type options = OptObject props' ∧
                  props' !! "passive" = Some (JS.JBool true) ∧
                  ∀ k, k ≠ "passive" → props' !! k = props !! k) ∧
     (∀ props, options = OptObject props →
        is_undefined (props !! "passive") = false →
        patched_options type options = options) ∧
     (options = OptNull ∨ options = OptOther →
        patched_options type options = options)).
Proof.
  unfold patched_options.
  destruct (bool_decide (type = "scroll") || bool_decide (type = "wheel"))
    eqn:Ht.
  - split; [|split].
    + destruct options as [| |b|props|]; cbn; try done.
      destruct (is_undefined (props !! "passive")) eqn:Hp; cbn.
      * by rewrite lookup_insert_eq.
      * by rewrite Hp.
    + intros H1 H2. apply orb_true_iff in Ht as [Ht|Ht];
        by apply bool_decide_eq_true in Ht.
    + intros _. split; [by intros ->|]. split; [|split; [|split]].
      * intros b ->. eexists. split; [reflexivity|].
        split; [by rewrite lookup_insert_ne, lookup_singleton_eq|].
        split; [by rewrite lookup_insert_eq|].
        intros k H1 H2. by rewrite lookup_insert_ne, lookup_singleton_ne.
      * intros props -> Hp. rewrite Hp. eexists. split; [reflexivity|].
        split; [by rewrite lookup_insert_eq|].
        intros k Hk. by rewrite lookup_insert_ne.
      * intros props -> Hp. by rewrite Hp.
      * by intros [-> | ->].
  - apply orb_false_iff in Ht as [H1 H2].
    apply bool_decide_eq_false in H1, H2.
    split; [done|]. split; [done|]. by intros [?|?].
Qed.

(** [passive_patch_fills_in_only] on an explicit [passive: false], on
    [{once: true}], on [true] and on [undefined]. *)
Lemma passive_patch_fills_in_only_witness :
  patched_options "wheel"
    (OptObject {[ "passive" := JS.JBool false; "once" := JS.JBool true ]})
  = OptObject {[ "passive" := JS.JBool false; "once" := JS.JBool true ]} ∧
  (∃ props', patched_options "scroll" (OptObject {[ "once" := JS.JBool true ]})
             = OptObject props' ∧
             props' !! "passive" = Some (JS.JBool true) ∧
             props' !! "once" = Some (JS.JBool true)) ∧
  (∃ props', patched_options "scroll" (OptBoolean true) = OptObject props' ∧
             props' !! "capture" = Some (JS.JBool true) ∧
             props' !! "passive" = Some (JS.JBool true)) ∧
  patched_options "wheel" OptUndefined
  = OptObject {[ "passive" := JS.JBool true ]}.
Proof.
  destruct (passive_patch_fills_in_only "wheel"
              (OptObject {[ "passive" := JS.JBool false;
                            "once" := JS.JBool true ]}))
    as (_ & _ & Hwheel).
  destruct (Hwheel (or_intror eq_refl)) as (_ & _ & _ & Hkeep & _).
  destruct (passive_patch_fills_in_only "scroll"
              (OptObject {[ "once" := JS.JBool true ]}))
    as (_ & _ & Hscroll).
  destruct (Hscroll (or_introl eq_refl)) as (_ & _ & Hfill & _).
  destruct (passive_patch_fills_in_only "scroll" (OptBoolean true))
    as (_ & _ & Hscroll').
  destruct (Hscroll' (or_introl eq_refl)) as (_ & Hbool & _).
  destruct (passive_patch_fills_in_only "wheel" OptUndefined)
    as (_ & _ & Hwheel').
  destruct (Hwheel' (or_intror eq_refl)) as (Hundef & _).
  split; [apply (Hkeep _ eq_refl); vm_compute; reflexivity|].
  split.
  { destruct (Hfill _ eq_refl ltac:(vm_compute; reflexivity))
      as (props' & E & Hp & Hrest).
    exists props'. split; [exact E|]. split; [exact Hp|].
    rewrite (Hrest "once" ltac:(discriminate)). vm_compute. reflexivity. }
  split.
  { destruct (Hbool true eq_refl) as (props' & E & Hc & Hp & _).
    exists props'. split; [exact E|]. split; [exact Hc|exact Hp]. }
  exact (Hundef eq_refl).
Defined.

(** ** The navbar *)

(** X20.  After every handled scroll event the navbar is hidden exactly
    when that event moved down to an offset beyond 200, it carries
    [scrolled] exactly when the offset is beyond 100, and so it is never
    hidden without carrying [scrolled]; an event that does not move down
    always brings it back. *)
Theorem navbar_hidden_iff_scrolling_down (nav : Navbar) (ys : list Q)
    (y : Q) :
  (nav_transform (foldl navbar_on_scroll nav (ys ++ [y])) = "translateY(-100%)"
   ↔ (lastScrollY (foldl navbar_on_scroll nav ys) < y)%Q ∧ (200 < y)%Q) ∧
  (nav_transform (foldl navbar_on_scroll nav (ys ++ [y])) = "translateY(-100%)"
   ∨ nav_transform (foldl navbar_on_scroll nav (ys ++ [y])) = "translateY(0)") ∧
  (nav_scrolled (foldl navbar_on_scroll nav (ys ++ [y])) = true
   ↔ (100 < y)%Q) ∧
  (nav_transform (foldl navbar_on_scroll nav (ys ++ [y])) = "translateY(-100%)"
   → nav_scrolled (foldl navbar_on_scroll nav (ys ++ [y])) = true) ∧
  lastScrollY (foldl navbar_on_scroll nav (ys ++ [y])) = y.
Proof.
  rewrite foldl_app. cbn. set (prev := foldl navbar_on_scroll nav ys).
  assert (100 < 200)%Q as H12 by reflexivity.
  destruct (Qlt_le_dec (lastScrollY prev) y) as [Hl|Hl];
    destruct (Qlt_le_dec 200 y) as [H2|H2];
    destruct (Qlt_le_dec 100 y) as [H1|H1]; cbn;
    repeat split; try done; try (intros [? ?]); eauto; try lra.
Qed.

(** X21.  Because the scroll handler is throttled without a trailing call,
    the navbar can be left hidden at the top of the page.  A scroll event
    that moves down beyond 200 is handled and hides the navbar; a scroll
    back to offset 0 within [limit] milliseconds of the handler's return is
    dropped; when the throttle's timer has run nothing is pending any more,
    and the navbar is still hidden and still carries [scrolled], with
    [lastScrollY] at the old offset. *)
Theorem throttled_navbar_stale_at_top (limit t0 t tr t1 t2 : Z) (nav : Navbar)
    (y0 : Q) :
  t0 ≤ t → t ≤ tr → tr ≤ t1 → t1 < tr + limit → tr + limit ≤ t2 →
  (200 < y0)%Q → (lastScrollY nav < y0)%Q →
  throttled_navbar limit t0 nav
    [ThrottleCall t y0; ThrottleFuncReturns tr; ThrottleCall t1 0%Q;
     ThrottleTimeout t2]
  = Some (mkNavbar true "translateY(-100%)" y0) ∧
  throttle_timers
    <$> throttle_run limit
          [ThrottleCall t y0; ThrottleFuncReturns tr; ThrottleCall t1 0%Q;
           ThrottleTimeout t2]
          (throttle_init t0)
  = Some [].
Proof.
  intros H0 Hr H1 H2 H3 Hy Hl.
  assert (throttle_run limit
            [ThrottleCall t y0; ThrottleFuncReturns tr; ThrottleCall t1 0%Q;
             ThrottleTimeout t2]
            (throttle_init t0)
          = Some (mkThrottle false [] 0 [(t, y0)] t2)) as Hrun.
  { unfold throttle_run, throttle_init. cbn.
    destruct (decide (t0 ≤ t)); [|lia]. cbn.
    destruct (decide (t ≤ tr)); [|lia]. cbn.
    destruct (decide (tr ≤ t1)); [|lia]. cbn.
    unfold due_time.
    destruct (decide (t1 ≤ t2 ∧ tr + Z.max 0 limit ≤ t2)); [done|lia]. }
  unfold throttled_navbar. rewrite Hrun. cbn. split; [|done].
  unfold navbar_on_scroll.
  destruct (Qlt_le_dec (lastScrollY nav) y0) as [_|Hc]; [|lra].
  destruct (Qlt_le_dec 200 y0) as [_|Hc]; [|lra].
  destruct (Qlt_le_dec 100 y0) as [_|Hc]; [done|lra].
Qed.

Lemma throttled_navbar_stale_at_top_witness :
  throttled_navbar 100 0 (mkNavbar false "" 0%Q)
    [ThrottleCall 10 (350 # 1)%Q; ThrottleFuncReturns 10; ThrottleCall 60 0%Q;
     ThrottleTimeout 110]
  = Some (mkNavbar true "translateY(-100%)" (350 # 1)%Q).
Proof.
  exact (proj1 (throttled_navbar_stale_at_top 100 0 10 10 60 110
                  (mkNavbar false "" 0%Q) (350 # 1)%Q
                  ltac:(lia) ltac:(lia) ltac:(lia) ltac:(lia) ltac:(lia)
                  eq_refl eq_refl)).
Defined.

(** ** The observer pool *)





(** ** The typewriter *)

Lemma string_take_snoc (k : nat) (s : string) :
  (k < String.length s)%nat →
  append_char (string_take k s) (String.get k s) = string_take (S k) s.
Proof.
  revert k. induction s as [|c s IH]; intros k Hk; cbn in Hk; [lia|].
  destruct k as [|k].
  - cbn. by destruct s.
  - specialize (IH k ltac:(lia)).
    change (String.get (S k) (String c s)) with (String.get k s).
    change (string_take (S (S k)) (String c s))
      with (String c (string_take (S k) s)).
    change (string_take (S k) (String c s)) with (String c (string_take k s)).
    rewrite <- IH. unfold append_char. by destruct (String.get k s).
Qed.

Lemma string_take_all (s : string) : string_take (String.length s) s = s.
Proof. induction s as [|c s IH]; cbn; by rewrite ?IH. Qed.

Lemma hero_run_snoc (text : string) (heroName : bool) (ts : list Z) (t : Z)
    (st : Typing) :
  hero_run text heroName (ts ++ [t]) st
  = hero_run text heroName ts st ≫= λ st', hero_timer_runs text heroName st' t.
Proof. unfold hero_run. by rewrite foldl_app. Qed.

(** While the text is being typed: after [k] timer turns the title holds
    the first [k] characters and the next [typeWriter] is pending. *)
Lemma hero_typing (text : string) (heroName name0 : bool) (t0 : Z)
    (ts : list Z) (st : Typing) :
  (length ts ≤ String.length text)%nat →
  hero_run text heroName ts (animateHeroTitle text t0 name0) = Some st →
  hero_textContent (hero_title st) = string_take (length ts) text ∧
  typed st = length ts ∧
  heroName_animated st = name0 ∧
  hero_borderRight (hero_title st) = "2px solid var(--accent-primary)" ∧
  t0 ≤ hero_clock st ∧
  ∃ due, hero_pending st = Some (TypeWriterTimer, due) ∧
         t0 + 500 + 60 * Z.of_nat (length ts) ≤ due.
Proof.
  revert st. induction ts as [|t ts IH] using rev_ind; intros st Hlen Hrun.
  - injection Hrun as <-. cbn. repeat split; try done; try lia.
    eexists. split; [done|]. unfold due_time. lia.
  - rewrite length_app in *. cbn in Hlen.
    rewrite hero_run_snoc in Hrun.
    destruct (hero_run text heroName ts _) as [st0|]; [|done].
    cbn in Hrun.
    destruct (IH st0 ltac:(lia) eq_refl)
      as (Htext & Hi & Hn & Hb & Hc & due & Hp & Hdue).
    unfold hero_timer_runs in Hrun. rewrite Hp in Hrun.
    destruct (decide _) as [[Hc' Hd']|]; [|done].
    destruct (decide _) as [_|]; [|lia]. injection Hrun as <-. cbn.
    rewrite Htext, Hi, string_take_snoc by lia.
    replace (length ts + 1)%nat with (S (length ts)) by lia.
    repeat split; try done; try lia.
    eexists. split; [done|]. unfold due_time. lia.
Qed.

(** X23.  The typewriter types the text and nothing else.  After [k]
    timer turns, [k] up to the length of the text, the title holds exactly
    its first [k] characters; two turns later the text is complete, the
    cursor styles are switched off, the hero name (if the page has one) is
    animated, no timer is left, and at least 500 + 60 per character + 300
    milliseconds have passed since [animateHeroTitle]. *)
Theorem typewriter_types_the_text (text : string) (heroName name0 : bool)
    (t0 : Z) (ts : list Z) (st : Typing) :
  hero_run text heroName ts (animateHeroTitle text t0 name0) = Some st →
  ((length ts ≤ String.length text)%nat →
     hero_textContent (hero_title st) = string_take (length ts) text) ∧
  (length ts = S (S (String.length text)) →
     hero_title st
     = mkHeroTitle text "none" "none"
         "0 0 8px rgba(14, 165, 233, 0.4), 0 0 16px rgba(14, 165, 233, 0.2)" ∧
     heroName_animated st = (if heroName then true else name0) ∧
     hero_pending st = None ∧
     t0 + 500 + 60 * Z.of_nat (String.length text) + 300 ≤ hero_clock st).
Proof.
  intros Hrun. split.
  - intros Hlen. by destruct (hero_typing text heroName name0 t0 ts st Hlen Hrun).
  - intros Hlen.
    destruct ts as [|t2 ts _] using rev_ind; [done|].
    destruct ts as [|t1 ts _] using rev_ind; [done|].
    rewrite !length_app in Hlen. cbn in Hlen.
    rewrite !hero_run_snoc in Hrun.
    destruct (hero_run text heroName ts _) as [st0|] eqn:Hrun0; [|done].
    cbn in Hrun.
    destruct (hero_typing text heroName name0 t0 ts st0 ltac:(lia) Hrun0)
      as (Htext & Hi & Hn & Hb & Hc & due & Hp & Hdue).
    destruct (hero_timer_runs text heroName st0 t1) as [st1|] eqn:H1; [|done].
    cbn in Hrun. unfold hero_timer_runs in H1. rewrite Hp in H1.
    destruct (decide _) as [[Hc1 Hd1]|]; [|done].
    destruct (decide _) as [|_]; [lia|]. injection H1 as <-.
    unfold hero_timer_runs in Hrun. cbn in Hrun.
    destruct (decide _) as [[Hc2 Hd2]|]; [|done]. injection Hrun as <-. cbn.
    rewrite Htext, Hn.
    replace (length ts) with (String.length text) by lia.
    rewrite string_take_all. repeat split; try done.
    unfold due_time in Hd2. lia.
Qed.

Lemma typewriter_types_the_text_witness :
  hero_run hero_title_text true punctual_turns
           (animateHeroTitle hero_title_text 0 false)
  = Some (mkTyping
            (mkHeroTitle hero_title_text "none" "none"
               "0 0 8px rgba(14, 165, 233, 0.4), 0 0 16px rgba(14, 165, 233, 0.2)")
            26 true None 2360) ∧
  0 + 500 + 60 * Z.of_nat (String.length hero_title_text) + 300 ≤ 2360.
Proof.
  assert (hero_run hero_title_text true punctual_turns
                   (animateHeroTitle hero_title_text 0 false)
          = Some (mkTyping
                    (mkHeroTitle hero_title_text "none" "none"
                       "0 0 8px rgba(14, 165, 233, 0.4), 0 0 16px rgba(14, 165, 233, 0.2)")
                    26 true None 2360)) as Hrun
    by (vm_compute; reflexivity).
  split; [exact Hrun|].
  destruct (typewriter_types_the_text hero_title_text true false 0 _ _ Hrun)
    as (_ & Hdone).
  destruct (Hdone eq_refl) as (_ & _ & _ & Hclock). exact Hclock.
Defined.
